(** * Local project manager: the scan / detect / classify / prune engine

    A shallow embedding of [lpm/project.py], [lpm/git_utils.py] and
    [lpm/scanner.py], of the loaders of [lpm/config.py] and of the filters,
    the start-up scan and the refresh of [lpm/app.py], followed by the
    properties of the engine.

    Conventions of the embedding.
    - A [Path] is the list of its components; [p / name] is [p ++ [name]].
    - A naive [datetime] is an integer number of microseconds, so that
      [timedelta.days] is a floor division by the microseconds of a day.
    - Sizes in megabytes are exact rationals: a byte count below 2^53
      divided by 2^20 is represented exactly by a Python float, and the
      comparisons of finite floats are the comparisons of rationals.  From
      2^53 bytes on the float division rounds; a property that states a
      size exactly carries the bound as a hypothesis.
    - The file system is a tree snapshot.  Every node records what the
      calls made on it observe, including the failures the source guards
      against ([stat] raising, [scandir] raising).
    - Three library calls are taken to answer.  [Path.exists] and
      [Path.is_file] return a boolean: up to CPython 3.12 they re-raise an
      [OSError] other than "not found", as for an entry of a directory that
      may not be searched, which the snapshot does not describe.
      [datetime.fromtimestamp] converts: it raises for a timestamp outside
      the years 1 to 9999.  A progress callback returns.  Where one of
      them raises instead, the exception ends the loop that encloses the
      call, or the whole scan; so the properties below that say what a scan
      does not do, or what its results are like, hold of such a run too,
      and a property that says what a function returns or finds carries
      what it needs as a hypothesis, or is stated at one input.
    - Python exceptions are the [Raise] results of a small monad that also
      records the observable trace of a scan. *)

From Stdlib Require Import List String Ascii Bool ZArith QArith Lia Arith.
From Stdlib Require Import DecimalString.
Import ListNotations.

Set Warnings "-register-all,-notation-for-abbreviation".

Local Open Scope string_scope.
Local Open Scope list_scope.
Local Open Scope Z_scope.

(** ** project.py: enumerations and the Project record *)

Inductive ProjectType : Type :=
| PYTHON | NODEJS | RUST | GO | JAVA | PHP | CSHARP | RUBY | UNKNOWN.

Inductive GitStatus : Type :=
| CLEAN | DIRTY | UNPUSHED | NO_REMOTE.

Inductive Classification : Type :=
| ACTIVE | WIP | DORMANT | STALE.

Definition Path : Type := list string.

Definition ProjectType_eqb (a b : ProjectType) : bool :=
  match a, b with
  | PYTHON, PYTHON | NODEJS, NODEJS | RUST, RUST | GO, GO | JAVA, JAVA
  | PHP, PHP | CSHARP, CSHARP | RUBY, RUBY | UNKNOWN, UNKNOWN => true
  | _, _ => false
  end.

Definition Classification_eqb (a b : Classification) : bool :=
  match a, b with
  | ACTIVE, ACTIVE | WIP, WIP | DORMANT, DORMANT | STALE, STALE => true
  | _, _ => false
  end.

Module Project.
Record t : Type := mk {
  path : Path;
  name : string;
  has_git : bool;
  git_remote : option string;
  git_status : option GitStatus;
  readme_path : option Path;
  project_type : ProjectType;
  last_modified : Z;
  size_mb : Q;
  classification : Classification;
  is_prunable : bool
}.
End Project.

(** ** scanner.py: classify_project and is_prunable *)

Definition microseconds_per_day : Z := 86400000000.

(** [(a - b).days] for two naive datetimes: timedelta normalisation keeps
    the seconds and microseconds non-negative, so the days are a floor. *)
Definition timedelta_days (a b : Z) : Z := (a - b) / microseconds_per_day.

Definition is_some {A : Type} (o : option A) : bool :=
  match o with Some _ => true | None => false end.

Section Clock.

(** The value [datetime.now()] returns. *)
Variable now : Z.

Definition classify_project (last_modified : Z)
    (has_git_remote has_readme : bool)
    (active_threshold dormant_threshold : Z) : Classification :=
  let age_days := timedelta_days now last_modified in
  if age_days <=? active_threshold then
    if has_git_remote || has_readme then ACTIVE else WIP
  else if age_days <=? dormant_threshold then DORMANT
  else STALE.

End Clock.

(** [x > y] and [x < y] on sizes. *)
Definition Qgtb (x y : Q) : bool := negb (Qle_bool x y).
Definition Qltb (x y : Q) : bool := negb (Qle_bool y x).

Definition is_prunable (classification : Classification)
    (has_git_remote : bool) (size_mb min_size_mb max_size_mb : Q) : bool :=
  if negb (Classification_eqb classification STALE) then false
  else if has_git_remote then false
  else Qgtb size_mb min_size_mb || Qltb size_mb max_size_mb.


(** ** Exceptions and results

    One constructor per exception class the sources name; [OSError] stands
    for the class together with its subclasses ([PermissionError],
    [FileNotFoundError], [NotADirectoryError]).  [RuntimeError] is what
    [Path.expanduser] raises when a home directory cannot be determined. *)

Inductive exn : Type :=
| OSError | InvalidGitRepositoryError | GitCommandError | ValueError
| RuntimeError.

Inductive result (A : Type) : Type :=
| Ok (a : A)
| Raise (e : exn).
Arguments Ok {A} a.
Arguments Raise {A} e.

Definition rbind {A B : Type} (r : result A) (f : A -> result B) : result B :=
  match r with
  | Ok a => f a
  | Raise e => Raise e
  end.

Declare Scope result_scope.
Delimit Scope result_scope with result.
Notation "x <- r ;; k" := (rbind r (fun x => k))
  (at level 61, r at next level, right associativity) : result_scope.

(** ** The file-system snapshot *)

Record fstat : Type := { st_size : Z; st_mtime : Z }.

(** What a symbolic link resolves to. *)
Inductive link_target : Type :=
| Broken
| ToFile (st : option fstat)
| ToDir.

(** [File st] and [Dir mtime listable entries]: [st] and [mtime] are what
    [stat()] returns during the metadata pass, [None] when it raises
    [OSError] (the entry vanished or became inaccessible after it was
    listed); [listable = false] when [scandir] on the directory raises.
    [entries] is in the order [scandir] yields. *)
Inductive node : Type :=
| File (st : option fstat)
| Link (t : link_target)
| Dir (mtime : option Z) (listable : bool) (entries : list (string * node)).

Definition entries_of (d : node) : list (string * node) :=
  match d with
  | Dir _ _ es => es
  | _ => []
  end.

Fixpoint lookup (name : string) (es : list (string * node)) : option node :=
  match es with
  | [] => None
  | (n, c) :: rest => if String.eqb n name then Some c else lookup name rest
  end.

(** [(d / name).exists()], where it answers: follows links, false for a
    dangling one. *)
Definition path_exists (d : node) (name : string) : bool :=
  match lookup name (entries_of d) with
  | Some (Link Broken) => false
  | Some _ => true
  | None => false
  end.

(** [(d / name).is_file()]: a regular file, possibly through a link. *)
Definition path_is_file (d : node) (name : string) : bool :=
  match lookup name (entries_of d) with
  | Some (File _) => true
  | Some (Link (ToFile _)) => true
  | _ => false
  end.

(** [entry.is_dir(follow_symlinks=False)] of a [scandir] entry. *)
Definition entry_is_dir_nofollow (c : node) : bool :=
  match c with
  | Dir _ _ _ => true
  | _ => false
  end.

(** [entry.is_dir()], which follows links: how [os.walk] splits the entries
    of a directory into [dirnames] and [filenames]. *)
Definition entry_is_dir (c : node) : bool :=
  match c with
  | Dir _ _ _ => true
  | Link ToDir => true
  | _ => false
  end.

(** [stat()] of a path, following links. *)
Definition stat_size_mtime (c : node) : option fstat :=
  match c with
  | File st => st
  | Link (ToFile st) => st
  | Link Broken => None
  | Link ToDir => None
  | Dir _ _ _ => None
  end.

Definition stat_dir_mtime (d : node) : option Z :=
  match d with
  | Dir mtime _ _ => mtime
  | File st => option_map st_mtime st
  | Link (ToFile st) => option_map st_mtime st
  | Link _ => None
  end.

(** ** Shell-style wildcards

    The matching [Path.glob] applies to the names of the direct entries,
    for the wildcards [*] and [?] (character classes are not modelled; no
    marker of the table uses one). *)

Definition is_star (c : ascii) : bool := Ascii.eqb c "*"%char.
Definition is_question (c : ascii) : bool := Ascii.eqb c "?"%char.

Fixpoint fnmatch (name pat : string) {struct pat} : bool :=
  match pat with
  | EmptyString =>
      match name with EmptyString => true | String _ _ => false end
  | String c pat' =>
      if is_star c then
        (fix star (s : string) : bool :=
           fnmatch s pat' ||
           match s with
           | EmptyString => false
           | String _ s' => star s'
           end) name
      else
        match name with
        | EmptyString => false
        | String d name' =>
            (is_question c || Ascii.eqb c d) && fnmatch name' pat'
        end
  end.

Fixpoint contains_star (s : string) : bool :=
  match s with
  | EmptyString => false
  | String c s' => is_star c || contains_star s'
  end.

(** [list(d.glob(pattern))], as the names that match: an unreadable
    directory yields nothing. *)
Definition glob (d : node) (pattern : string) : list string :=
  match d with
  | Dir _ true es => filter (fun n => fnmatch n pattern) (map fst es)
  | _ => []
  end.

(** ** scanner.py: detection *)

Definition PROJECT_TYPE_MARKERS : list (ProjectType * list string) :=
  [ (PYTHON, ["pyproject.toml"; "setup.py"; "requirements.txt"]);
    (NODEJS, ["package.json"]);
    (RUST, ["Cargo.toml"]);
    (GO, ["go.mod"]);
    (JAVA, ["pom.xml"; "build.gradle"]);
    (PHP, ["composer.json"]);
    (CSHARP, [".csproj"; ".sln"]);
    (RUBY, ["Gemfile"]) ].

Definition README_NAMES : list string :=
  ["README.md"; "README.txt"; "readme.md"; "readme.txt"; "Readme.md";
   "Readme.txt"].

(** The test the inner loop of [detect_project_type] makes for one marker. *)
Definition marker_hit (d : node) (marker : string) : bool :=
  if contains_star marker then
    match glob d marker with [] => false | _ :: _ => true end
  else path_exists d marker.

(** The two nested loops of [detect_project_type] over a marker table. *)
Fixpoint detect_in (table : list (ProjectType * list string)) (d : node)
  : ProjectType :=
  match table with
  | [] => UNKNOWN
  | (project_type, markers) :: rest =>
      if existsb (marker_hit d) markers then project_type
      else detect_in rest d
  end.

Definition detect_project_type (d : node) : ProjectType :=
  detect_in PROJECT_TYPE_MARKERS d.

Definition should_ignore_directory (dir_name : string)
    (ignore_patterns : list string) : bool :=
  existsb (String.eqb dir_name) ignore_patterns.

Fixpoint find_readme_in (names : list string) (project_path : Path)
    (d : node) : option Path :=
  match names with
  | [] => None
  | readme_name :: rest =>
      if path_exists d readme_name && path_is_file d readme_name
      then Some (project_path ++ [readme_name])
      else find_readme_in rest project_path d
  end.

Definition find_readme (project_path : Path) (d : node) : option Path :=
  find_readme_in README_NAMES project_path d.

Definition is_project_directory (path : Path) (d : node) : bool :=
  if path_exists d ".git" then true
  else if is_some (find_readme path d) then true
  else if negb (ProjectType_eqb (detect_project_type d) UNKNOWN) then true
  else false.

(** ** scanner.py: metadata *)

(** [os.walk(path)] (top-down, links not followed, errors of [scandir]
    ignored): for every directory it yields, what [stat()] on that directory
    gives and the nodes of its [filenames]. *)
Fixpoint os_walk (d : node) : list (option Z * list node) :=
  match d with
  | Dir mtime true es =>
      (mtime, filter (fun c => negb (entry_is_dir c)) (map snd es))
      :: flat_map (fun e => os_walk (snd e)) es
  | _ => []
  end.

Definition file_size_or_skip (total_size : Z) (f : node) : Z :=
  match stat_size_mtime f with
  | Some st => total_size + st_size st
  | None => total_size
  end.

(** The total is an integer; the quotient is the float the division gives
    as long as the total is below 2^53. *)
Definition get_directory_size (d : node) : Q :=
  let total_size :=
    fold_left (fun total dir => fold_left file_size_or_skip (snd dir) total)
              (os_walk d) 0 in
  (inject_Z total_size / inject_Z (1024 * 1024))%Q.

Definition file_mtime_or_skip (most_recent : Z) (f : node) : Z :=
  match stat_size_mtime f with
  | Some st => Z.max most_recent (st_mtime st)
  | None => most_recent
  end.

(** One iteration of the walk in [get_last_modified]: a directory whose
    [stat()] raises is skipped together with its files ([continue]). *)
Definition dir_mtime_or_skip (most_recent : Z) (dir : option Z * list node)
  : Z :=
  match fst dir with
  | Some dir_mtime =>
      fold_left file_mtime_or_skip (snd dir) (Z.max most_recent dir_mtime)
  | None => most_recent
  end.

(** The first [path.stat()] is outside every [try].  The timestamps are
    the [datetime] values, [datetime.fromtimestamp] having converted them
    (see [mtimes_convertible]). *)
Definition get_last_modified (d : node) : result Z :=
  match stat_dir_mtime d with
  | None => Raise OSError
  | Some most_recent => Ok (fold_left dir_mtime_or_skip (os_walk d) most_recent)
  end.

(** ** git_utils.py *)

(** What GitPython reports for a repository; every query may raise. *)
Record Remote : Type := {
  remote_name : string;
  remote_urls : result (list string)
}.

Record Repo : Type := {
  remotes : list Remote;
  is_dirty : result bool;
  head_is_detached : result bool;
  tracking_branch : result (option string);
  commits_ahead : result nat
}.

Local Open Scope result_scope.

(** [next(r.urls, None)] *)
Definition first_url (r : Remote) : result (option string) :=
  urls <- remote_urls r ;; Ok (hd_error urls).

Definition select_remote_url (repo : Repo) : result (option string) :=
  match remotes repo with
  | [] => Ok None
  | first_remote :: _ =>
      if existsb (fun r => String.eqb "origin" (remote_name r)) (remotes repo)
      then
        match find (fun r => String.eqb "origin" (remote_name r))
                   (remotes repo) with
        | Some origin => first_url origin
        | None => Raise ValueError
        end
      else first_url first_remote
  end.

(** The innermost [try]: [GitCommandError] and [ValueError] give [CLEAN]. *)
Definition unpushed_status (repo : Repo) : result GitStatus :=
  let attempt :=
    detached <- head_is_detached repo ;;
    if (detached : bool) then Ok CLEAN
    else
      tracking <- tracking_branch repo ;;
      match tracking with
      | None => Ok NO_REMOTE
      | Some _ =>
          ahead <- commits_ahead repo ;;
          match ahead with
          | O => Ok CLEAN
          | S _ => Ok UNPUSHED
          end
      end in
  match attempt with
  | Raise GitCommandError => Ok CLEAN
  | Raise ValueError => Ok CLEAN
  | other => other
  end.

Definition determine_git_status (repo : Repo) (remote_url : option string)
  : result GitStatus :=
  match remote_url with
  | None => Ok NO_REMOTE
  | Some _ =>
      dirty <- is_dirty repo ;;
      if (dirty : bool) then Ok DIRTY else unpushed_status repo
  end.

Section Git.

(** [Repo(project_path)]: the repository GitPython opens at a path, or the
    exception it raises. *)
Variable open_repo : Path -> result Repo.

Definition get_git_info (project_path : Path) (d : node)
  : result (bool * option string * option GitStatus) :=
  if negb (path_exists d ".git") then Ok (false, None, None)
  else
    let attempt :=
      repo <- open_repo project_path ;;
      remote_url <- select_remote_url repo ;;
      git_status <- determine_git_status repo remote_url ;;
      Ok (true, remote_url, Some git_status) in
    match attempt with
    | Raise InvalidGitRepositoryError => Ok (true, None, None)
    | Raise GitCommandError => Ok (true, None, None)
    | other => other
    end.

End Git.

(** ** The scan monad: a result together with the trace of the scan

    The trace records the calls a scan makes: entering a directory
    ([scan_for_projects] called on it), testing it with
    [is_project_directory], calling the progress callback, and appending a
    record to [projects].  A raised exception keeps the trace so far. *)

Inductive event : Type :=
| EvEnter (p : Path)
| EvEval (p : Path)
| EvProgress (p : Path) (count : nat)
| EvFound (p : Path).

Definition M (A : Type) : Type := (result A * list event)%type.

Definition ret {A : Type} (a : A) : M A := (Ok a, []).

Definition bind {A B : Type} (m : M A) (f : A -> M B) : M B :=
  match fst m with
  | Ok a => (fst (f a), snd m ++ snd (f a))
  | Raise e => (Raise e, snd m)
  end.

Definition emit (e : event) : M unit := (Ok tt, [e]).

Definition lift {A : Type} (r : result A) : M A := (r, []).

(** [try: m  except (OSError, PermissionError): ...], [None] when the
    handler is taken; every other exception propagates. *)
Definition attempt {A : Type} (m : M A) : M (option A) :=
  match fst m with
  | Ok a => (Ok (Some a), snd m)
  | Raise OSError => (Ok None, snd m)
  | Raise e => (Raise e, snd m)
  end.

Declare Scope scan_scope.
Delimit Scope scan_scope with scan.
Notation "x <- m ;; k" := (bind m (fun x => k))
  (at level 61, m at next level, right associativity) : scan_scope.
Notation "m ;; k" := (bind m (fun _ => k))
  (at level 61, right associativity) : scan_scope.

(** ** scanner.py: scan_for_projects *)

(** [Path.name] *)
Definition basename (p : Path) : string := last p "".

Section Scan.

Variable now : Z.
Variable open_repo : Path -> result Repo.
Variable ignore_patterns : list string.
Variables active_threshold dormant_threshold : Z.
Variables prunable_min_size_mb prunable_max_size_mb : Q.

(** The callback, as a function that returns, and the type of what it
    returns, which no caller reads. *)
Variable R : Type.
Variable progress_callback : option (Path -> nat -> R).

Definition report_progress (p : Path) (count : nat) : M unit :=
  match progress_callback with
  | Some callback => let _ := callback p count in emit (EvProgress p count)
  | None => ret tt
  end.

(** The metadata block that builds one record (lines 268-302 for the scan
    root and 326-362 for a child). *)
Definition project_record (path : Path) (name : string) (d : node)
  : result Project.t :=
  (info <- get_git_info open_repo path d ;;
   let '(has_git, git_remote, git_status) := info in
   let readme_path := find_readme path d in
   let project_type := detect_project_type d in
   last_modified <- get_last_modified d ;;
   let size_mb := get_directory_size d in
   let classification :=
     classify_project now last_modified (is_some git_remote)
       (is_some readme_path) active_threshold dormant_threshold in
   let prunable :=
     is_prunable classification (is_some git_remote) size_mb
       prunable_min_size_mb prunable_max_size_mb in
   Ok (Project.mk path name has_git git_remote git_status readme_path
         project_type last_modified size_mb classification prunable)
  )%result.

Local Open Scope scan_scope.

(** [if is_project_directory(p): ...; projects.append(project)], as the
    records to append. *)
Definition detect_and_record (p : Path) (name : string) (d : node)
    (announce : bool) : M (list Project.t) :=
  if is_project_directory p d then
    (if announce then report_progress p 0 else ret tt) ;;
    project <- lift (project_record p name d) ;;
    emit (EvFound p) ;;
    ret [project]
  else ret [].

(** The [for entry in os.scandir(scan_path)] loop with its enclosing
    [try]; [scan] is the recursive call with [_check_root=False].  The
    loop ends when the entries are exhausted or when the handler catches an
    [OSError], and gives [projects] as it is then. *)
Definition scan_entries (scan : Path -> node -> M (list Project.t))
    (scan_path : Path)
  : list (string * node) -> list Project.t -> M (list Project.t) :=
  fix loop (entries : list (string * node)) (projects : list Project.t)
    : M (list Project.t) :=
    match entries with
    | [] => ret projects
    | (dir_name, child) :: rest =>
        if negb (entry_is_dir_nofollow child) then loop rest projects
        else
          let dir_path := scan_path ++ [dir_name] in
          if should_ignore_directory dir_name ignore_patterns
          then loop rest projects
          else
            report_progress dir_path (List.length projects) ;;
            emit (EvEval dir_path) ;;
            found <- attempt (detect_and_record dir_path dir_name child false) ;;
            match found with
            | None => ret projects
            | Some found =>
                sub <- attempt (scan dir_path child) ;;
                match sub with
                | None => ret (projects ++ found)
                | Some sub_projects =>
                    loop rest ((projects ++ found) ++ sub_projects)
                end
            end
    end.

Fixpoint scan_for_projects (scan_path : Path) (scan_dir : node)
    (_check_root : bool) {struct scan_dir} : M (list Project.t) :=
  emit (EvEnter scan_path) ;;
  projects <-
    (if _check_root then
       emit (EvEval scan_path) ;;
       detect_and_record scan_path (basename scan_path) scan_dir true
     else ret []) ;;
  match scan_dir with
  | Dir _ true entries =>
      scan_entries (fun p c => scan_for_projects p c false)
        scan_path entries projects
  | _ => ret projects
  end.

End Scan.

(** ** Vocabulary of the properties *)

(** The marker table with the C# markers written as the glob patterns that
    the comment in [detect_project_type] names. *)
Definition GLOB_TYPE_MARKERS : list (ProjectType * list string) :=
  [ (PYTHON, ["pyproject.toml"; "setup.py"; "requirements.txt"]);
    (NODEJS, ["package.json"]);
    (RUST, ["Cargo.toml"]);
    (GO, ["go.mod"]);
    (JAVA, ["pom.xml"; "build.gradle"]);
    (PHP, ["composer.json"]);
    (CSHARP, ["*.csproj"; "*.sln"]);
    (RUBY, ["Gemfile"]) ].

(** Some marker of the table is present in the directory. *)
Definition some_marker_hit (table : list (ProjectType * list string))
    (d : node) : Prop :=
  exists project_type markers marker,
    In (project_type, markers) table /\ In marker markers /\
    marker_hit d marker = true.

(** A README under one of the fixed names is a file of the directory. *)
Definition has_readme_file (d : node) : Prop :=
  exists readme_name,
    In readme_name README_NAMES /\
    path_exists d readme_name = true /\ path_is_file d readme_name = true.

Definition event_path (e : event) : Path :=
  match e with
  | EvEnter p | EvEval p | EvProgress p _ | EvFound p => p
  end.

Definition Path_eq_dec : forall p q : Path, {p = q} + {p <> q} :=
  list_eq_dec string_dec.

Definition event_eq_dec : forall a b : event, {a = b} + {a <> b}.
Proof.
  decide equality; try apply Path_eq_dec. apply Nat.eq_dec.
Defined.

Definition not_ignored (ignore_patterns : list string) (name : string) : Prop :=
  should_ignore_directory name ignore_patterns = false.

(** The paths the callback was called with, and the paths tested with
    [is_project_directory], in order. *)
Definition progress_paths (trace : list event) : list Path :=
  flat_map (fun e => match e with EvProgress p _ => [p] | _ => [] end) trace.

Definition eval_paths (trace : list event) : list Path :=
  flat_map (fun e => match e with EvEval p => [p] | _ => [] end) trace.

(** The number of records appended in a trace. *)
Definition found_count (trace : list event) : nat :=
  List.length (filter (fun e => match e with EvFound _ => true | _ => false end)
                 trace).

(** A trace satisfies a predicate on its events, and the records of a
    normal return satisfy a predicate on records. *)
Definition holds (Pe : event -> Prop) (Pp : Project.t -> Prop)
    (m : M (list Project.t)) : Prop :=
  Forall Pe (snd m) /\ forall ps, fst m = Ok ps -> Forall Pp ps.

(** [reaches ig d rel]: the relative path [rel] leads from [d] down through
    readable directories to a real directory, no name on it ignored. *)
Inductive reaches (ignore_patterns : list string) : node -> Path -> Prop :=
| reaches_here (d : node) : reaches ignore_patterns d []
| reaches_child (mtime : option Z) (entries : list (string * node))
    (name : string) (child : node) (rel : Path) :
    In (name, child) entries ->
    entry_is_dir_nofollow child = true ->
    not_ignored ignore_patterns name ->
    reaches ignore_patterns child rel ->
    reaches ignore_patterns (Dir mtime true entries) (name :: rel).

Definition is_ok {A : Type} (r : result A) : bool :=
  match r with Ok _ => true | Raise _ => false end.

Section FaultFree.

Variable now : Z.
Variable open_repo : Path -> result Repo.
Variable ignore_patterns : list string.
Variables active_threshold dormant_threshold : Z.
Variables prunable_min_size_mb prunable_max_size_mb : Q.

(** The metadata block of a directory raises nothing when it runs. *)
Definition record_ok (p : Path) (name : string) (d : node) : bool :=
  negb (is_project_directory p d) ||
  is_ok (project_record now open_repo active_threshold dormant_threshold
           prunable_min_size_mb prunable_max_size_mb p name d).

(** No metadata block raises for a directory the walk evaluates below [d]. *)
Fixpoint children_ok (p : Path) (d : node) {struct d} : bool :=
  match d with
  | Dir _ true entries =>
      forallb (fun e =>
                 negb (entry_is_dir_nofollow (snd e)) ||
                 should_ignore_directory (fst e) ignore_patterns ||
                 (record_ok (p ++ [fst e]) (fst e) (snd e) &&
                  children_ok (p ++ [fst e]) (snd e)))
              entries
  | _ => true
  end.

End FaultFree.

(** [q] lies at or below [root], and no name on the way down from [root]
    is ignored. *)
Definition clear_below (ignore_patterns : list string) (root q : Path) : Prop :=
  exists rel, q = root ++ rel /\ Forall (not_ignored ignore_patterns) rel.

(** A record carries a status only together with the flag. *)
Definition status_needs_git (pr : Project.t) : Prop :=
  Project.git_status pr <> None -> Project.has_git pr = true.

(** GitPython cannot read the repository at a path. *)
Definition repo_unreadable (open_repo : Path -> result Repo) (p : Path) : Prop :=
  open_repo p = Raise InvalidGitRepositoryError \/
  open_repo p = Raise GitCommandError.

(** A call on [d] at path [q] returns normally, and its trace shows every
    directory that [reaches] describes as entered and, below [q] itself, as
    tested. *)
Definition descends_fully (ignore_patterns : list string) (q : Path)
    (d : node) (m : M (list Project.t)) : Prop :=
  (exists ps, fst m = Ok ps) /\
  forall rel, reaches ignore_patterns d rel ->
    In (EvEnter (q ++ rel)) (snd m) /\
    (rel <> [] -> In (EvEval (q ++ rel)) (snd m)).

(** Reading a trace from left to right with [k] records appended so far:
    every callback call for a path of [depth] components passes the running
    number of appended records. *)
Fixpoint counts_from (depth k : nat) (trace : list event) : Prop :=
  match trace with
  | [] => True
  | EvProgress q c :: rest =>
      (List.length q = depth -> c = k) /\ counts_from depth k rest
  | EvFound _ :: rest => counts_from depth (S k) rest
  | _ :: rest => counts_from depth k rest
  end.

(** The callback is called only for paths of more than [n] components. *)
Definition progress_deeper (n : nat) (e : event) : Prop :=
  match e with
  | EvProgress q _ => (n < List.length q)%nat
  | _ => True
  end.

(** A callback call for [root] passes the count 0. *)
Definition root_count_zero (root : Path) (e : event) : Prop :=
  match e with
  | EvProgress q c => q = root -> c = 0%nat
  | _ => True
  end.

(** ** Sample file systems *)

Definition one_mb_file : node :=
  File (Some {| st_size := 1048576; st_mtime := 5 |}).

(** A directory whose only entry is a README. *)
Definition readme_dir (mtime : option Z) : node :=
  Dir mtime true [("README.md", one_mb_file)].

(** Two sibling projects; [stat()] on the first raises once it has been
    detected (it vanished, or became inaccessible, after it was listed). *)
Definition vanishing_sibling_tree : node :=
  Dir (Some 1) true [("a", readme_dir None); ("b", readme_dir (Some 7))].

(** A project that contains a project, next to an ignored directory that
    would qualify as a project and an unreadable one. *)
Definition nested_tree : node :=
  Dir (Some 1) true
    [("locked", Dir (Some 2) false [("README.md", one_mb_file)]);
     ("parent", Dir (Some 3) true
                  [("README.md", one_mb_file);
                   ("child", Dir (Some 4) true [("setup.py", one_mb_file)])]);
     ("node_modules", Dir (Some 2) true
                        [("package.json", one_mb_file);
                         ("inner", readme_dir (Some 2))])].

(** A root that is no project, above a project with a plain subdirectory. *)
Definition plain_root_tree : node :=
  Dir (Some 1) true
    [("a", Dir (Some 3) true
             [("README.md", one_mb_file); ("b", Dir (Some 2) true [])])].

(** A file whose [stat()] raises and a directory that cannot be listed,
    next to a readable file. *)
Definition partly_unreadable_dir : node :=
  Dir (Some 1) true
    [("gone", File None); ("kept", one_mb_file);
     ("locked", Dir (Some 99) false [("big", one_mb_file)])].

(** A directory with a [.git] that GitPython cannot read. *)
Definition corrupt_git_dir : node :=
  Dir (Some 9) true [(".git", Dir (Some 9) true [])].

Definition invalid_repo : Path -> result Repo :=
  fun _ => Raise InvalidGitRepositoryError.

(** A scan with the default thresholds, [now] being day 10. *)
Definition sample_scan (ignore_patterns : list string)
    (progress_callback : option (Path -> nat -> unit))
    (root : Path) (d : node) : M (list Project.t) :=
  scan_for_projects (10 * microseconds_per_day) invalid_repo ignore_patterns
    30 180 10 1 unit progress_callback root d true.

(** ** Vocabulary of the further properties *)

(** The byte total [get_directory_size] accumulates before it divides. *)
Definition directory_bytes (d : node) : Z :=
  fold_left (fun total dir => fold_left file_size_or_skip (snd dir) total)
            (os_walk d) 0.

(** The bytes one entry of a directory adds to the total. *)
Definition entry_bytes (c : node) : Z :=
  match c with
  | Dir _ _ _ => directory_bytes c
  | _ => file_size_or_skip 0 c
  end.

(** What one entry of a directory adds to the size of the directory: the
    size of a real subdirectory, the size of a file whose [stat()]
    succeeds, nothing otherwise. *)
Definition entry_size_mb (c : node) : Q :=
  match c with
  | Dir _ _ _ => get_directory_size c
  | _ => (inject_Z (file_size_or_skip 0 c) / inject_Z (1024 * 1024))%Q
  end.

(** Every [st_size] in the tree is non-negative. *)
Fixpoint sizes_nonneg (c : node) : bool :=
  match c with
  | File (Some st) => 0 <=? st_size st
  | Link (ToFile (Some st)) => 0 <=? st_size st
  | Dir _ _ entries => forallb (fun e => sizes_nonneg (snd e)) entries
  | _ => true
  end.

(** [walks_into d d']: [os.walk(d)] yields the directory [d'], that is, [d']
    is [d] or lies below it through real directories that can be listed. *)
Inductive walks_into : node -> node -> Prop :=
| walks_here (mtime : option Z) (entries : list (string * node)) :
    walks_into (Dir mtime true entries) (Dir mtime true entries)
| walks_down (mtime : option Z) (entries : list (string * node))
    (name : string) (c d' : node) :
    In (name, c) entries -> walks_into c d' ->
    walks_into (Dir mtime true entries) d'.

(** A timestamp that takes part in [get_last_modified d]: the one of a
    walked directory whose [stat()] succeeds, or of a file directly in such
    a directory whose own [stat()] succeeds. *)
Definition counted_mtime (d : node) (m : Z) : Prop :=
  exists mtime entries,
    walks_into d (Dir (Some mtime) true entries) /\
    (m = mtime \/
     exists name c st,
       In (name, c) entries /\ entry_is_dir c = false /\
       stat_size_mtime c = Some st /\ m = st_mtime st).

(** The timestamps that [datetime.fromtimestamp] converts on every
    platform and in every time zone: from the epoch to the last day but one
    of the year 9999, in microseconds. *)
Definition fromtimestamp_ok (t : Z) : bool :=
  (0 <=? t) && (t <=? 253402214400 * 1000000).

(** Every timestamp that [stat()] reports in the tree is one of these. *)
Fixpoint mtimes_convertible (c : node) : bool :=
  match c with
  | File (Some st) => fromtimestamp_ok (st_mtime st)
  | Link (ToFile (Some st)) => fromtimestamp_ok (st_mtime st)
  | Dir mtime _ entries =>
      match mtime with Some m => fromtimestamp_ok m | None => true end &&
      forallb (fun e => mtimes_convertible (snd e)) entries
  | _ => true
  end.

(** The exceptions the innermost [try] of [get_git_info] catches. *)
Definition upstream_error (e : exn) : Prop :=
  e = GitCommandError \/ e = ValueError.

(** The upstream comparison of a repository raises such an exception: at
    the detached-head test, at the tracking-branch lookup, or while the
    commits ahead are listed. *)
Definition upstream_check_fails (repo : Repo) : Prop :=
  (exists e, upstream_error e /\ head_is_detached repo = Raise e) \/
  (head_is_detached repo = Ok false /\
   ((exists e, upstream_error e /\ tracking_branch repo = Raise e) \/
    (exists b e, tracking_branch repo = Ok (Some b) /\ upstream_error e /\
                 commits_ahead repo = Raise e))).

(** The shape of the three version-control fields of a record. *)
Definition vcs_shape (has_git : bool) (remote : option string)
    (status : option GitStatus) : Prop :=
  match status with
  | None => remote = None
  | Some NO_REMOTE => has_git = true
  | Some _ => has_git = true /\ remote <> None
  end.

(** A repository with a second remote listed before [origin], a clean
    tree, and an upstream comparison that fails. *)
Definition two_remote_repo : Repo :=
  {| remotes :=
       [ {| remote_name := "backup"; remote_urls := Ok ["ssh://backup/repo"] |};
         {| remote_name := "origin"; remote_urls := Ok ["ssh://origin/repo"] |} ];
     is_dirty := Ok false;
     head_is_detached := Ok false;
     tracking_branch := Raise ValueError;
     commits_ahead := Ok O |}.

(** The fields of a record that are computed from its other fields. *)
Definition derived_fields (now : Z) (active_threshold dormant_threshold : Z)
    (prunable_min_size_mb prunable_max_size_mb : Q) (pr : Project.t) : Prop :=
  Project.name pr = basename (Project.path pr) /\
  Project.classification pr =
    classify_project now (Project.last_modified pr)
      (is_some (Project.git_remote pr)) (is_some (Project.readme_path pr))
      active_threshold dormant_threshold /\
  Project.is_prunable pr =
    is_prunable (Project.classification pr) (is_some (Project.git_remote pr))
      (Project.size_mb pr) prunable_min_size_mb prunable_max_size_mb /\
  (forall r, Project.readme_path pr = Some r ->
     exists n, In n README_NAMES /\ r = Project.path pr ++ [n]).

(** [dir_at ig d rel dir]: [dir] is the node that the relative path [rel]
    leads to from [d], through real directories that can be listed and
    whose names are not ignored ([dir] itself need not be listable). *)
Inductive dir_at (ignore_patterns : list string)
  : node -> Path -> node -> Prop :=
| dir_at_here (d : node) : dir_at ignore_patterns d [] d
| dir_at_child (mtime : option Z) (entries : list (string * node))
    (name : string) (child : node) (rel : Path) (dir : node) :
    In (name, child) entries ->
    entry_is_dir_nofollow child = true ->
    not_ignored ignore_patterns name ->
    dir_at ignore_patterns child rel dir ->
    dir_at ignore_patterns (Dir mtime true entries) (name :: rel) dir.

(** No directory of the tree lists the same name twice. *)
Inductive names_distinct : node -> Prop :=
| names_distinct_file (st : option fstat) : names_distinct (File st)
| names_distinct_link (t : link_target) : names_distinct (Link t)
| names_distinct_dir (mtime : option Z) (listable : bool)
    (entries : list (string * node)) :
    NoDup (map fst entries) ->
    Forall (fun e => names_distinct (snd e)) entries ->
    names_distinct (Dir mtime listable entries).

(** ** project.py: age of a project *)

(** [str(n)] of an [int], as an f-string interpolates it. *)
Definition str (n : Z) : string := NilZero.string_of_int (Z.to_int n).

Section Display.

(** The value [datetime.now()] returns when the age is asked for. *)
Variable now : Z.

Definition age_days (self : Project.t) : Z :=
  timedelta_days now (Project.last_modified self).

Definition age_display (self : Project.t) : string :=
  let days := age_days self in
  if days =? 0 then "today"
  else if days =? 1 then "1d ago"
  else if days <? 7 then str days ++ "d ago"
  else if days <? 30 then
    let weeks := days / 7 in
    if 1 <? weeks then str weeks ++ "w ago" else "1w ago"
  else if days <? 365 then
    let months := days / 30 in
    if 1 <? months then str months ++ "mo ago" else "1mo ago"
  else
    let years := days / 365 in
    if 1 <? years then str years ++ "y ago" else "1y ago".

End Display.

(** ** config.py *)

Definition DEFAULT_IGNORE_PATTERNS : list string :=
  ["node_modules"; ".venv"; "venv"; "env"; "__pycache__"; ".pytest_cache";
   "target"; "build"; "dist"; ".next"; ".nuxt"; ".gradle"; ".idea"].

Module ScanConfig.
Record t : Type := mk {
  default_path : Path;
  exclude_nested_git_repos : bool;
  ignore_patterns : list string
}.
End ScanConfig.

Module ClassificationConfig.
Record t : Type := mk {
  active_days_threshold : Z;
  dormant_days_threshold : Z;
  prunable_min_size_mb : Q;
  prunable_max_size_mb : Q
}.
End ClassificationConfig.

Module UIConfig.
Record t : Type := mk {
  color_scheme : string;
  vim_mode : bool;
  default_filter : string
}.
End UIConfig.

Module IntegrationsConfig.
Record t : Type := mk {
  editor : string;
  vscode_cmd : string
}.
End IntegrationsConfig.

Module Config.
Record t : Type := mk {
  scan : ScanConfig.t;
  classification : ClassificationConfig.t;
  ui : UIConfig.t;
  integrations : IntegrationsConfig.t
}.
End Config.

(** The document [tomllib.load] returns, for a configuration file whose
    values have the types the dataclass fields declare: every key the
    loader looks at is present with a value, or absent. *)
Record scan_data : Type := {
  scan_default_path : option string;
  scan_exclude_nested_git_repos : option bool;
  scan_ignore_patterns : option (list string)
}.

Record class_data : Type := {
  class_active_days_threshold : option Z;
  class_dormant_days_threshold : option Z;
  class_prunable_min_size_mb : option Q;
  class_prunable_max_size_mb : option Q
}.

Record ui_data : Type := {
  ui_color_scheme : option string;
  ui_vim_mode : option bool;
  ui_default_filter : option string
}.

Record int_data : Type := {
  int_editor : option string;
  int_vscode_cmd : option string
}.

Record toml_data : Type := {
  data_scan : option scan_data;
  data_classification : option class_data;
  data_ui : option ui_data;
  data_integrations : option int_data
}.

(** What [Config.load] finds at the configuration path: nothing, an
    exception (of [Path.home], [exists] or [open], or the [ValueError]
    subclass [TOMLDecodeError] of [tomllib.load]), or a document. *)
Inductive config_file : Type :=
| NoConfigFile
| BadConfigFile (e : exn)
| ConfigFile (data : toml_data).

(** [new if key in table else old]. *)
Definition updated {A : Type} (new : option A) (old : A) : A :=
  match new with Some v => v | None => old end.

Section Environment.

(** What the environment answers: [Path.cwd()] (an [OSError] when the
    working directory no longer exists), [os.environ.get] of [EDITOR], and
    [Path(s).expanduser()] (a [RuntimeError] when the home directory of the
    user named in [s] cannot be determined). *)
Variable cwd : result Path.
Variable env_editor : option string.
Variable expanduser : string -> result Path.

Local Open Scope result_scope.

(** [cls()]: the default factories run when the object is created. *)
Definition default_config : result Config.t :=
  default_path <- cwd ;;
  Ok (Config.mk
        (ScanConfig.mk default_path false DEFAULT_IGNORE_PATTERNS)
        (ClassificationConfig.mk 30 180 10 1)
        (UIConfig.mk "auto" true "all")
        (IntegrationsConfig.mk (updated env_editor "nano") "code")).

Definition update_scan (c : ScanConfig.t) (d : scan_data)
  : result ScanConfig.t :=
  default_path <-
    match scan_default_path d with
    | Some s => expanduser s
    | None => Ok (ScanConfig.default_path c)
    end ;;
  Ok (ScanConfig.mk default_path
        (updated (scan_exclude_nested_git_repos d)
           (ScanConfig.exclude_nested_git_repos c))
        (ScanConfig.ignore_patterns c ++ updated (scan_ignore_patterns d) [])).

Definition update_classification (c : ClassificationConfig.t)
    (d : class_data) : ClassificationConfig.t :=
  ClassificationConfig.mk
    (updated (class_active_days_threshold d)
       (ClassificationConfig.active_days_threshold c))
    (updated (class_dormant_days_threshold d)
       (ClassificationConfig.dormant_days_threshold c))
    (updated (class_prunable_min_size_mb d)
       (ClassificationConfig.prunable_min_size_mb c))
    (updated (class_prunable_max_size_mb d)
       (ClassificationConfig.prunable_max_size_mb c)).

Definition update_ui (c : UIConfig.t) (d : ui_data) : UIConfig.t :=
  UIConfig.mk
    (updated (ui_color_scheme d) (UIConfig.color_scheme c))
    (updated (ui_vim_mode d) (UIConfig.vim_mode c))
    (updated (ui_default_filter d) (UIConfig.default_filter c)).

Definition update_integrations (c : IntegrationsConfig.t)
    (d : int_data) : IntegrationsConfig.t :=
  IntegrationsConfig.mk
    (updated (int_editor d) (IntegrationsConfig.editor c))
    (updated (int_vscode_cmd d) (IntegrationsConfig.vscode_cmd c)).

(** [Config.load]: the defaults are built first, then the file is looked
    for, and its [scan] table is the first one applied. *)
Definition Config_load (f : config_file) : result Config.t :=
  config <- default_config ;;
  match f with
  | NoConfigFile => Ok config
  | BadConfigFile e => Raise e
  | ConfigFile data =>
      scan <-
        match data_scan data with
        | Some d => update_scan (Config.scan config) d
        | None => Ok (Config.scan config)
        end ;;
      Ok (Config.mk scan
            (updated (option_map
                        (update_classification (Config.classification config))
                        (data_classification data))
               (Config.classification config))
            (updated (option_map (update_ui (Config.ui config)) (data_ui data))
               (Config.ui config))
            (updated (option_map
                        (update_integrations (Config.integrations config))
                        (data_integrations data))
               (Config.integrations config)))
  end.

End Environment.

(** An ignore file: absent, or the outcome of locating and reading it, the
    lines as iteration over the file yields them or the exception of
    [Path.home], [exists], [open] or the decoder (no handler encloses the
    loop, so where the read fails makes no difference). *)
Inductive text_file : Type :=
| Absent
| Present (content : result (list string)).

Section IgnoreFiles.

(** [str.strip]. *)
Variable strip : string -> string.

(** [line and not line.startswith("#")]. *)
Definition is_pattern (line : string) : bool :=
  negb (String.eqb line "") && negb (String.prefix "#" line).

(** The loop over the lines of one ignore file. *)
Definition append_patterns (patterns : list string) (lines : list string)
  : list string :=
  fold_left (fun patterns line =>
               let line := strip line in
               if is_pattern line then patterns ++ [line] else patterns)
            lines patterns.

Definition read_ignore_file (f : text_file) (patterns : list string)
  : result (list string) :=
  match f with
  | Absent => Ok patterns
  | Present content => rbind content (fun lines => Ok (append_patterns patterns lines))
  end.

(** [Config.load_ignore_patterns]: [ignore_file] is [.lpmignore] of the
    scan root, [global_ignore] the one of the home directory. *)
Definition load_ignore_patterns (self : Config.t)
    (ignore_file global_ignore : text_file) : result (list string) :=
  let patterns := ScanConfig.ignore_patterns (Config.scan self) in
  rbind (read_ignore_file ignore_file patterns)
        (read_ignore_file global_ignore).

End IgnoreFiles.

(** ** app.py: filters, the start-up scan and the refresh *)

Definition filter_projects (current_filter : string)
    (projects : list Project.t) : list Project.t :=
  if String.eqb current_filter "all" then projects
  else if String.eqb current_filter "active" then
    filter (fun p => Classification_eqb (Project.classification p) ACTIVE)
           projects
  else if String.eqb current_filter "wip" then
    filter (fun p => Classification_eqb (Project.classification p) WIP)
           projects
  else if String.eqb current_filter "dormant" then
    filter (fun p => Classification_eqb (Project.classification p) DORMANT)
           projects
  else if String.eqb current_filter "stale" then
    filter (fun p => Classification_eqb (Project.classification p) STALE)
           projects
  else if String.eqb current_filter "prunable" then
    filter Project.is_prunable projects
  else if String.eqb current_filter "no_remote" then
    filter (fun p => negb (is_some (Project.git_remote p))) projects
  else if String.eqb current_filter "no_readme" then
    filter (fun p => negb (is_some (Project.readme_path p))) projects
  else projects.

(** The values of the members of [GitStatus]. *)
Definition GitStatus_value (s : GitStatus) : string :=
  match s with
  | CLEAN => "clean"
  | DIRTY => "dirty"
  | UNPUSHED => "unpushed"
  | NO_REMOTE => "no_remote"
  end.

(** The condition under which [action_prune_project] appends the warning
    about uncommitted or unpushed changes to the text of its confirmation
    dialog (a member of an enumeration is truthy, [None] is not). *)
Definition prune_warns (project : Project.t) : bool :=
  Project.has_git project &&
  match Project.git_status project with
  | Some git_status =>
      existsb (String.eqb (GitStatus_value git_status)) ["dirty"; "unpushed"]
  | None => false
  end.

Definition filters : list string :=
  ["all"; "active"; "wip"; "dormant"; "stale"; "prunable"; "no_remote";
   "no_readme"].

(** [list.index]: the first position of [x], or [ValueError]. *)
Fixpoint list_index (x : string) (l : list string) : result nat :=
  match l with
  | [] => Raise ValueError
  | y :: l' =>
      if String.eqb y x then Ok O
      else rbind (list_index x l') (fun i => Ok (S i))
  end.

(** [action_cycle_filter], on the field [current_filter] it reads and
    writes.  The index is below the length, so the subscript cannot fail. *)
Definition action_cycle_filter (current_filter : string) : result string :=
  rbind (list_index current_filter filters)
        (fun current_index =>
           Ok (nth ((current_index + 1) mod List.length filters)%nat
                   filters "")).

Section App.

Variable cwd : result Path.
Variable env_editor : option string.
Variable expanduser : string -> result Path.
Variable strip : string -> string.
Variable now : Z.
Variable open_repo : Path -> result Repo.

(** The call of [scan_for_projects] that [main] and [action_refresh] share:
    the thresholds are the ones of the configuration. *)
Definition configured_scan (config : Config.t) (ignore_patterns : list string)
    (progress_callback : option (Path -> nat -> unit))
    (scan_path : Path) (d : node) : M (list Project.t) :=
  scan_for_projects now open_repo ignore_patterns
    (ClassificationConfig.active_days_threshold (Config.classification config))
    (ClassificationConfig.dormant_days_threshold (Config.classification config))
    (ClassificationConfig.prunable_min_size_mb (Config.classification config))
    (ClassificationConfig.prunable_max_size_mb (Config.classification config))
    unit progress_callback scan_path d true.

(** Phase 1 of [main]: the configuration and the ignore files are loaded
    outside any handler, the scan runs with the printing callback (what it
    prints is the [EvProgress] events of the trace) inside
    [try ... except Exception], after which [main] prints the error and
    returns.  [Ok None] is that return, [Ok (Some ps)] the list handed to
    the application. *)
Definition main_scan (config_path : config_file)
    (ignore_file global_ignore : text_file) (scan_path : Path) (d : node)
  : M (option (list Project.t)) :=
  match Config_load cwd env_editor expanduser config_path with
  | Raise e => (Raise e, [])
  | Ok config =>
      match load_ignore_patterns strip config ignore_file global_ignore with
      | Raise e => (Raise e, [])
      | Ok ignore_patterns =>
          let m := configured_scan config ignore_patterns
                     (Some (fun _ _ => tt)) scan_path d in
          (Ok (match fst m with Ok projects => Some projects | Raise _ => None end),
           snd m)
      end
  end.

(** [action_refresh], as the value it stores in [self.projects]: the scan
    runs without callback and outside any handler; [config] is the
    configuration the application loaded when it was created. *)
Definition action_refresh (config : Config.t)
    (ignore_file global_ignore : text_file) (scan_path : Path) (d : node)
  : M (list Project.t) :=
  match load_ignore_patterns strip config ignore_file global_ignore with
  | Raise e => (Raise e, [])
  | Ok ignore_patterns => configured_scan config ignore_patterns None scan_path d
  end.

End App.

(** ** Vocabulary of the configuration and application properties *)

(** The patterns one ignore file contributes: its stripped lines that are
    neither empty nor comments, in file order. *)
Definition effective_lines (strip : string -> string) (f : text_file)
  : list string :=
  match f with
  | Present (Ok lines) => filter is_pattern (map strip lines)
  | _ => []
  end.

(** The exception reading an ignore file raises, if any. *)
Definition read_error (f : text_file) : option exn :=
  match f with
  | Present (Raise e) => Some e
  | _ => None
  end.

(** The patterns the configuration file adds to the defaults. *)
Definition configured_patterns (f : config_file) : list string :=
  match f with
  | ConfigFile data =>
      match data_scan data with
      | Some d => updated (scan_ignore_patterns d) []
      | None => []
      end
  | _ => []
  end.

(** [n] presses of the filter key, starting at [current_filter]. *)
Fixpoint presses (n : nat) (current_filter : string) : result string :=
  match n with
  | O => Ok current_filter
  | S n' => rbind (presses n' current_filter) action_cycle_filter
  end.

(** The units [age_display] counts in, with their length in days. *)
Definition age_units : list (string * Z) :=
  [("d", 1); ("w", 7); ("mo", 30); ("y", 365)].

(** [strip] on lines of ASCII text. *)
Definition is_space (c : ascii) : bool :=
  let n := nat_of_ascii c in
  ((9 <=? n) && (n <=? 13) || (28 <=? n) && (n <=? 32))%nat.

Fixpoint lstrip (s : string) : string :=
  match s with
  | String c s' => if is_space c then lstrip s' else s
  | EmptyString => EmptyString
  end.

Fixpoint rstrip (s : string) : string :=
  match s with
  | String c s' =>
      match rstrip s' with
      | EmptyString => if is_space c then EmptyString else String c EmptyString
      | r => String c r
      end
  | EmptyString => EmptyString
  end.

Definition ascii_strip (s : string) : string := rstrip (lstrip s).

(** The document of a configuration file, and an ignore file. *)
Definition sample_data : toml_data :=
    {| data_scan :=
         Some {| scan_default_path := None;
                 scan_exclude_nested_git_repos := Some true;
                 scan_ignore_patterns := Some ["vendor"] |};
       data_classification := None;
       data_ui := None;
       data_integrations := None |}.

Definition sample_ignore_file : text_file :=
  Present (Ok ["# local"; ""; "  locked  "; "   # indented comment"]).

(** The same document with the settings that the scan does not read
    changed. *)
Definition sample_data_nested : toml_data :=
    {| data_scan :=
         Some {| scan_default_path := Some "~/code";
                 scan_exclude_nested_git_repos := Some false;
                 scan_ignore_patterns := Some ["vendor"] |};
       data_classification := None;
       data_ui := Some {| ui_color_scheme := None;
                          ui_vim_mode := Some false;
                          ui_default_filter := Some "stale" |};
       data_integrations := None |}.

Definition sample_config : config_file := ConfigFile sample_data.

Definition sample_config_nested : config_file := ConfigFile sample_data_nested.

(** The start-up scan and the refresh at day 10, with working directory
    [home] and no [EDITOR] set. *)
Definition sample_main (config_path : config_file)
    (ignore_file global_ignore : text_file) (scan_path : Path) (d : node)
  : M (option (list Project.t)) :=
  main_scan (Ok ["home"]) None (fun s => Ok [s]) ascii_strip
    (10 * microseconds_per_day) invalid_repo config_path ignore_file
    global_ignore scan_path d.

Definition sample_refresh (config : Config.t)
    (ignore_file global_ignore : text_file) (scan_path : Path) (d : node)
  : M (list Project.t) :=
  action_refresh ascii_strip (10 * microseconds_per_day) invalid_repo config
    ignore_file global_ignore scan_path d.

(** A repository without remote whose working tree has uncommitted
    changes, in a directory last touched on day 9. *)
Definition dirty_local_repo : Repo :=
  {| remotes := [];
     is_dirty := Ok true;
     head_is_detached := Ok false;
     tracking_branch := Ok None;
     commits_ahead := Ok O |}.

(** The scan of that directory, a year later. *)
Definition dirty_local_scan : M (list Project.t) :=
  scan_for_projects (400 * microseconds_per_day) (fun _ => Ok dirty_local_repo)
    [] 30 180 10 1 unit None ["r"] corrupt_git_dir true.

(** * Properties *)

Lemma Qgtb_lt (x y : Q) : Qgtb x y = true <-> (y < x)%Q.
Proof.
  unfold Qgtb. rewrite negb_true_iff.
  split; intro H.
  - apply Qnot_le_lt. intro Hle. apply Qle_bool_iff in Hle. congruence.
  - destruct (Qle_bool x y) eqn:E; [|reflexivity].
    apply Qle_bool_iff in E. exfalso. exact (Qlt_not_le _ _ H E).
Qed.

Lemma Qltb_lt (x y : Q) : Qltb x y = true <-> (x < y)%Q.
Proof. unfold Qltb. apply (Qgtb_lt y x). Qed.

Lemma Classification_eqb_eq (a b : Classification) :
  Classification_eqb a b = true <-> a = b.
Proof. destruct a, b; simpl; split; congruence. Qed.

(** C2. [is_prunable] is false unless the classification is Stale, false
    when a remote exists, and otherwise true exactly when the size is above
    the large threshold ([min_size_mb]) or below the tiny threshold
    ([max_size_mb]). *)
Theorem is_prunable_spec :
  forall (c : Classification) (has_remote : bool) (size large tiny : Q),
    (c <> STALE -> is_prunable c has_remote size large tiny = false) /\
    (has_remote = true -> is_prunable c has_remote size large tiny = false) /\
    (c = STALE -> has_remote = false ->
       (is_prunable c has_remote size large tiny = true <->
        (large < size)%Q \/ (size < tiny)%Q)).
Proof.
  intros c r s l t. unfold is_prunable. repeat split.
  - intro Hc. destruct c; simpl; congruence.
  - intros ->. destruct (negb (Classification_eqb c STALE)); reflexivity.
  - subst. simpl in *. rewrite orb_true_iff, Qgtb_lt, Qltb_lt. tauto.
  - subst. simpl in *. rewrite orb_true_iff, Qgtb_lt, Qltb_lt. tauto.
Qed.

Example is_prunable_examples :
  is_prunable STALE false 15 10 1 = true /\
  is_prunable STALE false 5 10 1 = false /\
  is_prunable STALE true 15 10 1 = false /\
  is_prunable ACTIVE false 15 10 1 = false.
Proof. repeat split. Qed.

(** ** C3: classification by age *)

Lemma timedelta_days_floor (now last_modified : Z) :
  microseconds_per_day * timedelta_days now last_modified
    <= now - last_modified
    < microseconds_per_day * (timedelta_days now last_modified + 1).
Proof.
  unfold timedelta_days, microseconds_per_day.
  pose proof (Z.div_mod (now - last_modified) 86400000000 ltac:(lia)) as Hdm.
  pose proof (Z.mod_pos_bound (now - last_modified) 86400000000 ltac:(lia)).
  lia.
Qed.

(** C3, as the code has it.  The age is the floor of [now - last_modified]
    in days; the result is Active when [age <= active] and a remote or a
    README exists, WorkInProgress when [age <= active] and neither exists,
    Dormant when [active < age <= dormant], and Stale when the age exceeds
    both thresholds. *)
Theorem classify_project_spec :
  forall (now last_modified : Z) (has_remote has_readme : bool)
         (active dormant : Z),
    let age := timedelta_days now last_modified in
    let c := classify_project now last_modified has_remote has_readme
               active dormant in
    (microseconds_per_day * age <= now - last_modified
       < microseconds_per_day * (age + 1)) /\
    (age <= active -> has_remote || has_readme = true -> c = ACTIVE) /\
    (age <= active -> has_remote || has_readme = false -> c = WIP) /\
    (active < age <= dormant -> c = DORMANT) /\
    (active < age -> dormant < age -> c = STALE).
Proof.
  intros now lm r rd a d age c. subst age c. unfold classify_project.
  split; [apply timedelta_days_floor|].
  repeat split; intros.
  - destruct (Z.leb_spec (timedelta_days now lm) a); [|lia].
    rewrite H0. reflexivity.
  - destruct (Z.leb_spec (timedelta_days now lm) a); [|lia].
    rewrite H0. reflexivity.
  - destruct (Z.leb_spec (timedelta_days now lm) a); [lia|].
    destruct (Z.leb_spec (timedelta_days now lm) d); [reflexivity|lia].
  - destruct (Z.leb_spec (timedelta_days now lm) a); [lia|].
    destruct (Z.leb_spec (timedelta_days now lm) d); [lia|reflexivity].
Qed.

(** The four clauses at an age of 200, 10 and 100 days with the default
    thresholds. *)
Lemma classify_project_spec_witness :
  classify_project (200 * microseconds_per_day) 0 false false 30 180 = STALE /\
  classify_project (10 * microseconds_per_day) 0 false true 30 180 = ACTIVE /\
  classify_project (10 * microseconds_per_day) 0 false false 30 180 = WIP /\
  classify_project (100 * microseconds_per_day) 0 false false 30 180 = DORMANT.
Proof.
  split; [|split; [|split]].
  - apply (classify_project_spec (200 * microseconds_per_day) 0 false false
             30 180); vm_compute; congruence.
  - apply (classify_project_spec (10 * microseconds_per_day) 0 false true
             30 180); vm_compute; congruence.
  - apply (classify_project_spec (10 * microseconds_per_day) 0 false false
             30 180); vm_compute; congruence.
  - apply (classify_project_spec (100 * microseconds_per_day) 0 false false
             30 180); vm_compute; split; congruence.
Defined.

(** With the thresholds 30 and 10, a project aged 20 days is older than the
    dormant threshold and is classified Active, not Stale. *)
Lemma classify_project_stale_clause_fails :
  timedelta_days (20 * microseconds_per_day) 0 > 10 /\
  classify_project (20 * microseconds_per_day) 0 true false 30 10 = ACTIVE /\
  classify_project (20 * microseconds_per_day) 0 true false 30 10 <> STALE.
Proof. vm_compute. repeat split; congruence. Qed.

(** ** C1: type detection *)

Lemma detect_in_first_hit (table : list (ProjectType * list string))
    (d : node) (t : ProjectType) (markers : list string)
    (before after : list (ProjectType * list string)) :
  table = before ++ (t, markers) :: after ->
  Forall (fun e => existsb (marker_hit d) (snd e) = false) before ->
  existsb (marker_hit d) markers = true ->
  detect_in table d = t.
Proof.
  intros -> Hbefore Hhit. induction Hbefore as [|[t0 ms0] rest H0 _ IH]; simpl.
  - rewrite Hhit. reflexivity.
  - simpl in H0. rewrite H0. exact IH.
Qed.

(** Any Python marker decides the type, whatever else is present. *)
Lemma detect_project_type_python_first (d : node) (marker : string) :
  In marker ["pyproject.toml"; "setup.py"; "requirements.txt"] ->
  path_exists d marker = true ->
  detect_project_type d = PYTHON.
Proof.
  intros Hin Hex.
  apply (detect_in_first_hit PROJECT_TYPE_MARKERS d PYTHON
           ["pyproject.toml"; "setup.py"; "requirements.txt"] []
           (tl PROJECT_TYPE_MARKERS)); [reflexivity|constructor|].
  apply existsb_exists. exists marker. split; [exact Hin|].
  unfold marker_hit.
  destruct Hin as [<-|[<-|[<-|[]]]]; simpl; exact Hex.
Qed.

Lemma detect_in_unknown (table : list (ProjectType * list string)) (d : node) :
  Forall (fun e => existsb (marker_hit d) (snd e) = false) table ->
  detect_in table d = UNKNOWN.
Proof.
  induction 1 as [|[t ms] rest H _ IH]; simpl; [reflexivity|].
  simpl in H. rewrite H. exact IH.
Qed.

(** C1 at the directory whose only entry is [MyApp.csproj]: no marker of
    [PROJECT_TYPE_MARKERS] contains a wildcard, the C# markers are looked up
    as the literal names [.csproj] and [.sln], and the type is Unknown. *)
Theorem detect_project_type_csproj_unknown :
  forall (mtime : option Z) (st : option fstat),
    detect_project_type (Dir mtime true [("MyApp.csproj", File st)]) = UNKNOWN.
Proof. intros mtime st. reflexivity. Qed.

(** The same holds for a solution file, and no marker of the table takes
    the glob branch. *)
Lemma detect_project_type_sln_unknown (mtime : option Z) (st : option fstat) :
  detect_project_type (Dir mtime true [("Shop.sln", File st)]) = UNKNOWN.
Proof. reflexivity. Qed.

Lemma PROJECT_TYPE_MARKERS_no_wildcard :
  Forall (fun e => Forall (fun m => contains_star m = false) (snd e))
         PROJECT_TYPE_MARKERS.
Proof. repeat constructor. Qed.

(** With the glob patterns in the table, the same loops detect C#. *)
Lemma detect_in_glob_table_csproj (mtime : option Z) (st : option fstat) :
  detect_in GLOB_TYPE_MARKERS (Dir mtime true [("MyApp.csproj", File st)])
  = CSHARP.
Proof. reflexivity. Qed.

(** ** C4: project detection *)

Lemma find_readme_in_some (names : list string) (p : Path) (d : node) :
  is_some (find_readme_in names p d) = true <->
  exists n, In n names /\ path_exists d n = true /\ path_is_file d n = true.
Proof.
  induction names as [|n names IH]; simpl.
  - split; [discriminate|intros [n [[] _]]].
  - destruct (path_exists d n && path_is_file d n) eqn:E; simpl.
    + apply andb_true_iff in E. split; [|reflexivity].
      intros _. exists n. tauto.
    + rewrite IH. split.
      * intros [m [Hin H]]. exists m. tauto.
      * intros [m [[<-|Hin] [H1 H2]]].
        -- rewrite H1, H2 in E. discriminate.
        -- exists m. tauto.
Qed.

Lemma existsb_marker_hit (d : node) (markers : list string) :
  existsb (marker_hit d) markers = true <->
  exists m, In m markers /\ marker_hit d m = true.
Proof. apply existsb_exists. Qed.

Lemma detect_in_known (table : list (ProjectType * list string)) (d : node) :
  Forall (fun e => fst e <> UNKNOWN) table ->
  (detect_in table d <> UNKNOWN <-> some_marker_hit table d).
Proof.
  unfold some_marker_hit.
  induction 1 as [|[t ms] rest Ht _ IH]; simpl.
  - split; [congruence|]. intros [t [ms [m [[] _]]]].
  - simpl in Ht. destruct (existsb (marker_hit d) ms) eqn:E.
    + split; [|intros _; exact Ht]. intros _.
      apply existsb_marker_hit in E. destruct E as [m [Hin Hm]].
      exists t, ms, m. tauto.
    + rewrite IH. split.
      * intros [t' [ms' [m [Hin H]]]]. exists t', ms', m. tauto.
      * intros [t' [ms' [m [[Heq|Hin] [Hm Hhit]]]]].
        -- inversion Heq; subst.
           assert (existsb (marker_hit d) ms' = true)
             by (apply existsb_marker_hit; exists m; tauto).
           congruence.
        -- exists t', ms', m. tauto.
Qed.

Lemma ProjectType_eqb_neq (a b : ProjectType) :
  negb (ProjectType_eqb a b) = true <-> a <> b.
Proof. destruct a, b; simpl; split; congruence. Qed.

Lemma is_project_directory_true_iff (path : Path) (d : node) :
  is_project_directory path d = true <->
  path_exists d ".git" = true \/
  has_readme_file d \/
  some_marker_hit PROJECT_TYPE_MARKERS d.
Proof.
  unfold is_project_directory, has_readme_file.
  destruct (path_exists d ".git") eqn:Egit; [tauto|].
  pose proof (find_readme_in_some README_NAMES path d) as Hr.
  fold (find_readme path d) in Hr.
  destruct (is_some (find_readme path d)) eqn:Er.
  - split; [|reflexivity]. intros _. right. left. apply Hr. reflexivity.
  - pose proof (detect_in_known PROJECT_TYPE_MARKERS d) as Hk.
    fold (detect_project_type d) in Hk.
    assert (Hne : Forall (fun e : ProjectType * list string => fst e <> UNKNOWN)
                    PROJECT_TYPE_MARKERS)
      by (repeat constructor; simpl; congruence).
    specialize (Hk Hne).
    destruct (negb (ProjectType_eqb (detect_project_type d) UNKNOWN)) eqn:Et.
    + split; [|reflexivity]. intros _. right. right.
      apply Hk. apply ProjectType_eqb_neq. exact Et.
    + split; [discriminate|].
      intros [H|[H|H]]; [discriminate| |].
      * apply Hr in H. discriminate.
      * apply Hk in H. apply ProjectType_eqb_neq in H. congruence.
Qed.

Lemma is_project_directory_false (path : Path) (d : node) :
  path_exists d ".git" = false ->
  ~ has_readme_file d ->
  ~ some_marker_hit PROJECT_TYPE_MARKERS d ->
  is_project_directory path d = false.
Proof.
  intros Hg Hr Hm. destruct (is_project_directory path d) eqn:E; [|reflexivity].
  apply is_project_directory_true_iff in E.
  destruct E as [E|[E|E]]; try tauto. congruence.
Qed.

(** C4 at the directories whose only entry is [MyApp.csproj] or [Shop.sln]:
    a manifest marker of the detection table matches an entry when the C#
    row holds the patterns [*.csproj] and [*.sln], there is no [.git] and no
    README, and [is_project_directory] returns false, because the row holds
    the literal names [.csproj] and [.sln]. *)
Theorem is_project_directory_csproj_false :
  forall (path : Path) (mtime : option Z) (st : option fstat),
    some_marker_hit GLOB_TYPE_MARKERS
      (Dir mtime true [("MyApp.csproj", File st)]) /\
    is_project_directory path (Dir mtime true [("MyApp.csproj", File st)])
      = false /\
    some_marker_hit GLOB_TYPE_MARKERS
      (Dir mtime true [("Shop.sln", File st)]) /\
    is_project_directory path (Dir mtime true [("Shop.sln", File st)])
      = false.
Proof.
  intros path mtime st. repeat split.
  - exists CSHARP, ["*.csproj"; "*.sln"], "*.csproj".
    split; [|split; [left; reflexivity|reflexivity]].
    unfold GLOB_TYPE_MARKERS. simpl. tauto.
  - exists CSHARP, ["*.csproj"; "*.sln"], "*.sln".
    split; [|split; [right; left; reflexivity|reflexivity]].
    unfold GLOB_TYPE_MARKERS. simpl. tauto.
Qed.

(** ** The scan monad *)

Lemma bind_trace {A B : Type} (m : M A) (f : A -> M B) :
  snd (bind m f) =
  snd m ++ match fst m with Ok a => snd (f a) | Raise _ => [] end.
Proof. unfold bind. destruct (fst m); simpl; [reflexivity|]. now rewrite app_nil_r. Qed.

Lemma bind_ok {A B : Type} (m : M A) (f : A -> M B) (a : A) :
  fst m = Ok a -> fst (bind m f) = fst (f a).
Proof. unfold bind. intros ->. reflexivity. Qed.

Lemma bind_ok_inv {A B : Type} (m : M A) (f : A -> M B) (b : B) :
  fst (bind m f) = Ok b -> exists a, fst m = Ok a /\ fst (f a) = Ok b.
Proof.
  unfold bind. destruct (fst m) as [a|e]; simpl; [|discriminate].
  intro H. exists a. tauto.
Qed.

Lemma bind_emit {B : Type} (e : event) (f : unit -> M B) :
  bind (emit e) f = (fst (f tt), e :: snd (f tt)).
Proof. reflexivity. Qed.

Lemma bind_ret {A B : Type} (a : A) (f : A -> M B) : bind (ret a) f = f a.
Proof. unfold bind, ret. simpl. destruct (f a). reflexivity. Qed.

Lemma attempt_trace {A : Type} (m : M A) : snd (attempt m) = snd m.
Proof. unfold attempt. destruct (fst m) as [a|[]]; reflexivity. Qed.

Lemma attempt_some {A : Type} (m : M A) (a : A) :
  fst (attempt m) = Ok (Some a) <-> fst m = Ok a.
Proof.
  unfold attempt. destruct (fst m) as [a'|[]]; simpl; split; congruence.
Qed.

Lemma attempt_none {A : Type} (m : M A) :
  fst (attempt m) = Ok None <-> fst m = Raise OSError.
Proof.
  unfold attempt. destruct (fst m) as [a'|[]]; simpl; split; congruence.
Qed.

Lemma holds_bind {A : Type} (Pe : event -> Prop) (Pp : Project.t -> Prop)
    (m : M A) (f : A -> M (list Project.t)) :
  Forall Pe (snd m) ->
  (forall a, fst m = Ok a -> holds Pe Pp (f a)) ->
  holds Pe Pp (bind m f).
Proof.
  intros Hm Hf. unfold holds, bind.
  destruct (fst m) as [a|e] eqn:E; simpl.
  - destruct (Hf a eq_refl) as [H1 H2]. split; [|exact H2].
    apply Forall_app. tauto.
  - split; [exact Hm|discriminate].
Qed.

Lemma holds_ret (Pe : event -> Prop) (Pp : Project.t -> Prop)
    (ps : list Project.t) :
  Forall Pp ps -> holds Pe Pp (ret ps).
Proof.
  intro H. split; [constructor|]. simpl. intros ps' [= <-]. exact H.
Qed.

(** ** The structure of a scan *)

Lemma node_nested_ind (P : node -> Prop) :
  (forall st, P (File st)) ->
  (forall t, P (Link t)) ->
  (forall mtime listable entries,
      Forall (fun e => P (snd e)) entries -> P (Dir mtime listable entries)) ->
  forall d, P d.
Proof.
  intros HF HL HD.
  fix IH 1. intros [st|t|mtime listable entries].
  - apply HF.
  - apply HL.
  - apply HD. induction entries as [|[n c] rest IHrest]; constructor.
    + simpl. apply IH.
    + exact IHrest.
Qed.

Section ScanFacts.

Variable now : Z.
Variable open_repo : Path -> result Repo.
Variable ignore_patterns : list string.
Variables active_threshold dormant_threshold : Z.
Variables prunable_min_size_mb prunable_max_size_mb : Q.
Variable R : Type.
Variable progress_callback : option (Path -> nat -> R).

Notation scan :=
  (scan_for_projects now open_repo ignore_patterns active_threshold
     dormant_threshold prunable_min_size_mb prunable_max_size_mb R
     progress_callback).
Notation descend := (fun p c => scan p c false).
Notation loop :=
  (scan_entries now open_repo ignore_patterns active_threshold
     dormant_threshold prunable_min_size_mb prunable_max_size_mb R
     progress_callback descend).
Notation record :=
  (project_record now open_repo active_threshold dormant_threshold
     prunable_min_size_mb prunable_max_size_mb).
Notation detect :=
  (detect_and_record now open_repo active_threshold dormant_threshold
     prunable_min_size_mb prunable_max_size_mb R progress_callback).
Notation progress := (report_progress R progress_callback).
Notation ignored := (fun name => should_ignore_directory name ignore_patterns).

Lemma scan_unfold (p : Path) (d : node) (check_root : bool) :
  scan p d check_root =
  bind (emit (EvEnter p)) (fun _ =>
  bind (if check_root
        then bind (emit (EvEval p)) (fun _ => detect p (basename p) d true)
        else ret [])
       (fun projects =>
          match d with
          | Dir _ true entries => loop p entries projects
          | _ => ret projects
          end)).
Proof. destruct d; reflexivity. Qed.

Lemma scan_descend (p : Path) (d : node) :
  scan p d false =
  (fst (match d with
        | Dir _ true entries => loop p entries []
        | _ => ret []
        end),
   EvEnter p :: snd (match d with
                     | Dir _ true entries => loop p entries []
                     | _ => ret []
                     end)).
Proof. rewrite scan_unfold, bind_emit, bind_ret. reflexivity. Qed.

Lemma loop_nil (p : Path) (ps : list Project.t) : loop p [] ps = ret ps.
Proof. reflexivity. Qed.

Lemma loop_skip (p : Path) (name : string) (child : node)
    (rest : list (string * node)) (ps : list Project.t) :
  entry_is_dir_nofollow child = false \/ ignored name = true ->
  loop p ((name, child) :: rest) ps = loop p rest ps.
Proof.
  intros [H|H]; simpl; rewrite H; simpl; [reflexivity|].
  destruct (entry_is_dir_nofollow child); reflexivity.
Qed.

Lemma loop_visit (p : Path) (name : string) (child : node)
    (rest : list (string * node)) (ps : list Project.t) :
  entry_is_dir_nofollow child = true -> ignored name = false ->
  loop p ((name, child) :: rest) ps =
  bind (progress (p ++ [name]) (List.length ps)) (fun _ =>
  bind (emit (EvEval (p ++ [name]))) (fun _ =>
  bind (attempt (detect (p ++ [name]) name child false)) (fun found =>
    match found with
    | None => ret ps
    | Some found =>
        bind (attempt (scan (p ++ [name]) child false)) (fun sub =>
          match sub with
          | None => ret (ps ++ found)
          | Some sub_projects => loop p rest ((ps ++ found) ++ sub_projects)
          end)
    end))).
Proof. intros H1 H2. simpl. rewrite H1, H2. reflexivity. Qed.

Lemma progress_trace (p : Path) (count : nat) :
  progress p count =
  (Ok tt, match progress_callback with
          | Some _ => [EvProgress p count]
          | None => []
          end).
Proof. unfold report_progress. destruct progress_callback; reflexivity. Qed.

(** One visited entry, with every way its [try] can end. *)
Lemma loop_visit_eq (p : Path) (name : string) (child : node)
    (rest : list (string * node)) (ps : list Project.t) :
  entry_is_dir_nofollow child = true -> ignored name = false ->
  loop p ((name, child) :: rest) ps =
  (match fst (detect (p ++ [name]) name child false) with
   | Ok found =>
       match fst (scan (p ++ [name]) child false) with
       | Ok sub => fst (loop p rest ((ps ++ found) ++ sub))
       | Raise OSError => Ok (ps ++ found)
       | Raise e => Raise e
       end
   | Raise OSError => Ok ps
   | Raise e => Raise e
   end,
   snd (progress (p ++ [name]) (List.length ps)) ++
   EvEval (p ++ [name]) ::
   snd (detect (p ++ [name]) name child false) ++
   match fst (detect (p ++ [name]) name child false) with
   | Ok found =>
       snd (scan (p ++ [name]) child false) ++
       match fst (scan (p ++ [name]) child false) with
       | Ok sub => snd (loop p rest ((ps ++ found) ++ sub))
       | Raise _ => []
       end
   | Raise _ => []
   end).
Proof.
  intros H1 H2. rewrite loop_visit by assumption. rewrite progress_trace.
  unfold bind, attempt, emit, ret. simpl.
  destruct (detect (p ++ [name]) name child false) as [[found|e1] tr1]; simpl.
  - destruct (scan (p ++ [name]) child false) as [[sub|e2] tr2]; simpl.
    + destruct progress_callback; simpl; rewrite <- ?app_assoc; reflexivity.
    + destruct e2; simpl; destruct progress_callback; simpl;
        rewrite ?app_nil_r; reflexivity.
  - destruct e1; simpl; destruct progress_callback; simpl;
      rewrite ?app_nil_r; reflexivity.
Qed.

(** The three ways the detection block ends. *)
Lemma detect_cases (p : Path) (name : string) (d : node) (announce : bool) :
  (is_project_directory p d = false /\
   detect p name d announce = (Ok [], [])) \/
  (exists pr,
      is_project_directory p d = true /\ record p name d = Ok pr /\
      detect p name d announce =
      (Ok [pr],
       snd (if announce then progress p 0 else ret tt) ++ [EvFound p])) \/
  (exists e,
      is_project_directory p d = true /\ record p name d = Raise e /\
      detect p name d announce =
      (Raise e, snd (if announce then progress p 0 else ret tt))).
Proof.
  unfold detect_and_record.
  destruct (is_project_directory p d) eqn:E; [|left; tauto].
  right. destruct (record p name d) as [pr|e] eqn:Er.
  - left. exists pr. repeat split.
    destruct announce; rewrite ?progress_trace;
      destruct progress_callback; reflexivity.
  - right. exists e. repeat split.
    destruct announce; rewrite ?progress_trace;
      destruct progress_callback; reflexivity.
Qed.

Lemma record_path_name (p : Path) (name : string) (d : node)
    (pr : Project.t) :
  record p name d = Ok pr -> Project.path pr = p /\ Project.name pr = name.
Proof.
  unfold project_record, rbind.
  destruct (get_git_info open_repo p d) as [[[g r] st]|e]; [|discriminate].
  destruct (get_last_modified d); [|discriminate].
  intros [= <-]. split; reflexivity.
Qed.

Lemma detect_trace_found (p : Path) (name : string) (d : node)
    (Pe : event -> Prop) :
  Pe (EvFound p) -> Forall Pe (snd (detect p name d false)).
Proof.
  intro H.
  destruct (detect_cases p name d false)
    as [[_ ->]|[[pr [_ [_ ->]]]|[e [_ [_ ->]]]]]; simpl; repeat constructor.
  exact H.
Qed.

Lemma detect_result (p : Path) (name : string) (d : node) (announce : bool)
    (found : list Project.t) :
  fst (detect p name d announce) = Ok found ->
  found = [] \/ exists pr, found = [pr] /\ record p name d = Ok pr.
Proof.
  destruct (detect_cases p name d announce)
    as [[_ ->]|[[pr [_ [Hr ->]]]|[e [_ [_ ->]]]]]; simpl.
  - intros [= <-]. tauto.
  - intros [= <-]. right. exists pr. tauto.
  - discriminate.
Qed.

(** *** An invariant scheme for the walk

    [V] holds of every directory the walk enters, [Pe] of every event of
    the trace and [Pp] of every record returned. *)
Section Invariant.

Variable U : Path -> Prop.
Variable V : Path -> Prop.
Variable Pe : event -> Prop.
Variable Pp : Project.t -> Prop.

Hypothesis V_U : forall q, V q -> U q.
Hypothesis U_child :
  forall q name, U q -> ignored name = false -> V (q ++ [name]).
Hypothesis Pe_enter : forall q, V q -> Pe (EvEnter q).
Hypothesis Pe_child :
  forall q name c, U q -> ignored name = false ->
    Pe (EvProgress (q ++ [name]) c) /\ Pe (EvEval (q ++ [name])) /\
    Pe (EvFound (q ++ [name])).
Hypothesis Pp_child :
  forall q name d pr, U q -> ignored name = false ->
    record (q ++ [name]) name d = Ok pr -> Pp pr.

Lemma loop_holds (entries : list (string * node)) :
  Forall (fun e => forall p, V p -> holds Pe Pp (scan p (snd e) false))
         entries ->
  forall p ps, U p -> Forall Pp ps -> holds Pe Pp (loop p entries ps).
Proof.
  induction 1 as [|[name child] rest Hc _ IH]; intros p ps Hp Hps.
  - rewrite loop_nil. now apply holds_ret.
  - simpl in Hc.
    destruct (entry_is_dir_nofollow child) eqn:Ed;
      [|rewrite loop_skip by tauto; now apply IH].
    destruct (ignored name) eqn:Ei;
      [rewrite loop_skip by tauto; now apply IH|].
    rewrite loop_visit by assumption.
    destruct (Pe_child p name (List.length ps) Hp Ei) as (Hp1 & Hp2 & Hp3).
    apply holds_bind.
    { rewrite progress_trace. simpl.
      destruct progress_callback; repeat constructor. exact Hp1. }
    intros _ _. apply holds_bind; [repeat constructor; exact Hp2|].
    intros _ _. apply holds_bind.
    { rewrite attempt_trace. now apply detect_trace_found. }
    intros [found|] Hf; [|now apply holds_ret].
    apply (proj1 (attempt_some _ _)) in Hf.
    assert (Hfound : Forall Pp found).
    { destruct (detect_result _ _ _ _ _ Hf) as [->|[pr [-> Hr]]];
        repeat constructor.
      exact (Pp_child p name child pr Hp Ei Hr). }
    destruct (Hc (p ++ [name]) (U_child p name Hp Ei)) as [Ht Hr].
    apply holds_bind; [now rewrite attempt_trace|].
    intros [sub|] Hs.
    + apply (proj1 (attempt_some _ _)) in Hs. apply IH; [exact Hp|].
      apply Forall_app. split; [apply Forall_app; tauto|]. now apply Hr.
    + apply holds_ret. apply Forall_app. tauto.
Qed.

Lemma descend_holds (d : node) :
  forall p, V p -> holds Pe Pp (scan p d false).
Proof.
  induction d as [st|t|mtime listable entries IH] using node_nested_ind;
    intros p Hp; rewrite scan_descend.
  1,2: split; simpl; [repeat constructor; now apply Pe_enter|];
       intros ps [= <-]; constructor.
  destruct listable.
  - destruct (loop_holds entries IH p [] (V_U p Hp) (Forall_nil _)) as [Ht Hr].
    split; simpl; [constructor; [now apply Pe_enter|exact Ht]|exact Hr].
  - split; simpl; [repeat constructor; now apply Pe_enter|].
    intros ps [= <-]; constructor.
Qed.

(** The top-level call adds the events of the root and its record. *)
Lemma top_holds (root : Path) (d : node) :
  U root ->
  Pe (EvEnter root) -> Pe (EvEval root) ->
  (forall c, Pe (EvProgress root c)) -> Pe (EvFound root) ->
  (forall pr, record root (basename root) d = Ok pr -> Pp pr) ->
  holds Pe Pp (scan root d true).
Proof.
  intros Hv Hen He Hp Hf Hr. rewrite scan_unfold.
  apply holds_bind; [repeat constructor; exact Hen|].
  intros _ _. apply holds_bind.
  - rewrite bind_emit. simpl. constructor; [exact He|].
    destruct (detect_cases root (basename root) d true)
      as [[_ ->]|[[pr [_ [_ ->]]]|[e [_ [_ ->]]]]]; simpl;
      rewrite ?progress_trace; simpl; destruct progress_callback; simpl;
      repeat constructor; auto.
  - intros found Hfound. rewrite bind_emit in Hfound. simpl in Hfound.
    assert (Forall Pp found).
    { destruct (detect_result _ _ _ _ _ Hfound) as [->|[pr [-> Hpr]]];
        repeat constructor. now apply Hr. }
    destruct d as [st|t|mtime [|] entries]; try now apply holds_ret.
    apply loop_holds; [|exact Hv|assumption].
    apply Forall_forall. intros e _ p Hvp. now apply descend_holds.
Qed.

End Invariant.

(** *** C5: ignored directories *)

Lemma clear_below_child (root q : Path) (name : string) :
  clear_below ignore_patterns root q -> ignored name = false ->
  clear_below ignore_patterns root (q ++ [name]).
Proof.
  intros [rel [-> Hrel]] Hn. exists (rel ++ [name]). split.
  - now rewrite app_assoc.
  - apply Forall_app. split; [exact Hrel|]. repeat constructor. exact Hn.
Qed.

Lemma clear_below_root (root : Path) : clear_below ignore_patterns root root.
Proof. exists []. split; [now rewrite app_nil_r|constructor]. Qed.

Lemma clear_below_not_ignored (root rel rel' : Path) (name : string) :
  In name ignore_patterns ->
  ~ clear_below ignore_patterns root (root ++ rel ++ name :: rel').
Proof.
  intros Hin [rel2 [Heq Hall]]. apply app_inv_head in Heq. subst rel2.
  apply Forall_app in Hall. destruct Hall as [_ Hall].
  inversion Hall as [|? ? Hn _]; subst. unfold not_ignored in Hn.
  unfold should_ignore_directory in Hn.
  assert (existsb (String.eqb name) ignore_patterns = true); [|congruence].
  apply existsb_exists. exists name. split; [exact Hin|apply String.eqb_refl].
Qed.

Lemma scan_clear (root : Path) (d : node) (check_root : bool) :
  holds (fun e => clear_below ignore_patterns root (event_path e))
        (fun pr => clear_below ignore_patterns root (Project.path pr))
        (scan root d check_root).
Proof.
  pose proof (clear_below_root root) as Hroot.
  assert (Hrec : forall q name d' pr,
             clear_below ignore_patterns root q -> ignored name = false ->
             record (q ++ [name]) name d' = Ok pr ->
             clear_below ignore_patterns root (Project.path pr)).
  { intros q name d' pr Hq Hn Hr. apply record_path_name in Hr.
    destruct Hr as [-> _]. now apply clear_below_child. }
  destruct check_root.
  - apply top_holds with (U := clear_below ignore_patterns root)
                        (V := clear_below ignore_patterns root); simpl;
      auto using clear_below_child.
    intros pr Hr. apply record_path_name in Hr. destruct Hr as [-> _].
    exact Hroot.
  - apply descend_holds with (U := clear_below ignore_patterns root)
                            (V := clear_below ignore_patterns root); simpl;
      auto using clear_below_child.
Qed.

(** C5. A directory below the scan root whose name is in [ignore_patterns]
    is skipped entirely: neither it nor anything beneath it is tested with
    [is_project_directory], entered, reported to the callback or recorded,
    and no returned record has such a path. *)
Theorem ignored_directory_skipped :
  forall (root : Path) (d : node) (check_root : bool)
         (rel : Path) (name : string) (rel' : Path),
    In name ignore_patterns ->
    let q := root ++ rel ++ name :: rel' in
    let m := scan root d check_root in
    ~ In (EvEval q) (snd m) /\
    ~ In (EvEnter q) (snd m) /\
    (forall c, ~ In (EvProgress q c) (snd m)) /\
    ~ In (EvFound q) (snd m) /\
    (forall ps pr, fst m = Ok ps -> In pr ps -> Project.path pr <> q).
Proof.
  intros root d check_root rel name rel' Hin q m.
  destruct (scan_clear root d check_root) as [Ht Hr]. fold m in Ht, Hr.
  pose proof (clear_below_not_ignored root rel rel' name Hin) as Hno.
  fold q in Hno. rewrite Forall_forall in Ht.
  repeat split.
  - intro H. apply Ht in H. exact (Hno H).
  - intro H. apply Ht in H. exact (Hno H).
  - intros c H. apply Ht in H. exact (Hno H).
  - intro H. apply Ht in H. exact (Hno H).
  - intros ps pr Hps Hpr Heq. specialize (Hr ps Hps).
    rewrite Forall_forall in Hr. apply Hr in Hpr. rewrite Heq in Hpr.
    exact (Hno Hpr).
Qed.

(** *** C9: the version-control fields of a record *)

Lemma get_git_info_flag (p : Path) (d : node) (g : bool)
    (r : option string) (st : option GitStatus) :
  get_git_info open_repo p d = Ok (g, r, st) ->
  g = path_exists d ".git" /\ (g = false -> r = None /\ st = None).
Proof.
  unfold get_git_info. destruct (path_exists d ".git"); simpl.
  - intro H.
    destruct (rbind (open_repo p) _) as [[[g' r'] st']|[]] eqn:E;
      inversion H; subst; try (split; [reflexivity|discriminate]).
    revert E. unfold rbind. destruct (open_repo p); [|discriminate].
    destruct (select_remote_url a); [|discriminate].
    destruct (determine_git_status a a0); [|discriminate].
    intros [= <- <- <-]. split; [reflexivity|discriminate].
  - intros [= <- <- <-]. tauto.
Qed.

Lemma get_git_info_unreadable (p : Path) (d : node) :
  path_exists d ".git" = true -> repo_unreadable open_repo p ->
  get_git_info open_repo p d = Ok (true, None, None).
Proof.
  unfold get_git_info, repo_unreadable. intros -> [H|H]; rewrite H; reflexivity.
Qed.

Lemma get_git_info_catches (p : Path) (d : node) :
  get_git_info open_repo p d <> Raise InvalidGitRepositoryError /\
  get_git_info open_repo p d <> Raise GitCommandError.
Proof.
  unfold get_git_info. destruct (negb (path_exists d ".git")).
  - split; discriminate.
  - destruct (rbind (open_repo p) _) as [x|[]]; split; discriminate.
Qed.

Lemma record_git_fields (p : Path) (name : string) (d : node)
    (pr : Project.t) :
  record p name d = Ok pr ->
  get_git_info open_repo p d =
  Ok (Project.has_git pr, Project.git_remote pr, Project.git_status pr).
Proof.
  unfold project_record, rbind.
  destruct (get_git_info open_repo p d) as [[[g r] st]|e]; [|discriminate].
  destruct (get_last_modified d); [|discriminate].
  intros [= <-]. reflexivity.
Qed.

Lemma record_status_needs_git (p : Path) (name : string) (d : node)
    (pr : Project.t) :
  record p name d = Ok pr -> status_needs_git pr.
Proof.
  intros Hr Hst. apply record_git_fields in Hr.
  apply get_git_info_flag in Hr. destruct Hr as [_ Hr].
  destruct (Project.has_git pr); [reflexivity|].
  destruct (Hr eq_refl) as [_ H]. contradiction.
Qed.

Lemma record_unreadable (p : Path) (name : string) (d : node)
    (pr : Project.t) :
  record p name d = Ok pr -> repo_unreadable open_repo p ->
  Project.has_git pr = path_exists d ".git" /\
  Project.git_remote pr = None /\ Project.git_status pr = None.
Proof.
  intros Hr Hu. apply record_git_fields in Hr.
  destruct (path_exists d ".git") eqn:E.
  - rewrite (get_git_info_unreadable p d E Hu) in Hr.
    inversion Hr. tauto.
  - apply get_git_info_flag in Hr. rewrite E in Hr.
    destruct Hr as [-> Hr]. destruct (Hr eq_refl). tauto.
Qed.

(** Every record of a scan was built by the metadata block at its path. *)
Lemma scan_records (root : Path) (d : node) (check_root : bool) :
  holds (fun _ => True)
        (fun pr => exists name dir, record (Project.path pr) name dir = Ok pr)
        (scan root d check_root).
Proof.
  assert (Hrec : forall q name d' pr, record q name d' = Ok pr ->
             exists name dir, record (Project.path pr) name dir = Ok pr).
  { intros q name d' pr Hr. exists name, d'.
    destruct (record_path_name _ _ _ _ Hr) as [-> _]. exact Hr. }
  destruct check_root.
  - apply top_holds with (U := fun _ => True) (V := fun _ => True); eauto.
  - apply descend_holds with (U := fun _ => True) (V := fun _ => True); eauto.
Qed.

(** C9. In every record of a scan the status is present only if [has_git]
    is true, while the remote may be absent with [has_git] true.  When
    [.git] exists and GitPython cannot read the repository, [get_git_info]
    raises nothing and gives (true, None, None); and a record of a scan at
    such a path with [has_git] true has neither a remote nor a status. *)
Theorem vcs_fields_of_records :
  forall (root : Path) (d : node) (check_root : bool),
    (forall ps, fst (scan root d check_root) = Ok ps ->
       Forall status_needs_git ps) /\
    (exists pr,
       fst (sample_scan [] None ["r"] corrupt_git_dir) = Ok [pr] /\
       Project.has_git pr = true /\ Project.git_remote pr = None) /\
    (forall p dir,
       path_exists dir ".git" = true -> repo_unreadable open_repo p ->
       get_git_info open_repo p dir = Ok (true, None, None)) /\
    (forall ps pr,
       fst (scan root d check_root) = Ok ps -> In pr ps ->
       repo_unreadable open_repo (Project.path pr) ->
       Project.has_git pr = true ->
       Project.git_remote pr = None /\ Project.git_status pr = None).
Proof.
  intros root d check_root.
  destruct (scan_records root d check_root) as [_ Hr].
  split; [|split; [|split]].
  - intros ps Hps. specialize (Hr ps Hps).
    eapply Forall_impl; [|exact Hr]. simpl.
    intros pr [name [dir H]]. exact (record_status_needs_git _ _ _ _ H).
  - vm_compute. eexists. split; [reflexivity|]. split; reflexivity.
  - intros p dir. apply get_git_info_unreadable.
  - intros ps pr Hps Hin Hun _. specialize (Hr ps Hps).
    rewrite Forall_forall in Hr.
    destruct (Hr pr Hin) as [name [dir Hrec]].
    exact (proj2 (record_unreadable _ _ _ _ Hrec Hun)).
Qed.

(** *** C10: the scan root is not filtered *)

Lemma loop_prefix (p : Path) (entries : list (string * node)) :
  forall ps0 ps, fst (loop p entries ps0) = Ok ps ->
                 exists rest, ps = ps0 ++ rest.
Proof.
  induction entries as [|[name child] rest IH]; intros ps0 ps H.
  - rewrite loop_nil in H. inversion H. exists []. now rewrite app_nil_r.
  - destruct (entry_is_dir_nofollow child) eqn:Ed;
      [|rewrite loop_skip in H by tauto; now apply IH].
    destruct (ignored name) eqn:Ei;
      [rewrite loop_skip in H by tauto; now apply IH|].
    rewrite loop_visit in H by assumption.
    apply bind_ok_inv in H. destruct H as [_ [_ H]].
    apply bind_ok_inv in H. destruct H as [_ [_ H]].
    apply bind_ok_inv in H. destruct H as [[found|] [_ H]].
    + apply bind_ok_inv in H. destruct H as [[sub|] [_ H]].
      * apply IH in H. destruct H as [r ->].
        exists (found ++ sub ++ r). now rewrite !app_assoc.
      * inversion H. now exists found.
    + inversion H. exists []. now rewrite app_nil_r.
Qed.

Lemma top_trace (root : Path) (d : node) :
  snd (scan root d true) =
  EvEnter root :: EvEval root ::
  snd (detect root (basename root) d true) ++
  match fst (detect root (basename root) d true) with
  | Ok found =>
      snd (match d with
           | Dir _ true entries => loop root entries found
           | _ => ret found
           end)
  | Raise _ => []
  end.
Proof.
  rewrite scan_unfold, bind_emit. simpl. f_equal.
  rewrite bind_trace, bind_emit. simpl. reflexivity.
Qed.

Lemma top_result (root : Path) (d : node) (ps : list Project.t) :
  fst (scan root d true) = Ok ps ->
  exists found,
    fst (detect root (basename root) d true) = Ok found /\
    fst (match d with
         | Dir _ true entries => loop root entries found
         | _ => ret found
         end) = Ok ps.
Proof.
  rewrite scan_unfold, bind_emit. simpl. intro H.
  apply bind_ok_inv in H. destruct H as [found [H1 H2]].
  rewrite bind_emit in H1. simpl in H1. exists found. tauto.
Qed.

(** C10. Whatever [ignore_patterns] holds, the top-level call tests the
    scan root with [is_project_directory], and when the root qualifies the
    list it returns starts with the record of the root. *)
Theorem scan_root_not_filtered :
  forall (root : Path) (d : node) (ps : list Project.t),
    fst (scan root d true) = Ok ps ->
    is_project_directory root d = true ->
    In (EvEval root) (snd (scan root d true)) /\
    exists pr rest,
      ps = pr :: rest /\ Project.path pr = root /\
      Project.name pr = basename root /\
      record root (basename root) d = Ok pr.
Proof.
  intros root d ps Hps Hproj. split.
  - rewrite top_trace. simpl. tauto.
  - apply top_result in Hps. destruct Hps as [found [Hf Hl]].
    destruct (detect_cases root (basename root) d true)
      as [[E _]|[[pr [_ [Hr Hd]]]|[e [_ [_ Hd]]]]]; [congruence| |].
    + rewrite Hd in Hf. simpl in Hf. inversion Hf; subst found.
      assert (Hpre : exists rest, ps = [pr] ++ rest).
      { destruct d as [st|t|mtime [|] entries];
          try (inversion Hl; exists []; reflexivity).
        exact (loop_prefix _ _ _ _ Hl). }
      destruct Hpre as [rest ->]. exists pr, rest.
      destruct (record_path_name _ _ _ _ Hr). tauto.
    + rewrite Hd in Hf. discriminate.
Qed.

(** *** One evaluation of the root; the walk when no metadata block raises *)

Notation kids_ok :=
  (children_ok now open_repo ignore_patterns active_threshold
     dormant_threshold prunable_min_size_mb prunable_max_size_mb).
Notation rec_ok :=
  (record_ok now open_repo active_threshold dormant_threshold
     prunable_min_size_mb prunable_max_size_mb).

Lemma detect_ok (p : Path) (name : string) (d : node) (announce : bool) :
  rec_ok p name d = true ->
  exists found, fst (detect p name d announce) = Ok found.
Proof.
  unfold record_ok. intro H.
  destruct (detect_cases p name d announce)
    as [[_ ->]|[[pr [_ [_ ->]]]|[e [E [Hr _]]]]]; simpl; eauto.
  rewrite E, Hr in H. discriminate.
Qed.

Lemma loop_reaches (entries : list (string * node)) :
  Forall (fun e => forall q, kids_ok q (snd e) = true ->
            descends_fully ignore_patterns q (snd e) (scan q (snd e) false))
         entries ->
  forall p ps0,
    kids_ok p (Dir None true entries) = true ->
    (exists ps, fst (loop p entries ps0) = Ok ps) /\
    forall name child rel,
      In (name, child) entries ->
      entry_is_dir_nofollow child = true -> ignored name = false ->
      reaches ignore_patterns child rel ->
      In (EvEnter (p ++ name :: rel)) (snd (loop p entries ps0)) /\
      In (EvEval (p ++ name :: rel)) (snd (loop p entries ps0)).
Proof.
  induction 1 as [|[name0 child0] rest Hc _ IH]; intros p ps0 Hok.
  - split; [exists ps0; reflexivity|]. intros name child rel [].
  - simpl in Hok, Hc. apply andb_true_iff in Hok. destruct Hok as [Hhd Htl].
    destruct (entry_is_dir_nofollow child0) eqn:Ed; simpl in Hhd.
    2:{ rewrite loop_skip by tauto. destruct (IH p ps0 Htl) as [Hres Hin].
        split; [exact Hres|].
        intros name child rel [Heq|Hin'] Hd Hi Hr;
          [|exact (Hin name child rel Hin' Hd Hi Hr)].
        inversion Heq; subst. congruence. }
    destruct (ignored name0) eqn:Ei; simpl in Hhd.
    { rewrite loop_skip by tauto. destruct (IH p ps0 Htl) as [Hres Hin].
      split; [exact Hres|].
      intros name child rel [Heq|Hin'] Hd Hi Hr;
          [|exact (Hin name child rel Hin' Hd Hi Hr)].
      inversion Heq; subst. congruence. }
    apply andb_true_iff in Hhd. destruct Hhd as [Hrec Hkids].
    destruct (detect_ok _ _ _ false Hrec) as [found Hfound].
    destruct (Hc (p ++ [name0]) Hkids) as [[sub Hsub] Hdeep].
    rewrite loop_visit_eq by assumption. rewrite Hfound, Hsub. simpl.
    destruct (IH p ((ps0 ++ found) ++ sub) Htl) as [Hres Hin].
    split; [exact Hres|].
    intros name child rel [Heq|Hin'] Hd Hi Hr.
    + inversion Heq; subst name0 child0.
      destruct (Hdeep rel Hr) as [Henter Heval].
      rewrite <- app_assoc in Henter, Heval. simpl in Henter, Heval.
      split.
      * apply in_or_app. right. right. apply in_or_app. right.
        apply in_or_app. left. exact Henter.
      * destruct rel as [|n rel].
        -- apply in_or_app. right. left. reflexivity.
        -- apply in_or_app. right. right. apply in_or_app. right.
           apply in_or_app. left. apply Heval. discriminate.
    + destruct (Hin name child rel Hin' Hd Hi Hr) as [H1 H2].
      split; apply in_or_app; right; right; apply in_or_app; right;
        apply in_or_app; right; assumption.
Qed.

Lemma descend_reaches (d : node) :
  forall q, kids_ok q d = true ->
            descends_fully ignore_patterns q d (scan q d false).
Proof.
  induction d as [st|t|mtime listable entries IH] using node_nested_ind;
    intros q Hok; rewrite scan_descend.
  1,2: split; simpl; [eexists; reflexivity|];
       intros rel Hr; inversion Hr; subst; rewrite app_nil_r;
       split; [tauto|congruence].
  destruct listable.
  - destruct (loop_reaches entries IH q [] Hok) as [Hres Hin].
    split; [exact Hres|]. simpl.
    intros rel Hr.
    inversion Hr as [|? ? name child rel0 Hin1 Hdir Hign Hrest]; subst.
    + rewrite app_nil_r. split; [tauto|congruence].
    + destruct (Hin name child rel0 Hin1 Hdir Hign Hrest). split; [tauto|].
      intros _. tauto.
  - split; simpl; [eexists; reflexivity|].
    intros rel Hr; inversion Hr; subst; rewrite app_nil_r.
    split; [tauto|congruence].
Qed.

Lemma child_path_longer (root q : Path) (name : string) :
  (List.length root <= List.length q)%nat -> q ++ [name] <> root.
Proof.
  intros Hq Heq. apply (f_equal (@List.length string)) in Heq.
  rewrite length_app in Heq. simpl in Heq. lia.
Qed.

Lemma loop_paths_below (root : Path) (entries : list (string * node))
    (ps : list Project.t) :
  Forall (fun e => event_path e <> root) (snd (loop root entries ps)).
Proof.
  pose (U := fun q : Path => (List.length root <= List.length q)%nat).
  pose (V := fun q : Path => (List.length root < List.length q)%nat).
  assert (HVU : forall q, V q -> U q) by (unfold U, V; intros; lia).
  assert (Hstep : forall q name, U q -> ignored name = false -> V (q ++ [name])).
  { unfold U, V. intros q name Hq _. rewrite length_app. simpl. lia. }
  assert (Henter : forall q, V q -> event_path (EvEnter q) <> root).
  { unfold V. simpl. intros q Hq ->. lia. }
  assert (Hchild : forall q name c, U q -> ignored name = false ->
            event_path (EvProgress (q ++ [name]) c) <> root /\
            event_path (EvEval (q ++ [name])) <> root /\
            event_path (EvFound (q ++ [name])) <> root).
  { intros q name c Hq _. simpl.
    pose proof (child_path_longer root q name Hq). tauto. }
  assert (H : holds (fun e => event_path e <> root) (fun _ => True)
                (loop root entries ps)).
  { apply loop_holds with (U := U) (V := V); trivial.
    - apply Forall_forall. intros e _ p Hp.
      apply descend_holds with (U := U) (V := V); trivial.
    - unfold U. lia.
    - apply Forall_forall. trivial. }
  exact (proj1 H).
Qed.

Lemma loop_never_evaluates (root : Path) (entries : list (string * node))
    (ps : list Project.t) :
  ~ In (EvEval root) (snd (loop root entries ps)).
Proof.
  intro Hin. pose proof (loop_paths_below root entries ps) as H.
  rewrite Forall_forall in H. exact (H _ Hin eq_refl).
Qed.

Lemma detect_never_evaluates (root : Path) (name : string) (d : node)
    (announce : bool) (q : Path) :
  ~ In (EvEval q) (snd (detect root name d announce)).
Proof.
  destruct (detect_cases root name d announce)
    as [[_ ->]|[[pr [_ [_ ->]]]|[e [_ [_ ->]]]]]; simpl; [tauto| |];
    destruct announce; rewrite ?progress_trace; simpl;
    destruct progress_callback; simpl; intuition discriminate.
Qed.

Lemma root_evaluated_once (root : Path) (d : node) :
  count_occ event_eq_dec (snd (scan root d true)) (EvEval root) = 1%nat.
Proof.
  rewrite top_trace.
  rewrite count_occ_cons_neq by discriminate.
  rewrite count_occ_cons_eq by reflexivity. f_equal.
  apply count_occ_not_In. intro Hin. apply in_app_or in Hin.
  destruct Hin as [Hin|Hin]; [exact (detect_never_evaluates _ _ _ _ _ Hin)|].
  destruct (fst (detect root (basename root) d true)) as [found|e];
    [|exact Hin].
  destruct d as [st|t|mtime [|] entries]; try exact Hin.
  exact (loop_never_evaluates _ _ _ Hin).
Qed.

Lemma top_reaches (root : Path) (d : node) :
  rec_ok root (basename root) d = true -> kids_ok root d = true ->
  forall rel, rel <> [] -> reaches ignore_patterns d rel ->
    In (EvEval (root ++ rel)) (snd (scan root d true)) /\
    In (EvEnter (root ++ rel)) (snd (scan root d true)).
Proof.
  intros Hrec Hkids rel Hne Hr. rewrite top_trace.
  destruct (detect_ok _ _ _ true Hrec) as [found Hfound]. rewrite Hfound.
  inversion Hr as [|? ? name child rel0 Hin1 Hdir Hign Hrest]; subst;
    [congruence|].
  assert (Hall : Forall (fun e => forall q, kids_ok q (snd e) = true ->
             descends_fully ignore_patterns q (snd e) (scan q (snd e) false))
             entries).
  { apply Forall_forall. intros e _ q Hq. now apply descend_reaches. }
  destruct (loop_reaches entries Hall root found Hkids) as [_ Hin].
  destruct (Hin name child rel0 Hin1 Hdir Hign Hrest) as [H3 H4].
  split; right; right; apply in_or_app; right; assumption.
Qed.

(** *** C8: the progress callback *)

Lemma progress_paths_app (t1 t2 : list event) :
  progress_paths (t1 ++ t2) = progress_paths t1 ++ progress_paths t2.
Proof. apply flat_map_app. Qed.

Lemma eval_paths_app (t1 t2 : list event) :
  eval_paths (t1 ++ t2) = eval_paths t1 ++ eval_paths t2.
Proof. apply flat_map_app. Qed.

Lemma found_count_app (t1 t2 : list event) :
  found_count (t1 ++ t2) = (found_count t1 + found_count t2)%nat.
Proof. unfold found_count. now rewrite filter_app, length_app. Qed.

Lemma detect_quiet (p : Path) (name : string) (d : node) :
  progress_paths (snd (detect p name d false)) = [] /\
  eval_paths (snd (detect p name d false)) = [].
Proof.
  destruct (detect_cases p name d false)
    as [[_ ->]|[[pr [_ [_ ->]]]|[e [_ [_ ->]]]]]; simpl; tauto.
Qed.

Lemma progress_paths_cons (e : event) (t : list event) :
  progress_paths (e :: t) =
  match e with EvProgress q _ => [q] | _ => [] end ++ progress_paths t.
Proof. reflexivity. Qed.

Lemma eval_paths_cons (e : event) (t : list event) :
  eval_paths (e :: t) =
  match e with EvEval q => [q] | _ => [] end ++ eval_paths t.
Proof. reflexivity. Qed.

Lemma progress_trace_some (f : Path -> nat -> R) (p : Path) (c : nat) :
  progress_callback = Some f -> snd (progress p c) = [EvProgress p c].
Proof. intro H. rewrite progress_trace, H. reflexivity. Qed.

Lemma loop_progress_paths (f : Path -> nat -> R)
    (entries : list (string * node)) :
  progress_callback = Some f ->
  Forall (fun e => forall q,
            progress_paths (snd (scan q (snd e) false)) =
            eval_paths (snd (scan q (snd e) false))) entries ->
  forall p ps,
    progress_paths (snd (loop p entries ps)) =
    eval_paths (snd (loop p entries ps)).
Proof.
  intros Hcb. induction 1 as [|[name child] rest Hc _ IH]; intros p ps.
  - reflexivity.
  - simpl in Hc.
    destruct (entry_is_dir_nofollow child) eqn:Ed;
      [|rewrite loop_skip by tauto; apply IH].
    destruct (ignored name) eqn:Ei; [rewrite loop_skip by tauto; apply IH|].
    rewrite loop_visit_eq by assumption. cbn [snd].
    rewrite (progress_trace_some f) by exact Hcb.
    rewrite progress_paths_app, eval_paths_app.
    rewrite !progress_paths_cons, !eval_paths_cons.
    rewrite progress_paths_app, eval_paths_app.
    destruct (detect_quiet (p ++ [name]) name child) as [-> ->]. simpl.
    f_equal.
    destruct (fst (detect (p ++ [name]) name child false)); [|reflexivity].
    rewrite progress_paths_app, eval_paths_app, (Hc (p ++ [name])). f_equal.
    destruct (fst (scan (p ++ [name]) child false)); [|reflexivity].
    apply IH.
Qed.

Lemma descend_progress_paths (f : Path -> nat -> R) (d : node) :
  progress_callback = Some f ->
  forall q, progress_paths (snd (scan q d false)) =
            eval_paths (snd (scan q d false)).
Proof.
  intro Hcb.
  induction d as [st|t|mtime listable entries IH] using node_nested_ind;
    intro q; rewrite scan_descend; try reflexivity.
  destruct listable; [|reflexivity]. cbn [snd].
  exact (loop_progress_paths f entries Hcb IH q []).
Qed.

Lemma top_progress_paths (f : Path -> nat -> R) (root : Path) (d : node) :
  progress_callback = Some f ->
  progress_paths (snd (scan root d true)) =
  (if is_project_directory root d then [root] else []) ++
  tl (eval_paths (snd (scan root d true))).
Proof.
  intro Hcb. rewrite top_trace.
  set (rest := match fst (detect root (basename root) d true) with
               | Ok found => _
               | Raise _ => []
               end).
  rewrite !progress_paths_cons, !eval_paths_cons. cbn [app tl].
  rewrite progress_paths_app, eval_paths_app.
  assert (Hrest : progress_paths rest = eval_paths rest).
  { unfold rest. destruct (fst (detect root (basename root) d true));
      [|reflexivity].
    destruct d as [st|t|mtime [|] entries]; try reflexivity.
    apply (loop_progress_paths f); [exact Hcb|].
    apply Forall_forall. intros e _ q. now apply (descend_progress_paths f). }
  rewrite Hrest.
  destruct (detect_cases root (basename root) d true)
    as [[E ->]|[[pr [E [_ ->]]]|[e [E [_ ->]]]]]; rewrite E;
    rewrite ?(progress_trace_some f) by exact Hcb; reflexivity.
Qed.

Lemma found_count_cons (e : event) (t : list event) :
  found_count (e :: t) =
  (match e with EvFound _ => 1 | _ => 0 end + found_count t)%nat.
Proof. unfold found_count. destruct e; reflexivity. Qed.

Lemma counts_from_app (depth : nat) (t1 t2 : list event) :
  forall k,
    counts_from depth k t1 ->
    counts_from depth (k + found_count t1) t2 ->
    counts_from depth k (t1 ++ t2).
Proof.
  induction t1 as [|e t1 IH]; intros k H1 H2.
  - simpl in *. now rewrite Nat.add_0_r in H2.
  - rewrite found_count_cons in H2.
    destruct e; simpl in *; try (apply IH; [tauto|];
      now rewrite ?Nat.add_0_l, ?Nat.add_succ_r in * ).
    split; [tauto|]. apply IH; tauto.
Qed.

Lemma counts_from_split (depth : nat) (t1 t2 : list event) (q : Path)
    (c : nat) :
  forall k,
    counts_from depth k (t1 ++ EvProgress q c :: t2) ->
    List.length q = depth -> c = (k + found_count t1)%nat.
Proof.
  induction t1 as [|e t1 IH]; intros k H Hq.
  - simpl in *. rewrite Nat.add_0_r. tauto.
  - rewrite found_count_cons.
    destruct e; simpl in *; try (rewrite (IH _ H Hq); lia).
    destruct H as [_ H]. rewrite (IH _ H Hq). lia.
Qed.

Lemma counts_from_deep (depth : nat) (t : list event) :
  Forall (progress_deeper depth) t -> forall k, counts_from depth k t.
Proof.
  induction 1 as [|e t He _ IH]; intro k; simpl; [trivial|].
  destruct e; simpl in *; auto. split; [lia|auto].
Qed.

Lemma progress_no_found (p : Path) (c : nat) :
  found_count (snd (progress p c)) = 0%nat.
Proof. rewrite progress_trace. destruct progress_callback; reflexivity. Qed.

Lemma detect_count (p : Path) (name : string) (d : node) (announce : bool) :
  found_count (snd (detect p name d announce)) =
  match fst (detect p name d announce) with
  | Ok found => List.length found
  | Raise _ => 0%nat
  end.
Proof.
  destruct (detect_cases p name d announce)
    as [[_ ->]|[[pr [_ [_ ->]]]|[e [_ [_ ->]]]]]; simpl; trivial;
    destruct announce; rewrite ?found_count_app, ?progress_no_found;
    reflexivity.
Qed.

Lemma loop_no_oserror (p : Path) (entries : list (string * node)) :
  forall ps, fst (loop p entries ps) <> Raise OSError.
Proof.
  induction entries as [|[name child] rest IH]; intro ps.
  - discriminate.
  - destruct (entry_is_dir_nofollow child) eqn:Ed;
      [|rewrite loop_skip by tauto; apply IH].
    destruct (ignored name) eqn:Ei; [rewrite loop_skip by tauto; apply IH|].
    rewrite loop_visit_eq by assumption. cbn [fst].
    destruct (fst (detect (p ++ [name]) name child false)) as [found|[]];
      try discriminate.
    destruct (fst (scan (p ++ [name]) child false)) as [sub|[]];
      try discriminate.
    apply IH.
Qed.

Lemma descend_no_oserror (q : Path) (d : node) :
  fst (scan q d false) <> Raise OSError.
Proof.
  rewrite scan_descend. cbn [fst].
  destruct d as [st|t|mtime [|] entries]; try discriminate.
  apply loop_no_oserror.
Qed.

Lemma loop_count (entries : list (string * node)) :
  Forall (fun e => forall q ps,
            fst (scan q (snd e) false) = Ok ps ->
            List.length ps = found_count (snd (scan q (snd e) false)))
         entries ->
  forall p ps0 ps,
    fst (loop p entries ps0) = Ok ps ->
    List.length ps =
    (List.length ps0 + found_count (snd (loop p entries ps0)))%nat.
Proof.
  induction 1 as [|[name child] rest Hc _ IH]; intros p ps0 ps H.
  - rewrite loop_nil in *. inversion H. subst. cbn. lia.
  - simpl in Hc.
    destruct (entry_is_dir_nofollow child) eqn:Ed;
      [|rewrite loop_skip in * by tauto; now apply IH].
    destruct (ignored name) eqn:Ei;
      [rewrite loop_skip in * by tauto; now apply IH|].
    rewrite loop_visit_eq in * by assumption. cbn [fst snd] in *.
    rewrite found_count_app, progress_no_found, found_count_cons,
      found_count_app, detect_count.
    destruct (fst (detect (p ++ [name]) name child false)) as [found|e].
    + rewrite found_count_app.
      pose proof (descend_no_oserror (p ++ [name]) child) as Hno.
      destruct (fst (scan (p ++ [name]) child false)) as [sub|e] eqn:Es.
      * apply IH in H. rewrite H, !length_app, (Hc _ _ Es). lia.
      * destruct e; try discriminate. congruence.
    + destruct e; try discriminate. inversion H. subst. cbn. lia.
Qed.

Lemma descend_count (d : node) :
  forall q ps, fst (scan q d false) = Ok ps ->
               List.length ps = found_count (snd (scan q d false)).
Proof.
  induction d as [st|t|mtime listable entries IH] using node_nested_ind;
    intros q ps; rewrite scan_descend; cbn [fst snd];
    rewrite found_count_cons; simpl.
  1,2: intros [= <-]; reflexivity.
  destruct listable; [|intros [= <-]; reflexivity].
  intro H. exact (loop_count entries IH q [] ps H).
Qed.

Lemma descend_progress_deeper (d : node) (q : Path) :
  Forall (progress_deeper (List.length q)) (snd (scan q d false)).
Proof.
  pose (V := fun q' : Path => (List.length q <= List.length q')%nat).
  assert (H : holds (progress_deeper (List.length q)) (fun _ => True)
                (scan q d false)).
  { apply descend_holds with (U := V) (V := V); unfold V; simpl; trivial.
    - intros q' name Hq _. rewrite length_app. simpl. lia.
    - intros q' name c Hq _. rewrite length_app. simpl.
      repeat split. lia. }
  exact (proj1 H).
Qed.

Lemma loop_counts (p : Path) (entries : list (string * node)) :
  forall ps0,
    counts_from (S (List.length p)) (List.length ps0)
      (snd (loop p entries ps0)).
Proof.
  induction entries as [|[name child] rest IH]; intro ps0.
  - exact I.
  - destruct (entry_is_dir_nofollow child) eqn:Ed;
      [|rewrite loop_skip by tauto; apply IH].
    destruct (ignored name) eqn:Ei; [rewrite loop_skip by tauto; apply IH|].
    rewrite loop_visit_eq by assumption. cbn [snd].
    assert (Hlen : List.length (p ++ [name]) = S (List.length p))
      by (rewrite length_app; simpl; lia).
    apply counts_from_app.
    { rewrite progress_trace. destruct progress_callback; simpl; tauto. }
    rewrite progress_no_found, Nat.add_0_r. cbn [counts_from].
    apply counts_from_app.
    { apply counts_from_deep. apply detect_trace_found. exact I. }
    rewrite detect_count.
    destruct (fst (detect (p ++ [name]) name child false)) as [found|e];
      [|exact I].
    apply counts_from_app.
    { apply counts_from_deep. rewrite <- Hlen.
      apply descend_progress_deeper. }
    destruct (fst (scan (p ++ [name]) child false)) as [sub|e] eqn:Es;
      [|exact I].
    rewrite <- (descend_count _ _ _ Es), <- !length_app. apply IH.
Qed.

(** In every invocation, a call of the callback for a direct child of the
    scanned directory passes the number of records the invocation has
    appended to its own list so far. *)
Lemma scan_counts (root : Path) (d : node) (check_root : bool) :
  counts_from (S (List.length root)) 0 (snd (scan root d check_root)).
Proof.
  destruct check_root.
  - rewrite top_trace. cbn [counts_from].
    apply counts_from_app.
    + destruct (detect_cases root (basename root) d true)
        as [[_ ->]|[[pr [_ [_ ->]]]|[e [_ [_ ->]]]]]; simpl; trivial;
        rewrite progress_trace; destruct progress_callback; simpl; tauto.
    + rewrite detect_count. simpl.
      destruct (fst (detect root (basename root) d true)) as [found|e];
        [|exact I].
      destruct d as [st|t|mtime [|] entries]; try exact I.
      apply loop_counts.
  - rewrite scan_descend. cbn [snd counts_from].
    destruct d as [st|t|mtime [|] entries]; try exact I.
    apply (loop_counts root entries []).
Qed.

Lemma child_progress_count (root : Path) (d : node) (check_root : bool)
    (t1 t2 : list event) (name : string) (c : nat) :
  snd (scan root d check_root) = t1 ++ EvProgress (root ++ [name]) c :: t2 ->
  c = found_count t1.
Proof.
  intro H. pose proof (scan_counts root d check_root) as Hc.
  rewrite H in Hc.
  apply (counts_from_split _ _ _ _ _ _ Hc).
  rewrite length_app. simpl. lia.
Qed.

Lemma root_progress_count (root : Path) (d : node) (c : nat) :
  In (EvProgress root c) (snd (scan root d true)) -> c = 0%nat.
Proof.
  rewrite top_trace. intros [H|[H|H]]; try discriminate.
  apply in_app_or in H. destruct H as [H|H].
  - destruct (detect_cases root (basename root) d true)
      as [[_ Hd]|[[pr [_ [_ Hd]]]|[e [_ [_ Hd]]]]]; rewrite Hd in H;
      simpl in H; try contradiction;
      rewrite progress_trace in H; destruct progress_callback; simpl in H;
      intuition congruence.
  - destruct (fst (detect root (basename root) d true)) as [found|e];
      [|contradiction].
    destruct d as [st|t|mtime [|] entries]; try contradiction.
    pose proof (loop_paths_below root entries found) as Hb.
    rewrite Forall_forall in Hb. specialize (Hb _ H). simpl in Hb.
    congruence.
Qed.

End ScanFacts.

(** *** The value the callback returns is never read *)

Section Callbacks.

Variable now : Z.
Variable open_repo : Path -> result Repo.
Variable ignore_patterns : list string.
Variables active_threshold dormant_threshold : Z.
Variables prunable_min_size_mb prunable_max_size_mb : Q.
Variables R1 R2 : Type.
Variable f : Path -> nat -> R1.
Variable g : Path -> nat -> R2.

Notation scan1 :=
  (scan_for_projects now open_repo ignore_patterns active_threshold
     dormant_threshold prunable_min_size_mb prunable_max_size_mb R1 (Some f)).
Notation scan2 :=
  (scan_for_projects now open_repo ignore_patterns active_threshold
     dormant_threshold prunable_min_size_mb prunable_max_size_mb R2 (Some g)).
(** Both callbacks reduce the reporting step to the same trace event. *)
Lemma report_progress_same (p : Path) (count : nat) :
  report_progress R1 (Some f) p count = report_progress R2 (Some g) p count.
Proof. reflexivity. Qed.

Lemma scan_same (d : node) (q : Path) (check_root : bool) :
  scan1 q d check_root = scan2 q d check_root.
Proof. reflexivity. Qed.

End Callbacks.

(** C8, as the code has it.  With a callback supplied, the top-level call
    invokes it once for the scan root only when the root is detected as a
    project, with the count 0, and once for every directory below the root
    that the walk tests, in the order of the tests; a call for a direct
    child of the scan root passes the number of records appended so far; and
    the value the callback returns changes neither the result nor the
    trace. *)
Theorem progress_callback_calls :
  forall (now : Z) (open_repo : Path -> result Repo)
         (ignore_patterns : list string)
         (active_threshold dormant_threshold : Z)
         (prunable_min_size_mb prunable_max_size_mb : Q)
         (R : Type) (f : Path -> nat -> R) (root : Path) (d : node),
    let scan :=
      scan_for_projects now open_repo ignore_patterns active_threshold
        dormant_threshold prunable_min_size_mb prunable_max_size_mb in
    let trace := snd (scan R (Some f) root d true) in
    progress_paths trace =
      (if is_project_directory root d then [root] else []) ++
      tl (eval_paths trace) /\
    (forall c, In (EvProgress root c) trace -> c = 0%nat) /\
    (forall t1 name c t2,
       trace = t1 ++ EvProgress (root ++ [name]) c :: t2 ->
       c = found_count t1) /\
    (forall (R' : Type) (g : Path -> nat -> R'),
       scan R' (Some g) root d true = scan R (Some f) root d true).
Proof.
  intros now open_repo ig a_t d_t mn mx R f root d scan trace.
  subst scan trace. split; [|split; [|split]].
  - now apply (top_progress_paths _ _ _ _ _ _ _ _ _ f).
  - intro c. apply root_progress_count.
  - intros t1 name c t2. apply child_progress_count.
  - intros R' g. apply scan_same.
Qed.

(** ** C6 and C7: errors during the walk *)

(** C7 at [vanishing_sibling_tree]: the [OSError] of the unguarded [stat()]
    in [get_last_modified] for child [a] is caught by the handler around the
    whole loop, so the scan returns no record and never tests the sibling
    project [b]; and where the same [stat()] fails for a scan root that is
    a project, the scan itself raises. *)
Theorem scan_error_skips_siblings :
  forall (now : Z) (open_repo : Path -> result Repo)
         (active_threshold dormant_threshold : Z)
         (prunable_min_size_mb prunable_max_size_mb : Q)
         (R : Type) (callback : option (Path -> nat -> R)),
    let scan :=
      scan_for_projects now open_repo [] active_threshold
        dormant_threshold prunable_min_size_mb prunable_max_size_mb R
        callback in
    is_project_directory ["r"; "b"] (readme_dir (Some 7)) = true /\
    fst (scan ["r"] vanishing_sibling_tree true) = Ok [] /\
    ~ In (EvEval ["r"; "b"]) (snd (scan ["r"] vanishing_sibling_tree true)) /\
    fst (scan ["r"] (readme_dir None) true) = Raise OSError.
Proof.
  intros now open_repo a_t d_t mn mx R cb scan. subst scan.
  split; [reflexivity|].
  destruct cb; simpl; repeat split; try reflexivity;
    intuition discriminate.
Qed.

(** C6 at [vanishing_sibling_tree]: [a] and [b] are non-ignored child
    directories of the scan root and both are projects.  The root is tested
    once and [a] is tested, but the [OSError] of its metadata block ends the
    loop of the root: [a] is never recursed into, [b] is neither tested nor
    recursed into, and the result has no entry. *)
Theorem failed_child_ends_walk :
  forall (now : Z) (open_repo : Path -> result Repo)
         (active_threshold dormant_threshold : Z)
         (prunable_min_size_mb prunable_max_size_mb : Q)
         (R : Type) (callback : option (Path -> nat -> R)),
    let scan :=
      scan_for_projects now open_repo [] active_threshold
        dormant_threshold prunable_min_size_mb prunable_max_size_mb R
        callback in
    reaches [] vanishing_sibling_tree ["a"] /\
    reaches [] vanishing_sibling_tree ["b"] /\
    is_project_directory ["r"; "a"] (readme_dir None) = true /\
    is_project_directory ["r"; "b"] (readme_dir (Some 7)) = true /\
    count_occ event_eq_dec (snd (scan ["r"] vanishing_sibling_tree true))
      (EvEval ["r"]) = 1%nat /\
    In (EvEval ["r"; "a"]) (snd (scan ["r"] vanishing_sibling_tree true)) /\
    ~ In (EvEnter ["r"; "a"]) (snd (scan ["r"] vanishing_sibling_tree true)) /\
    ~ In (EvEval ["r"; "b"]) (snd (scan ["r"] vanishing_sibling_tree true)) /\
    ~ In (EvEnter ["r"; "b"]) (snd (scan ["r"] vanishing_sibling_tree true)) /\
    fst (scan ["r"] vanishing_sibling_tree true) = Ok [].
Proof.
  intros now open_repo a_t d_t mn mx R cb scan. subst scan.
  split; [|split].
  - eapply reaches_child;
      [left; reflexivity|reflexivity|reflexivity|constructor].
  - eapply reaches_child;
      [right; left; reflexivity|reflexivity|reflexivity|constructor].
  - split; [reflexivity|]. split; [reflexivity|].
    split; [apply root_evaluated_once|].
    destruct cb; simpl; repeat split; try reflexivity;
      intuition discriminate.
Qed.

(** What the handler is placed for: a child that cannot be listed ends
    only its own walk, and the scan goes on with the next sibling. *)
Lemma unlistable_child_contained :
  map Project.path (match fst (sample_scan ["node_modules"] None ["r"] nested_tree) with
                    | Ok ps => ps
                    | Raise _ => []
                    end)
  = [["r"; "locked"]; ["r"; "parent"]; ["r"; "parent"; "child"]].
Proof. vm_compute. reflexivity. Qed.

(** An unreadable file adds nothing to the size, an unlistable directory
    nothing to the size or to the last modification time. *)
Lemma unreadable_units_contribute_nothing :
  Qeq (get_directory_size partly_unreadable_dir) 1 /\
  get_last_modified partly_unreadable_dir = Ok 5.
Proof. split; reflexivity. Qed.

(** ** Instances on the sample file systems *)

Lemma is_prunable_spec_witness :
  is_prunable STALE false 15 10 1 = true /\
  is_prunable ACTIVE false 15 10 1 = false.
Proof.
  split.
  - exact (proj2 (proj2 (proj2 (is_prunable_spec STALE false 15 10 1))
                     eq_refl eq_refl)
                  (or_introl eq_refl)).
  - apply (proj1 (is_prunable_spec ACTIVE false 15 10 1)). discriminate.
Defined.

(** The ignore test is an exact, case-sensitive comparison of names. *)
Lemma should_ignore_directory_exact (name : string) (patterns : list string) :
  should_ignore_directory name patterns = true <-> In name patterns.
Proof.
  unfold should_ignore_directory. rewrite existsb_exists. split.
  - intros [x [Hin Heq]]. apply String.eqb_eq in Heq. now subst.
  - intro Hin. exists name. split; [exact Hin|apply String.eqb_refl].
Qed.

Example should_ignore_directory_case :
  should_ignore_directory "node_modules" ["node_modules"] = true /\
  should_ignore_directory "Node_Modules" ["node_modules"] = false.
Proof. split; reflexivity. Qed.

Lemma ignored_directory_skipped_witness :
  In "node_modules" ["node_modules"] /\
  ~ In (EvEval ["r"; "node_modules"])
       (snd (sample_scan ["node_modules"] None ["r"] nested_tree)) /\
  ~ In (EvEnter ["r"; "node_modules"; "inner"])
       (snd (sample_scan ["node_modules"] None ["r"] nested_tree)).
Proof.
  assert (Hin : In "node_modules" ["node_modules"]) by (left; reflexivity).
  split; [exact Hin|]. split.
  - exact (proj1 (ignored_directory_skipped (10 * microseconds_per_day)
             invalid_repo ["node_modules"] 30 180 10 1 unit None ["r"]
             nested_tree true [] "node_modules" [] Hin)).
  - exact (proj1 (proj2 (ignored_directory_skipped
             (10 * microseconds_per_day) invalid_repo ["node_modules"]
             30 180 10 1 unit None ["r"] nested_tree true []
             "node_modules" ["inner"] Hin))).
Defined.

Lemma reaches_nested_child :
  reaches ["node_modules"] nested_tree ["parent"; "child"].
Proof.
  unfold nested_tree.
  eapply reaches_child; [right; left; reflexivity|reflexivity|reflexivity|].
  eapply reaches_child;
    [right; left; reflexivity|reflexivity|reflexivity|constructor].
Qed.

(** The project [parent] and the project [child] inside it are two records
    of the result, each with its own path and name. *)
Lemma nested_projects_two_records :
  exists locked parent child,
    fst (sample_scan ["node_modules"] None ["r"] nested_tree)
      = Ok [locked; parent; child] /\
    Project.path parent = ["r"; "parent"] /\
    Project.name parent = "parent" /\
    Project.project_type parent = UNKNOWN /\
    Project.path child = ["r"; "parent"; "child"] /\
    Project.name child = "child" /\
    Project.project_type child = PYTHON.
Proof.
  vm_compute. do 3 eexists. split; [reflexivity|]. repeat split.
Qed.

Lemma vcs_fields_of_records_witness :
  get_git_info invalid_repo ["r"] corrupt_git_dir = Ok (true, None, None) /\
  Forall status_needs_git
    (match fst (sample_scan [] None ["r"] corrupt_git_dir) with
     | Ok ps => ps
     | Raise _ => []
     end).
Proof.
  pose proof (vcs_fields_of_records (10 * microseconds_per_day) invalid_repo
                [] 30 180 10 1 unit None ["r"] corrupt_git_dir true)
    as [H1 [_ [H2 _]]].
  split.
  - apply H2; [reflexivity|]. left. reflexivity.
  - destruct (fst (sample_scan [] None ["r"] corrupt_git_dir)) as [ps|e] eqn:E.
    + apply H1. exact E.
    + constructor.
Defined.

Lemma scan_root_not_filtered_witness :
  exists pr,
    fst (sample_scan ["node_modules"] None ["node_modules"]
           (readme_dir (Some 7))) = Ok [pr] /\
    In "node_modules" ["node_modules"] /\
    Project.path pr = ["node_modules"].
Proof.
  destruct (scan_root_not_filtered (10 * microseconds_per_day) invalid_repo
              ["node_modules"] 30 180 10 1 unit None ["node_modules"]
              (readme_dir (Some 7))
              (match fst (sample_scan ["node_modules"] None ["node_modules"]
                            (readme_dir (Some 7))) with
               | Ok ps => ps
               | Raise _ => []
               end) eq_refl eq_refl)
    as [_ [pr [rest [Heq [Hpath _]]]]].
  exists pr. split; [|split; [left; reflexivity|exact Hpath]].
  vm_compute in Heq. inversion Heq. reflexivity.
Defined.

(** ** C8 on the sample file systems *)

(** At [plain_root_tree] the root is entered but, not being a project, is
    never reported to the callback; and the callback is called for [r/a/b]
    with the count 0 although the record of [r/a] was appended before. *)
Lemma progress_callback_once_per_directory_fails :
  let trace :=
    snd (sample_scan [] (Some (fun _ _ => tt)) ["r"] plain_root_tree) in
  In (EvEnter ["r"]) trace /\
  ~ In ["r"] (progress_paths trace) /\
  exists t1 t2,
    trace = t1 ++ EvProgress ["r"; "a"; "b"] 0 :: t2 /\
    found_count t1 = 1%nat.
Proof.
  vm_compute. split; [tauto|]. split.
  - intuition discriminate.
  - eexists [_; _; _; _; _; _], _. split; reflexivity.
Qed.

Lemma progress_callback_calls_witness :
  progress_paths
    (snd (sample_scan [] (Some (fun _ _ => tt)) ["r"] plain_root_tree))
  = [["r"; "a"]; ["r"; "a"; "b"]] /\
  (forall c,
     In (EvProgress ["r"] c)
        (snd (sample_scan [] (Some (fun _ _ => tt)) ["r"] plain_root_tree)) ->
     c = 0%nat).
Proof.
  pose proof (progress_callback_calls (10 * microseconds_per_day)
                invalid_repo [] 30 180 10 1 unit (fun _ _ => tt) ["r"]
                plain_root_tree) as [H1 [H2 _]].
  split.
  - etransitivity; [exact H1|]. vm_compute. reflexivity.
  - exact H2.
Defined.

(** * Further properties *)

(** ** Type detection and README lookup *)

Lemma marker_hit_literal (d : node) (marker : string) :
  contains_star marker = false -> marker_hit d marker = path_exists d marker.
Proof. unfold marker_hit. intros ->. reflexivity. Qed.

Lemma detect_in_split (table : list (ProjectType * list string)) (d : node)
    (t : ProjectType) :
  NoDup (map fst table) ->
  Forall (fun e => fst e <> UNKNOWN) table ->
  t <> UNKNOWN ->
  (detect_in table d = t <->
   exists before markers after,
     table = before ++ (t, markers) :: after /\
     existsb (marker_hit d) markers = true /\
     Forall (fun e => existsb (marker_hit d) (snd e) = false) before).
Proof.
  intros Hnd Hk Ht. induction table as [|[t0 ms0] rest IH]; simpl.
  - split; [congruence|]. intros [b [ms [a [H _]]]].
    destruct b; discriminate.
  - inversion Hnd as [|? ? Hnotin Hnd']; subst.
    inversion Hk as [|? ? Hk0 Hk']; subst. simpl in Hk0, Hnotin.
    destruct (existsb (marker_hit d) ms0) eqn:E.
    + split.
      * intros <-. exists [], ms0, rest. repeat split; [exact E|constructor].
      * intros [b [ms [a [Heq [Hhit Hb]]]]].
        destruct b as [|[t1 ms1] b]; simpl in Heq; inversion Heq; subst;
          [reflexivity|].
        inversion Hb as [|? ? Hb0 _]; subst. simpl in Hb0. congruence.
    + rewrite (IH Hnd' Hk'). split.
      * intros [b [ms [a [Heq [Hhit Hb]]]]].
        exists ((t0, ms0) :: b), ms, a. subst rest. repeat split; auto.
      * intros [b [ms [a [Heq [Hhit Hb]]]]].
        destruct b as [|[t1 ms1] b]; simpl in Heq; inversion Heq; subst.
        -- congruence.
        -- inversion Hb; subst. exists b, ms, a. repeat split; auto.
Qed.

Lemma existsb_markers_literal (d : node) (markers : list string) :
  Forall (fun m => contains_star m = false) markers ->
  existsb (marker_hit d) markers = existsb (path_exists d) markers.
Proof.
  induction 1 as [|m ms Hm _ IH]; simpl; [reflexivity|].
  now rewrite (marker_hit_literal d m Hm), IH.
Qed.

(** X1.  [detect_project_type] returns a type other than Unknown exactly when
    one of the literal marker names of that type exists in the directory
    and no marker name of a type earlier in [PROJECT_TYPE_MARKERS] does. *)
Theorem detect_project_type_first_match :
  forall (d : node) (t : ProjectType),
    t <> UNKNOWN ->
    (detect_project_type d = t <->
     exists before markers after,
       PROJECT_TYPE_MARKERS = before ++ (t, markers) :: after /\
       (exists m, In m markers /\ path_exists d m = true) /\
       (forall t' ms' m', In (t', ms') before -> In m' ms' ->
                          path_exists d m' = false)).
Proof.
  intros d t Ht. unfold detect_project_type.
  rewrite (detect_in_split PROJECT_TYPE_MARKERS d t); trivial.
  2:{ repeat constructor; simpl; intuition discriminate. }
  2:{ repeat constructor; simpl; discriminate. }
  pose proof PROJECT_TYPE_MARKERS_no_wildcard as Hw.
  split; intros [b [ms [a [Heq [Hhit Hb]]]]]; exists b, ms, a;
    (split; [exact Heq|]); rewrite Heq in Hw;
    apply Forall_app in Hw; destruct Hw as [Hwb Hwa];
    inversion Hwa as [|? ? Hwm _]; subst; simpl in Hwm.
  - split.
    + rewrite (existsb_markers_literal d ms Hwm) in Hhit.
      apply existsb_exists in Hhit. exact Hhit.
    + intros t' ms' m' Hin Hm'.
      rewrite Forall_forall in Hb, Hwb.
      specialize (Hb _ Hin). specialize (Hwb _ Hin). simpl in Hb, Hwb.
      rewrite (existsb_markers_literal d ms' Hwb) in Hb.
      destruct (path_exists d m') eqn:E; [|reflexivity].
      assert (existsb (path_exists d) ms' = true)
        by (apply existsb_exists; exists m'; tauto).
      congruence.
  - split.
    + rewrite (existsb_markers_literal d ms Hwm).
      apply existsb_exists. exact Hhit.
    + apply Forall_forall. intros [t' ms'] Hin. simpl.
      rewrite Forall_forall in Hwb. specialize (Hwb _ Hin). simpl in Hwb.
      rewrite (existsb_markers_literal d ms' Hwb).
      destruct (existsb (path_exists d) ms') eqn:E; [|reflexivity].
      apply existsb_exists in E. destruct E as [m' [Hm' Hex]].
      rewrite (Hb t' ms' m' Hin Hm') in Hex. discriminate.
Qed.

(** A directory with [Gemfile] and [package.json] is a Node.js project. *)
Lemma detect_project_type_first_match_witness :
  detect_project_type
    (Dir None true [("Gemfile", File None); ("package.json", File None)])
  = NODEJS.
Proof.
  apply (detect_project_type_first_match
           (Dir None true [("Gemfile", File None); ("package.json", File None)])
           NODEJS); [discriminate|].
  exists [(PYTHON, ["pyproject.toml"; "setup.py"; "requirements.txt"])],
    ["package.json"], (skipn 2 PROJECT_TYPE_MARKERS).
  split; [reflexivity|]. split.
  - exists "package.json". split; [left|]; reflexivity.
  - intros t' ms' m' [Heq|[]] Hin. inversion Heq; subst.
    destruct Hin as [<-|[<-|[<-|[]]]]; reflexivity.
Defined.

Lemma path_is_file_exists (d : node) (name : string) :
  path_is_file d name = true -> path_exists d name = true.
Proof.
  unfold path_is_file, path_exists.
  destruct (lookup name (entries_of d)) as [[st|[]|]|]; congruence.
Qed.

Lemma find_readme_in_split (names : list string) (p : Path) (d : node)
    (r : Path) :
  find_readme_in names p d = Some r <->
  exists before n after,
    names = before ++ n :: after /\ r = p ++ [n] /\
    path_is_file d n = true /\
    Forall (fun m => path_is_file d m = false) before.
Proof.
  induction names as [|n0 names IH]; simpl.
  - split; [discriminate|]. intros [b [n [a [H _]]]]. destruct b; discriminate.
  - destruct (path_is_file d n0) eqn:Ef.
    + rewrite (path_is_file_exists d n0 Ef). simpl. split.
      * intros [= <-]. exists [], n0, names. repeat split; auto.
      * intros [b [n [a [Heq [-> [Hf Hb]]]]]].
        destruct b as [|m b]; simpl in Heq; inversion Heq; subst;
          [reflexivity|].
        inversion Hb; subst. congruence.
    + rewrite andb_false_r, IH. split.
      * intros [b [n [a [-> [-> [Hf Hb]]]]]].
        exists (n0 :: b), n, a. repeat split; auto.
      * intros [b [n [a [Heq [-> [Hf Hb]]]]]].
        destruct b as [|m b]; simpl in Heq; inversion Heq; subst.
        -- congruence.
        -- inversion Hb; subst. exists b, n, a. repeat split; auto.
Qed.

(** X2.  [find_readme] returns the path of the first name of [README_NAMES]
    that is a regular file of the directory (possibly through a link), so
    [README.md] wins over every other spelling; a directory or a dangling
    link under a README name is passed over. *)
Theorem find_readme_first_file :
  forall (p : Path) (d : node) (r : Path),
    find_readme p d = Some r <->
    exists before n after,
      README_NAMES = before ++ n :: after /\ r = p ++ [n] /\
      path_is_file d n = true /\
      Forall (fun m => path_is_file d m = false) before.
Proof. intros p d r. apply find_readme_in_split. Qed.

Lemma find_readme_none_iff (p : Path) (d : node) :
  find_readme p d = None <->
  Forall (fun m => path_is_file d m = false) README_NAMES.
Proof.
  unfold find_readme. induction README_NAMES as [|n names IH]; simpl.
  - split; [constructor|reflexivity].
  - destruct (path_is_file d n) eqn:Ef.
    + rewrite (path_is_file_exists d n Ef). simpl. split; [discriminate|].
      intro H. inversion H; subst. congruence.
    + rewrite andb_false_r, IH. split.
      * intro H. constructor; assumption.
      * intro H. inversion H; subst. assumption.
Qed.

(** ** Directory size *)

Lemma file_sizes_shift (files : list node) (a : Z) :
  fold_left file_size_or_skip files a =
  a + fold_left file_size_or_skip files 0.
Proof.
  revert a. induction files as [|f files IH]; intro a; simpl; [lia|].
  rewrite IH, (IH (file_size_or_skip 0 f)).
  unfold file_size_or_skip. destruct (stat_size_mtime f); lia.
Qed.

Lemma walk_sizes_shift (w : list (option Z * list node)) (a : Z) :
  fold_left (fun total dir => fold_left file_size_or_skip (snd dir) total) w a =
  a + fold_left (fun total dir => fold_left file_size_or_skip (snd dir) total)
        w 0.
Proof.
  revert a. induction w as [|dir w IH]; intro a; simpl; [lia|].
  rewrite IH, (IH (fold_left file_size_or_skip (snd dir) 0)).
  rewrite (file_sizes_shift (snd dir) a). lia.
Qed.

Lemma directory_bytes_not_walked (c : node) :
  os_walk c = [] -> directory_bytes c = 0.
Proof. unfold directory_bytes. intros ->. reflexivity. Qed.

Lemma directory_bytes_entries (mtime : option Z)
    (entries : list (string * node)) :
  directory_bytes (Dir mtime true entries) =
  fold_right (fun e acc => entry_bytes (snd e) + acc) 0 entries.
Proof.
  unfold directory_bytes. cbn [os_walk fold_left snd].
  rewrite walk_sizes_shift.
  induction entries as [|[name c] rest IH]; [reflexivity|].
  cbn [map filter flat_map fold_right snd].
  rewrite fold_left_app, walk_sizes_shift. fold (directory_bytes c).
  rewrite <- IH.
  destruct c as [st|[|st|]|m l es]; cbn [entry_is_dir negb entry_bytes];
    cbn [fold_left]; rewrite ?(file_sizes_shift _ (file_size_or_skip 0 _)).
  - rewrite (directory_bytes_not_walked (File st) eq_refl). lia.
  - rewrite (directory_bytes_not_walked (Link Broken) eq_refl). lia.
  - rewrite (directory_bytes_not_walked (Link (ToFile st)) eq_refl). lia.
  - rewrite (directory_bytes_not_walked (Link ToDir) eq_refl). cbn. lia.
  - lia.
Qed.

Lemma get_directory_size_bytes (d : node) :
  get_directory_size d =
  (inject_Z (directory_bytes d) / inject_Z (1024 * 1024))%Q.
Proof. reflexivity. Qed.

Lemma entry_size_mb_bytes (c : node) :
  entry_size_mb c = (inject_Z (entry_bytes c) / inject_Z (1024 * 1024))%Q.
Proof. destruct c; reflexivity. Qed.

Lemma directory_bytes_nonneg (d : node) :
  sizes_nonneg d = true -> 0 <= directory_bytes d.
Proof.
  induction d as [st|t|mtime listable entries IH] using node_nested_ind;
    intro H; try (cbn; lia).
  destruct listable; [|cbn; lia].
  rewrite directory_bytes_entries. simpl in H.
  induction entries as [|[name c] rest IHrest]; [cbn; lia|].
  simpl in H. apply andb_true_iff in H. destruct H as [Hc Hrest].
  inversion IH as [|? ? IHc IHtl]; subst. simpl in IHc.
  cbn [fold_right snd]. specialize (IHrest IHtl Hrest).
  assert (0 <= entry_bytes c); [|lia].
  destruct c as [[st|]|[|[st|]|]|m l es]; cbn; try lia.
  - simpl in Hc. apply Z.leb_le in Hc. exact Hc.
  - simpl in Hc. apply Z.leb_le in Hc. exact Hc.
  - apply IHc. exact Hc.
Qed.

Lemma entry_bytes_nonneg (c : node) :
  sizes_nonneg c = true -> 0 <= entry_bytes c.
Proof.
  intro H. destruct c as [[st|]|[|[st|]|]|mtime listable entries];
    try (unfold entry_bytes, file_size_or_skip; simpl; lia).
  - simpl in H. apply Z.leb_le in H.
    unfold entry_bytes, file_size_or_skip. simpl. lia.
  - simpl in H. apply Z.leb_le in H.
    unfold entry_bytes, file_size_or_skip. simpl. lia.
  - now apply directory_bytes_nonneg.
Qed.

Lemma entry_bytes_le_total (entries : list (string * node)) :
  forallb (fun e => sizes_nonneg (snd e)) entries = true ->
  Forall (fun e =>
            0 <= entry_bytes (snd e) <=
            fold_right (fun e acc => entry_bytes (snd e) + acc) 0 entries)
         entries.
Proof.
  induction entries as [|e rest IH]; intro H; [constructor|].
  simpl in H. apply andb_true_iff in H. destruct H as [He Hr].
  pose proof (entry_bytes_nonneg _ He) as H0.
  specialize (IH Hr).
  assert (Hsum : 0 <= fold_right (fun e acc => entry_bytes (snd e) + acc)
                        0 rest).
  { clear - Hr. induction rest as [|e' rest IH]; simpl; [lia|].
    simpl in Hr. apply andb_true_iff in Hr. destruct Hr as [He Hr].
    pose proof (entry_bytes_nonneg _ He). specialize (IH Hr). lia. }
  constructor; simpl; [lia|].
  eapply Forall_impl; [|exact IH]. simpl. intros x Hx. lia.
Qed.



(** X4.  When no [st_size] is negative, neither is the size of a directory. *)
Theorem get_directory_size_nonneg :
  forall d : node, sizes_nonneg d = true -> (0 <= get_directory_size d)%Q.
Proof.
  intros d H. rewrite get_directory_size_bytes.
  pose proof (directory_bytes_nonneg d H) as Hb.
  unfold Qdiv. apply Qmult_le_0_compat.
  - rewrite <- (Zle_Qle 0). exact Hb.
  - vm_compute. discriminate.
Qed.

Lemma get_directory_size_nonneg_witness :
  sizes_nonneg partly_unreadable_dir = true /\
  (0 <= get_directory_size partly_unreadable_dir)%Q.
Proof.
  split; [reflexivity|].
  apply (get_directory_size_nonneg partly_unreadable_dir). reflexivity.
Defined.

(** ** Last modification time *)

Lemma files_latest_ge (files : list node) (a : Z) :
  a <= fold_left file_mtime_or_skip files a.
Proof.
  revert a. induction files as [|f files IH]; intro a; simpl; [lia|].
  specialize (IH (file_mtime_or_skip a f)).
  unfold file_mtime_or_skip in *. destruct (stat_size_mtime f); lia.
Qed.

Lemma files_latest_bound (files : list node) (f : node) (st : fstat) :
  In f files -> stat_size_mtime f = Some st ->
  forall a, st_mtime st <= fold_left file_mtime_or_skip files a.
Proof.
  induction files as [|g files IH]; intros Hin Hst a; [contradiction|].
  simpl. destruct Hin as [->|Hin].
  - pose proof (files_latest_ge files (file_mtime_or_skip a f)) as H.
    assert (st_mtime st <= file_mtime_or_skip a f)
      by (unfold file_mtime_or_skip; rewrite Hst; lia).
    lia.
  - now apply IH.
Qed.

Lemma files_latest_attained (files : list node) :
  forall a,
    fold_left file_mtime_or_skip files a = a \/
    exists f st, In f files /\ stat_size_mtime f = Some st /\
                 fold_left file_mtime_or_skip files a = st_mtime st.
Proof.
  induction files as [|g files IH]; intro a; simpl; [tauto|].
  destruct (IH (file_mtime_or_skip a g)) as [H|[f [st [Hin [Hst H]]]]].
  - rewrite H. unfold file_mtime_or_skip.
    destruct (stat_size_mtime g) as [st|] eqn:Eg; [|tauto].
    destruct (Z.max_spec a (st_mtime st)) as [[_ ->]|[_ ->]]; [|tauto].
    right. exists g, st. tauto.
  - right. exists f, st. tauto.
Qed.

Lemma walk_latest_ge (w : list (option Z * list node)) (a : Z) :
  a <= fold_left dir_mtime_or_skip w a.
Proof.
  revert a. induction w as [|dir w IH]; intro a; simpl; [lia|].
  specialize (IH (dir_mtime_or_skip a dir)).
  unfold dir_mtime_or_skip in *. destruct (fst dir) as [mt|]; [|exact IH].
  pose proof (files_latest_ge (snd dir) (Z.max a mt)). lia.
Qed.

Lemma walk_latest_bound (w : list (option Z * list node)) (mt : Z)
    (files : list node) :
  In (Some mt, files) w ->
  forall a,
    mt <= fold_left dir_mtime_or_skip w a /\
    forall f st, In f files -> stat_size_mtime f = Some st ->
                 st_mtime st <= fold_left dir_mtime_or_skip w a.
Proof.
  induction w as [|dir w IH]; intros Hin a; [contradiction|].
  simpl. destruct Hin as [->|Hin]; [|now apply IH].
  pose proof (walk_latest_ge w (dir_mtime_or_skip a (Some mt, files))) as H.
  assert (Hstep : dir_mtime_or_skip a (Some mt, files) =
                  fold_left file_mtime_or_skip files (Z.max a mt))
    by reflexivity.
  pose proof (files_latest_ge files (Z.max a mt)) as H1.
  split; [lia|]. intros f st Hf Hst.
  pose proof (files_latest_bound files f st Hf Hst (Z.max a mt)). lia.
Qed.

Lemma walk_latest_attained (w : list (option Z * list node)) :
  forall a,
    fold_left dir_mtime_or_skip w a = a \/
    exists mt files,
      In (Some mt, files) w /\
      (fold_left dir_mtime_or_skip w a = mt \/
       exists f st, In f files /\ stat_size_mtime f = Some st /\
                    fold_left dir_mtime_or_skip w a = st_mtime st).
Proof.
  induction w as [|[[mt|] files] w IH]; intro a; simpl; [tauto| |].
  - destruct (IH (dir_mtime_or_skip a (Some mt, files)))
      as [H|[mt' [files' [Hin H]]]].
    + rewrite H. unfold dir_mtime_or_skip. cbn [fst snd].
      destruct (files_latest_attained files (Z.max a mt))
        as [Hf|[f [st [Hinf [Hst Hf]]]]]; rewrite Hf.
      * destruct (Z.max_spec a mt) as [[_ ->]|[_ ->]]; [|tauto].
        right. exists mt, files. tauto.
      * right. exists mt, files. split; [tauto|]. right. exists f, st. tauto.
    + right. exists mt', files'. tauto.
  - destruct (IH (dir_mtime_or_skip a (None, files)))
      as [H|[mt' [files' [Hin H]]]].
    + left. rewrite H. reflexivity.
    + right. exists mt', files'. tauto.
Qed.

Lemma in_walked_files (entries : list (string * node)) (c : node) :
  In c (filter (fun c => negb (entry_is_dir c)) (map snd entries)) <->
  exists name, In (name, c) entries /\ entry_is_dir c = false.
Proof.
  rewrite filter_In, in_map_iff, negb_true_iff. split.
  - intros [[[name c'] [Heq Hin]] Hd]. simpl in Heq. subst. exists name. tauto.
  - intros [name [Hin Hd]]. split; [|exact Hd]. exists (name, c). tauto.
Qed.

Lemma os_walk_walks (d : node) (mt : option Z) (files : list node) :
  In (mt, files) (os_walk d) ->
  exists entries,
    walks_into d (Dir mt true entries) /\
    files = filter (fun c => negb (entry_is_dir c)) (map snd entries).
Proof.
  induction d as [st|t|mtime listable entries IH] using node_nested_ind;
    try contradiction.
  destruct listable; [|contradiction].
  cbn [os_walk]. intros [Heq|Hin].
  - inversion Heq; subst. exists entries. split; [constructor|reflexivity].
  - apply in_flat_map in Hin. destruct Hin as [[name c] [Hc Hin]].
    rewrite Forall_forall in IH. destruct (IH _ Hc Hin) as [es [Hw Hf]].
    exists es. split; [|exact Hf]. eapply walks_down; eauto.
Qed.

Lemma walks_os_walk (d d' : node) :
  walks_into d d' ->
  exists mt entries,
    d' = Dir mt true entries /\
    In (mt, filter (fun c => negb (entry_is_dir c)) (map snd entries))
       (os_walk d).
Proof.
  induction 1 as [mtime entries|mtime entries name c d' Hin _ IH].
  - exists mtime, entries. split; [reflexivity|]. left. reflexivity.
  - destruct IH as [mt [es [-> Hw]]]. exists mt, es.
    split; [reflexivity|]. cbn [os_walk]. right.
    apply in_flat_map. exists (name, c). tauto.
Qed.

Lemma walks_into_convertible (d d' : node) :
  walks_into d d' -> mtimes_convertible d = true ->
  mtimes_convertible d' = true.
Proof.
  induction 1 as [mtime entries|mtime entries name c d' Hin _ IH];
    intro H; [exact H|].
  apply IH. simpl in H. apply andb_true_iff in H. destruct H as [_ H].
  rewrite forallb_forall in H. exact (H (name, c) Hin).
Qed.

Lemma counted_mtime_convertible (d : node) (m : Z) :
  mtimes_convertible d = true -> counted_mtime d m ->
  fromtimestamp_ok m = true.
Proof.
  intros Hd [mtime [entries [Hw Hm]]].
  pose proof (walks_into_convertible _ _ Hw Hd) as H. simpl in H.
  apply andb_true_iff in H. destruct H as [Hown Hall].
  destruct Hm as [->|[name [c [st [Hin [_ [Hst ->]]]]]]]; [exact Hown|].
  rewrite forallb_forall in Hall. specialize (Hall (name, c) Hin).
  simpl in Hall.
  destruct c as [[st'|]|[|[st'|]|]|mt l es]; simpl in Hst; try discriminate;
    injection Hst as ->; exact Hall.
Qed.

Lemma stat_dir_mtime_convertible (d : node) (own : Z) :
  mtimes_convertible d = true -> stat_dir_mtime d = Some own ->
  fromtimestamp_ok own = true.
Proof.
  intros Hd Hs.
  destruct d as [[st|]|[|[st|]|]|[mt|] l es]; simpl in Hs; try discriminate;
    injection Hs as <-; simpl in Hd; try exact Hd.
  apply andb_true_iff in Hd. tauto.
Qed.



(** ** Version-control inspection *)

Lemma find_split {A : Type} (f : A -> bool) (l : list A) (x : A) :
  find f l = Some x ->
  exists before after,
    l = before ++ x :: after /\ f x = true /\
    Forall (fun y => f y = false) before.
Proof.
  induction l as [|y l IH]; simpl; [discriminate|].
  destruct (f y) eqn:E.
  - intros [= ->]. exists [], l. repeat split; auto.
  - intro H. destruct (IH H) as [b [a [-> [Hx Hb]]]].
    exists (y :: b), a. repeat split; auto.
Qed.

Lemma existsb_false_forall {A : Type} (f : A -> bool) (l : list A) :
  existsb f l = false -> Forall (fun y => f y = false) l.
Proof.
  induction l as [|y l IH]; simpl; [constructor|].
  intro H. apply orb_false_iff in H. destruct H. constructor; auto.
Qed.

Lemma first_url_some (r : Remote) (u : string) :
  first_url r = Ok (Some u) -> exists rest, remote_urls r = Ok (u :: rest).
Proof.
  unfold first_url, rbind. destruct (remote_urls r) as [[|u' rest]|e];
    simpl; try discriminate.
  intros [= ->]. now exists rest.
Qed.

Lemma select_remote_url_origin (repo : Repo) (u : string) :
  select_remote_url repo = Ok (Some u) ->
  exists rem rest before after,
    remote_urls rem = Ok (u :: rest) /\
    remotes repo = before ++ rem :: after /\
    Forall (fun r => remote_name r <> "origin") before /\
    (remote_name rem = "origin" \/
     (before = [] /\
      Forall (fun r => remote_name r <> "origin") (remotes repo))).
Proof.
  unfold select_remote_url.
  destruct (remotes repo) as [|first others] eqn:Er; [discriminate|].
  destruct (existsb _ (first :: others)) eqn:Ex.
  - destruct (find _ (first :: others)) as [origin|] eqn:Ef; [|discriminate].
    intro H. apply first_url_some in H. destruct H as [rest Hu].
    destruct (find_split _ _ _ Ef) as [b [a [Heq [Ho Hb]]]].
    exists origin, rest, b, a. split; [exact Hu|]. split; [exact Heq|].
    split.
    + eapply Forall_impl; [|exact Hb]. simpl. intros r Hr Hn.
      rewrite Hn in Hr. discriminate.
    + left. apply String.eqb_eq in Ho. now symmetry.
  - intro H. apply first_url_some in H. destruct H as [rest Hu].
    exists first, rest, [], others. split; [exact Hu|]. split; [reflexivity|].
    split; [constructor|]. right. split; [reflexivity|].
    apply existsb_false_forall in Ex.
    eapply Forall_impl; [|exact Ex]. simpl. intros r Hr Hn.
    rewrite Hn in Hr. discriminate.
Qed.

Lemma get_git_info_opened (open_repo : Path -> result Repo) (p : Path)
    (d : node) (repo : Repo) (r : option string) (st : option GitStatus) :
  open_repo p = Ok repo ->
  get_git_info open_repo p d = Ok (true, r, st) -> r <> None ->
  select_remote_url repo = Ok r.
Proof.
  unfold get_git_info. intros Ho.
  destruct (negb (path_exists d ".git")); [discriminate|].
  rewrite Ho. unfold rbind.
  destruct (select_remote_url repo) as [r'|e].
  - destruct (determine_git_status repo r') as [s'|e'].
    + intros [= <- <-]. reflexivity.
    + destruct e'; try discriminate; intros [= <- <-]; congruence.
  - destruct e; try discriminate; intros [= <- <-]; congruence.
Qed.

(** X6.  The remote [get_git_info] reports is the first URL of the remote named
    [origin] when some remote has that name, wherever it stands in the
    list, and the first URL of the first remote otherwise. *)
Theorem get_git_info_prefers_origin :
  forall (open_repo : Path -> result Repo) (p : Path) (d : node)
         (repo : Repo) (u : string) (st : option GitStatus),
    open_repo p = Ok repo ->
    get_git_info open_repo p d = Ok (true, Some u, st) ->
    exists rem rest before after,
      remote_urls rem = Ok (u :: rest) /\
      remotes repo = before ++ rem :: after /\
      Forall (fun r => remote_name r <> "origin") before /\
      (remote_name rem = "origin" \/
       (before = [] /\
        Forall (fun r => remote_name r <> "origin") (remotes repo))).
Proof.
  intros open_repo p d repo u st Ho Hg.
  apply select_remote_url_origin.
  apply (get_git_info_opened open_repo p d repo (Some u) st Ho Hg).
  discriminate.
Qed.

Lemma unpushed_status_swallows (repo : Repo) :
  upstream_check_fails repo -> unpushed_status repo = Ok CLEAN.
Proof.
  unfold unpushed_status, upstream_check_fails, upstream_error, rbind.
  intros [[e [He ->]]|[-> [[e [He ->]]|[b [e [-> [He ->]]]]]]];
    destruct He as [->| ->]; reflexivity.
Qed.

(** X7.  How errors inside [get_git_info] end.  With a remote resolved and a
    clean working tree, a [GitCommandError] or [ValueError] of the upstream
    comparison is reported as status Clean, the remote kept.  A dirty tree
    is reported as Dirty without the upstream being looked at.  A
    [GitCommandError] of the dirtiness test is caught by the outer handler,
    which reports (true, None, None) and so drops the remote that was
    already resolved. *)
Theorem get_git_info_error_paths :
  forall (open_repo : Path -> result Repo) (p : Path) (d : node)
         (repo : Repo) (u : string),
    path_exists d ".git" = true ->
    open_repo p = Ok repo ->
    select_remote_url repo = Ok (Some u) ->
    (is_dirty repo = Ok false -> upstream_check_fails repo ->
     get_git_info open_repo p d = Ok (true, Some u, Some CLEAN)) /\
    (is_dirty repo = Ok true ->
     get_git_info open_repo p d = Ok (true, Some u, Some DIRTY)) /\
    (is_dirty repo = Raise GitCommandError ->
     get_git_info open_repo p d = Ok (true, None, None)).
Proof.
  intros open_repo p d repo u Hgit Ho Hs. unfold get_git_info.
  rewrite Hgit, Ho. cbn [negb rbind]. rewrite Hs. cbn [rbind].
  unfold determine_git_status. repeat split.
  - intros -> Hf. cbn [rbind]. rewrite (unpushed_status_swallows repo Hf).
    reflexivity.
  - intros ->. reflexivity.
  - intros ->. reflexivity.
Qed.

(** ** Further properties of a scan *)

Section ScanFurther.

Variable now : Z.
Variable open_repo : Path -> result Repo.
Variable ignore_patterns : list string.
Variables active_threshold dormant_threshold : Z.
Variables prunable_min_size_mb prunable_max_size_mb : Q.
Variable R : Type.
Variable progress_callback : option (Path -> nat -> R).

Notation scan :=
  (scan_for_projects now open_repo ignore_patterns active_threshold
     dormant_threshold prunable_min_size_mb prunable_max_size_mb R
     progress_callback).
Notation descend := (fun p c => scan p c false).
Notation loop :=
  (scan_entries now open_repo ignore_patterns active_threshold
     dormant_threshold prunable_min_size_mb prunable_max_size_mb R
     progress_callback descend).
Notation record :=
  (project_record now open_repo active_threshold dormant_threshold
     prunable_min_size_mb prunable_max_size_mb).
Notation detect :=
  (detect_and_record now open_repo active_threshold dormant_threshold
     prunable_min_size_mb prunable_max_size_mb R progress_callback).
Notation progress := (report_progress R progress_callback).
Notation ignored := (fun name => should_ignore_directory name ignore_patterns).
Notation kids_ok :=
  (children_ok now open_repo ignore_patterns active_threshold
     dormant_threshold prunable_min_size_mb prunable_max_size_mb).
Notation rec_ok :=
  (record_ok now open_repo active_threshold dormant_threshold
     prunable_min_size_mb prunable_max_size_mb).

(** The lemmas on the structure of a scan, at the parameters of this
    section. *)
Notation detect_cases' :=
  (detect_cases now open_repo ignore_patterns active_threshold
     dormant_threshold prunable_min_size_mb prunable_max_size_mb R
     progress_callback).
Notation detect_ok' :=
  (detect_ok now open_repo ignore_patterns active_threshold
     dormant_threshold prunable_min_size_mb prunable_max_size_mb R
     progress_callback).
Notation scan_records' :=
  (scan_records now open_repo ignore_patterns active_threshold
     dormant_threshold prunable_min_size_mb prunable_max_size_mb R
     progress_callback).
Notation loop_no_oserror' :=
  (loop_no_oserror now open_repo ignore_patterns active_threshold
     dormant_threshold prunable_min_size_mb prunable_max_size_mb R
     progress_callback).
Notation descend_no_oserror' :=
  (descend_no_oserror now open_repo ignore_patterns active_threshold
     dormant_threshold prunable_min_size_mb prunable_max_size_mb R
     progress_callback).
Notation loop_prefix' :=
  (loop_prefix now open_repo ignore_patterns active_threshold
     dormant_threshold prunable_min_size_mb prunable_max_size_mb R
     progress_callback).
Notation top_result' :=
  (top_result now open_repo ignore_patterns active_threshold
     dormant_threshold prunable_min_size_mb prunable_max_size_mb R
     progress_callback).

(** *** Fields of the records of a scan *)

Lemma record_fields (p : Path) (name : string) (d : node) (pr : Project.t) :
  record p name d = Ok pr ->
  exists g r s lm,
    get_git_info open_repo p d = Ok (g, r, s) /\
    get_last_modified d = Ok lm /\
    pr = Project.mk p name g r s (find_readme p d) (detect_project_type d)
           lm (get_directory_size d)
           (classify_project now lm (is_some r) (is_some (find_readme p d))
              active_threshold dormant_threshold)
           (is_prunable
              (classify_project now lm (is_some r)
                 (is_some (find_readme p d)) active_threshold
                 dormant_threshold)
              (is_some r) (get_directory_size d) prunable_min_size_mb
              prunable_max_size_mb).
Proof.
  unfold project_record, rbind.
  destruct (get_git_info open_repo p d) as [[[g r] s]|e]; [|discriminate].
  destruct (get_last_modified d) as [lm|e]; [|discriminate].
  intros [= <-]. exists g, r, s, lm. repeat split.
Qed.

Lemma find_readme_shape (p : Path) (d : node) (r : Path) :
  find_readme p d = Some r -> exists n, In n README_NAMES /\ r = p ++ [n].
Proof.
  intro H. apply find_readme_in_split in H.
  destruct H as [b [n [a [Heq [-> _]]]]]. exists n. split; [|reflexivity].
  rewrite Heq. apply in_or_app. right. left. reflexivity.
Qed.

Lemma record_derived (p : Path) (name : string) (d : node) (pr : Project.t) :
  record p name d = Ok pr -> name = basename p ->
  derived_fields now active_threshold dormant_threshold prunable_min_size_mb
    prunable_max_size_mb pr.
Proof.
  intros Hr Hn. destruct (record_fields _ _ _ _ Hr) as [g [r [s [lm [_ [_ ->]]]]]].
  unfold derived_fields. cbn. repeat split; [exact Hn|].
  apply find_readme_shape.
Qed.

Lemma basename_child (q : Path) (name : string) : basename (q ++ [name]) = name.
Proof. unfold basename. apply last_last. Qed.

Lemma scan_derived (root : Path) (d : node) (check_root : bool) :
  holds (fun _ => True)
        (derived_fields now active_threshold dormant_threshold
           prunable_min_size_mb prunable_max_size_mb)
        (scan root d check_root).
Proof.
  assert (Hrec : forall q name d' pr, True -> ignored name = false ->
             record (q ++ [name]) name d' = Ok pr ->
             derived_fields now active_threshold dormant_threshold
               prunable_min_size_mb prunable_max_size_mb pr).
  { intros q name d' pr _ _ Hr. apply (record_derived _ _ _ _ Hr).
    symmetry. apply basename_child. }
  destruct check_root.
  - apply top_holds with (U := fun _ => True) (V := fun _ => True); auto.
    intros pr Hr. now apply (record_derived _ _ _ _ Hr).
  - apply descend_holds with (U := fun _ => True) (V := fun _ => True); auto.
Qed.

(** X8.  In every record of a scan, the name is the last component of the path,
    the classification and the prunable flag are the values of
    [classify_project] and [is_prunable] on the record's own fields, and a
    README path is the record's path followed by one of the README names; so
    a prunable record is Stale and has no remote. *)
Theorem scan_records_derived_fields :
  forall (root : Path) (d : node) (check_root : bool)
         (ps : list Project.t) (pr : Project.t),
    fst (scan root d check_root) = Ok ps -> In pr ps ->
    derived_fields now active_threshold dormant_threshold prunable_min_size_mb
      prunable_max_size_mb pr /\
    (Project.is_prunable pr = true ->
     Project.classification pr = STALE /\ Project.git_remote pr = None).
Proof.
  intros root d check_root ps pr Hps Hin.
  destruct (scan_derived root d check_root) as [_ H].
  specialize (H ps Hps). rewrite Forall_forall in H. specialize (H pr Hin).
  split; [exact H|]. destruct H as [_ [_ [Hp _]]]. rewrite Hp.
  unfold is_prunable.
  destruct (Project.classification pr); simpl; try discriminate.
  destruct (Project.git_remote pr); simpl; [discriminate|]. tauto.
Qed.

Lemma get_git_info_shape (p : Path) (d : node) (g : bool)
    (r : option string) (s : option GitStatus) :
  get_git_info open_repo p d = Ok (g, r, s) -> vcs_shape g r s.
Proof.
  unfold get_git_info. destruct (negb (path_exists d ".git")).
  - intros [= <- <- <-]. reflexivity.
  - unfold rbind. destruct (open_repo p) as [repo|e].
    + destruct (select_remote_url repo) as [[u|]|e].
      * destruct (determine_git_status repo (Some u)) as [st|e].
        -- intros [= <- <- <-].
           destruct st; simpl;
             first [reflexivity | split; [reflexivity|discriminate]].
        -- destruct e; try discriminate; intros [= <- <- <-]; reflexivity.
      * simpl. intros [= <- <- <-]. reflexivity.
      * destruct e; try discriminate; intros [= <- <- <-]; reflexivity.
    + destruct e; try discriminate; intros [= <- <- <-]; reflexivity.
Qed.

(** X9.  In every record of a scan, a status of Clean, Dirty or Unpushed comes
    with [has_git] and a remote, the status NoRemote comes with [has_git],
    and a record without status has no remote. *)
Theorem scan_records_vcs_shape :
  forall (root : Path) (d : node) (check_root : bool)
         (ps : list Project.t) (pr : Project.t),
    fst (scan root d check_root) = Ok ps -> In pr ps ->
    vcs_shape (Project.has_git pr) (Project.git_remote pr)
      (Project.git_status pr).
Proof.
  intros root d check_root ps pr Hps Hin.
  destruct (scan_records' root d check_root) as [_ H].
  specialize (H ps Hps). rewrite Forall_forall in H.
  destruct (H pr Hin) as [name [dir Hr]].
  apply record_git_fields in Hr. exact (get_git_info_shape _ _ _ _ _ Hr).
Qed.

(** *** Where an OSError can leave a scan *)

Lemma top_fst (root : Path) (d : node) :
  fst (scan root d true) =
  match fst (detect root (basename root) d true) with
  | Ok found =>
      fst (match d with
           | Dir _ true entries => loop root entries found
           | _ => ret found
           end)
  | Raise e => Raise e
  end.
Proof.
  rewrite scan_unfold, bind_emit. cbn [fst]. unfold bind at 1.
  rewrite bind_emit. cbn [fst].
  destruct (fst (detect root (basename root) d true)); reflexivity.
Qed.

(** X10.  An [OSError] leaves [scan_for_projects] only from the block that a
    top-level call runs for the scan root itself before the loop (the test
    of the root, its callback call and its metadata block): a recursive call
    never raises one, and a top-level call raises one exactly when that
    block does.  Whatever raises one inside the loop is caught there. *)
Theorem scan_oserror_only_from_root :
  forall (root : Path) (d : node),
    fst (scan root d false) <> Raise OSError /\
    (fst (scan root d true) = Raise OSError <->
     fst (detect root (basename root) d true) = Raise OSError).
Proof.
  intros root d. split; [apply descend_no_oserror'|].
  rewrite top_fst.
  destruct (fst (detect root (basename root) d true)) as [found|e];
    [|tauto].
  split; [|discriminate].
  destruct d as [st|t|mtime [|] entries]; try discriminate.
  intro H. exfalso. exact (loop_no_oserror' _ _ _ H).
Qed.

(** *** The records are the project directories the walk reaches *)

Lemma path_child_app (p : Path) (name : string) (rel : Path) :
  (p ++ [name]) ++ rel = p ++ name :: rel.
Proof. now rewrite <- app_assoc. Qed.

Lemma loop_sound (entries : list (string * node)) :
  Forall (fun e => forall q ps pr,
            fst (scan q (snd e) false) = Ok ps -> In pr ps ->
            exists rel dir,
              rel <> [] /\ dir_at ignore_patterns (snd e) rel dir /\
              Project.path pr = q ++ rel /\
              is_project_directory (q ++ rel) dir = true /\
              record (q ++ rel) (basename (q ++ rel)) dir = Ok pr)
         entries ->
  forall p ps0 ps pr,
    fst (loop p entries ps0) = Ok ps -> In pr ps ->
    In pr ps0 \/
    exists name child rel dir,
      In (name, child) entries /\
      entry_is_dir_nofollow child = true /\ ignored name = false /\
      dir_at ignore_patterns child rel dir /\
      Project.path pr = p ++ name :: rel /\
      is_project_directory (p ++ name :: rel) dir = true /\
      record (p ++ name :: rel) (basename (p ++ name :: rel)) dir = Ok pr.
Proof.
  induction 1 as [|[name0 child0] rest Hc _ IH]; intros p ps0 ps pr H Hin.
  - inversion H; subst. tauto.
  - simpl in Hc.
    assert (Hlift : In pr ps0 \/
              (exists name child rel dir,
                 In (name, child) rest /\
                 entry_is_dir_nofollow child = true /\ ignored name = false /\
                 dir_at ignore_patterns child rel dir /\
                 Project.path pr = p ++ name :: rel /\
                 is_project_directory (p ++ name :: rel) dir = true /\
                 record (p ++ name :: rel) (basename (p ++ name :: rel)) dir
                 = Ok pr) ->
              In pr ps0 \/
              (exists name child rel dir,
                 In (name, child) ((name0, child0) :: rest) /\
                 entry_is_dir_nofollow child = true /\ ignored name = false /\
                 dir_at ignore_patterns child rel dir /\
                 Project.path pr = p ++ name :: rel /\
                 is_project_directory (p ++ name :: rel) dir = true /\
                 record (p ++ name :: rel) (basename (p ++ name :: rel)) dir
                 = Ok pr)).
    { intros [Hl|[name [child [rel [dir [Hi Hrest]]]]]]; [tauto|].
      right. exists name, child, rel, dir. split; [right; exact Hi|exact Hrest]. }
    destruct (entry_is_dir_nofollow child0) eqn:Ed;
      [|rewrite loop_skip in H by tauto; apply Hlift; now apply (IH p ps0 ps)].
    destruct (ignored name0) eqn:Ei;
      [rewrite loop_skip in H by tauto; apply Hlift; now apply (IH p ps0 ps)|].
    rewrite loop_visit_eq in H by assumption. cbn [fst] in H.
    assert (Hfound : forall found,
              fst (detect (p ++ [name0]) name0 child0 false) = Ok found ->
              In pr found ->
              exists name child rel dir,
                In (name, child) ((name0, child0) :: rest) /\
                entry_is_dir_nofollow child = true /\ ignored name = false /\
                dir_at ignore_patterns child rel dir /\
                Project.path pr = p ++ name :: rel /\
                is_project_directory (p ++ name :: rel) dir = true /\
                record (p ++ name :: rel) (basename (p ++ name :: rel)) dir
                = Ok pr).
    { intros found Hf Hpr.
      destruct (detect_cases' (p ++ [name0]) name0 child0 false)
        as [[_ Hd]|[[pr0 [E [Hr Hd]]]|[e [_ [_ Hd]]]]]; rewrite Hd in Hf;
        cbn [fst] in Hf; inversion Hf; subst found; [contradiction|].
      destruct Hpr as [<-|[]].
      exists name0, child0, [], child0.
      rewrite basename_child.
      destruct (record_path_name _ _ _ _ _ _ _ _ _ _ Hr) as [Hpath _].
      repeat split; auto; [left; reflexivity|constructor]. }
    assert (Hsub : forall sub,
              fst (scan (p ++ [name0]) child0 false) = Ok sub ->
              In pr sub ->
              exists name child rel dir,
                In (name, child) ((name0, child0) :: rest) /\
                entry_is_dir_nofollow child = true /\ ignored name = false /\
                dir_at ignore_patterns child rel dir /\
                Project.path pr = p ++ name :: rel /\
                is_project_directory (p ++ name :: rel) dir = true /\
                record (p ++ name :: rel) (basename (p ++ name :: rel)) dir
                = Ok pr).
    { intros sub Hs Hpr.
      destruct (Hc _ _ _ Hs Hpr) as [rel [dir [_ [Hat [Hp [Hi Hr]]]]]].
      rewrite path_child_app in Hp, Hi, Hr.
      exists name0, child0, rel, dir. repeat split; auto. left. reflexivity. }
    destruct (fst (detect (p ++ [name0]) name0 child0 false))
      as [found|e] eqn:Edt.
    + destruct (fst (scan (p ++ [name0]) child0 false)) as [sub|e] eqn:Esc.
      * destruct (IH _ _ _ _ H Hin) as [Hl|Hr]; [|apply Hlift; tauto].
        apply in_app_or in Hl. destruct Hl as [Hl|Hl];
          [|right; exact (Hsub sub eq_refl Hl)].
        apply in_app_or in Hl. destruct Hl as [Hl|Hl]; [tauto|].
        right. exact (Hfound found eq_refl Hl).
      * destruct e; try discriminate. inversion H; subst ps.
        apply in_app_or in Hin. destruct Hin as [Hl|Hl]; [tauto|].
        right. exact (Hfound found eq_refl Hl).
    + destruct e; try discriminate. inversion H; subst. tauto.
Qed.

Lemma descend_sound (d : node) :
  forall q ps pr,
    fst (scan q d false) = Ok ps -> In pr ps ->
    exists rel dir,
      rel <> [] /\ dir_at ignore_patterns d rel dir /\
      Project.path pr = q ++ rel /\
      is_project_directory (q ++ rel) dir = true /\
      record (q ++ rel) (basename (q ++ rel)) dir = Ok pr.
Proof.
  induction d as [st|t|mtime listable entries IH] using node_nested_ind;
    intros q ps pr; rewrite scan_descend; cbn [fst];
    try (intros [= <-] []).
  destruct listable; [|intros [= <-] []].
  intros H Hin.
  destruct (loop_sound entries IH q [] ps pr H Hin)
    as [[]|[name [child [rel [dir [Hi [Hd [Hg [Hat Hrest]]]]]]]]].
  exists (name :: rel), dir. split; [discriminate|].
  split; [|exact Hrest]. eapply dir_at_child; eauto.
Qed.

(** X11.  Every record of a scan belongs to a directory of the tree: its path
    leads from the scan root, through real directories that can be listed
    and whose names are not ignored, to a directory that
    [is_project_directory] accepts, and the record is what the metadata block
    computes for that directory.  Only a top-level call records the root
    itself. *)
Theorem scan_records_are_projects :
  forall (root : Path) (d : node) (check_root : bool)
         (ps : list Project.t) (pr : Project.t),
    fst (scan root d check_root) = Ok ps -> In pr ps ->
    exists rel dir,
      dir_at ignore_patterns d rel dir /\
      Project.path pr = root ++ rel /\
      is_project_directory (root ++ rel) dir = true /\
      record (root ++ rel) (basename (root ++ rel)) dir = Ok pr /\
      (rel = [] -> check_root = true).
Proof.
  intros root d [|] ps pr Hps Hin.
  - destruct (top_result' root d ps Hps) as [found [Hf Hl]].
    assert (Hroot : In pr found ->
              exists rel dir,
                dir_at ignore_patterns d rel dir /\
                Project.path pr = root ++ rel /\
                is_project_directory (root ++ rel) dir = true /\
                record (root ++ rel) (basename (root ++ rel)) dir = Ok pr /\
                (rel = [] -> true = true)).
    { intro Hpr.
      destruct (detect_cases' root (basename root) d true)
        as [[_ Hd]|[[pr0 [E [Hr Hd]]]|[e [_ [_ Hd]]]]]; rewrite Hd in Hf;
        cbn [fst] in Hf; inversion Hf; subst found; [contradiction|].
      destruct Hpr as [<-|[]]. exists [], d. rewrite app_nil_r.
      destruct (record_path_name _ _ _ _ _ _ _ _ _ _ Hr) as [Hpath _].
      repeat split; auto. constructor. }
    destruct d as [st|t|mtime [|] entries];
      try (inversion Hl; subst; now apply Hroot).
    assert (Hall : Forall (fun e => forall q ps pr,
              fst (scan q (snd e) false) = Ok ps -> In pr ps ->
              exists rel dir,
                rel <> [] /\ dir_at ignore_patterns (snd e) rel dir /\
                Project.path pr = q ++ rel /\
                is_project_directory (q ++ rel) dir = true /\
                record (q ++ rel) (basename (q ++ rel)) dir = Ok pr) entries).
    { apply Forall_forall. intros e _. apply descend_sound. }
    destruct (loop_sound entries Hall root found ps pr Hl Hin)
      as [Hpr|[name [child [rel [dir [Hi [Hd [Hg [Hat [Hp [Hproj Hr]]]]]]]]]]];
      [now apply Hroot|].
    exists (name :: rel), dir. repeat split; auto.
    eapply dir_at_child; eauto.
  - destruct (descend_sound d root ps pr Hps Hin)
      as [rel [dir [Hne [Hat [Hp [Hproj Hr]]]]]].
    exists rel, dir. repeat split; auto; intros ->; congruence.
Qed.

(** *** No directory is recorded twice *)

Notation descend_sound' := descend_sound.

Lemma path_head_differs (p : Path) (n1 n2 : string) (r1 r2 : Path) :
  p ++ n1 :: r1 = p ++ n2 :: r2 -> n1 = n2 /\ r1 = r2.
Proof. intro H. apply app_inv_head in H. inversion H. tauto. Qed.

Lemma loop_distinct (entries : list (string * node)) :
  Forall (fun e => names_distinct (snd e) -> forall q ps,
            fst (scan q (snd e) false) = Ok ps ->
            NoDup (map Project.path ps)) entries ->
  NoDup (map fst entries) ->
  Forall (fun e => names_distinct (snd e)) entries ->
  forall p ps0 ps,
    fst (loop p entries ps0) = Ok ps ->
    exists new,
      ps = ps0 ++ new /\ NoDup (map Project.path new) /\
      Forall (fun pr => exists name rel,
                In name (map fst entries) /\
                Project.path pr = p ++ name :: rel) new.
Proof.
  induction 1 as [|[name0 child0] rest Hc _ IH];
    intros Hnd Hdist p ps0 ps H.
  - inversion H; subst. exists []. rewrite app_nil_r.
    repeat split; constructor.
  - simpl in Hc, Hnd. inversion Hnd as [|? ? Hnotin Hnd']; subst.
    inversion Hdist as [|? ? Hd0 Hdist']; subst. simpl in Hd0.
    assert (Hlift : (exists new,
                ps = ps0 ++ new /\ NoDup (map Project.path new) /\
                Forall (fun pr => exists name rel,
                          In name (map fst rest) /\
                          Project.path pr = p ++ name :: rel) new) ->
              exists new,
                ps = ps0 ++ new /\ NoDup (map Project.path new) /\
                Forall (fun pr => exists name rel,
                          In name (map fst ((name0, child0) :: rest)) /\
                          Project.path pr = p ++ name :: rel) new).
    { intros [new [H1 [H2 H3]]]. exists new. repeat split; auto.
      eapply Forall_impl; [|exact H3]. simpl.
      intros pr [name [rel [Hn Hp]]]. exists name, rel. tauto. }
    destruct (entry_is_dir_nofollow child0) eqn:Ed;
      [|rewrite loop_skip in H by tauto; apply Hlift; now apply IH].
    destruct (ignored name0) eqn:Ei;
      [rewrite loop_skip in H by tauto; apply Hlift; now apply IH|].
    rewrite loop_visit_eq in H by assumption. cbn [fst] in H.
    (* the records of this entry *)
    assert (Hfound : forall found,
              fst (detect (p ++ [name0]) name0 child0 false) = Ok found ->
              NoDup (map Project.path found) /\
              Forall (fun pr => Project.path pr = p ++ name0 :: []) found).
    { intros found Hf.
      destruct (detect_cases' (p ++ [name0]) name0 child0 false)
        as [[_ Hd]|[[pr0 [E [Hr Hd]]]|[e [_ [_ Hd]]]]]; rewrite Hd in Hf;
        cbn [fst] in Hf; inversion Hf; subst found.
      - split; constructor.
      - split; [repeat constructor; simpl; tauto|].
        repeat constructor.
        exact (proj1 (record_path_name _ _ _ _ _ _ _ _ _ _ Hr)). }
    assert (Hsub : forall sub,
              fst (scan (p ++ [name0]) child0 false) = Ok sub ->
              NoDup (map Project.path sub) /\
              Forall (fun pr => exists rel,
                        rel <> [] /\ Project.path pr = p ++ name0 :: rel)
                     sub).
    { intros sub Hs. split; [exact (Hc Hd0 _ _ Hs)|].
      apply Forall_forall. intros pr Hpr.
      destruct (descend_sound' child0 _ _ _ Hs Hpr)
        as [rel [dir [Hne [_ [Hp _]]]]].
      exists rel. split; [exact Hne|]. rewrite Hp. apply path_child_app. }
    assert (Hone : forall found sub,
              fst (detect (p ++ [name0]) name0 child0 false) = Ok found ->
              (sub = [] \/ fst (scan (p ++ [name0]) child0 false) = Ok sub) ->
              NoDup (map Project.path (found ++ sub)) /\
              Forall (fun pr => exists rel,
                        Project.path pr = p ++ name0 :: rel) (found ++ sub)).
    { intros found sub Hf Hs. destruct (Hfound found Hf) as [Hf1 Hf2].
      assert (Hs' : NoDup (map Project.path sub) /\
                Forall (fun pr => exists rel,
                          rel <> [] /\ Project.path pr = p ++ name0 :: rel)
                       sub).
      { destruct Hs as [->|Hs]; [split; constructor|now apply Hsub]. }
      destruct Hs' as [Hs1 Hs2]. split.
      - rewrite map_app. apply NoDup_app; auto.
        intros a Ha Ha'. apply in_map_iff in Ha, Ha'.
        destruct Ha as [x [<- Hx]]. destruct Ha' as [y [Hy Hy']].
        rewrite Forall_forall in Hf2, Hs2.
        destruct (Hs2 y Hy') as [rel [Hne Hp]].
        rewrite (Hf2 x Hx), Hp in Hy.
        apply path_head_differs in Hy. destruct Hy as [_ Hy]. congruence.
      - apply Forall_app. split.
        + eapply Forall_impl; [|exact Hf2]. simpl. intros pr Hp.
          now exists [].
        + eapply Forall_impl; [|exact Hs2]. simpl.
          intros pr [rel [_ Hp]]. now exists rel. }
    assert (Hfinish : forall mine rest_new,
              NoDup (map Project.path mine) ->
              Forall (fun pr => exists rel,
                        Project.path pr = p ++ name0 :: rel) mine ->
              NoDup (map Project.path rest_new) ->
              Forall (fun pr => exists name rel,
                        In name (map fst rest) /\
                        Project.path pr = p ++ name :: rel) rest_new ->
              NoDup (map Project.path (mine ++ rest_new)) /\
              Forall (fun pr => exists name rel,
                        In name (map fst ((name0, child0) :: rest)) /\
                        Project.path pr = p ++ name :: rel)
                     (mine ++ rest_new)).
    { intros mine rest_new Hm1 Hm2 Hr1 Hr2. split.
      - rewrite map_app. apply NoDup_app; auto.
        intros a Ha Ha'. apply in_map_iff in Ha, Ha'.
        destruct Ha as [x [<- Hx]]. destruct Ha' as [y [Hy Hy']].
        rewrite Forall_forall in Hm2, Hr2.
        destruct (Hm2 x Hx) as [rel Hp].
        destruct (Hr2 y Hy') as [name [rel' [Hn Hp']]].
        rewrite Hp, Hp' in Hy. apply path_head_differs in Hy.
        destruct Hy as [-> _]. exact (Hnotin Hn).
      - apply Forall_app. split.
        + eapply Forall_impl; [|exact Hm2]. simpl. intros pr [rel Hp].
          exists name0, rel. tauto.
        + eapply Forall_impl; [|exact Hr2]. simpl.
          intros pr [name [rel [Hn Hp]]]. exists name, rel. tauto. }
    destruct (fst (detect (p ++ [name0]) name0 child0 false))
      as [found|e] eqn:Edt.
    + destruct (fst (scan (p ++ [name0]) child0 false)) as [sub|e] eqn:Esc.
      * destruct (IH Hnd' Hdist' p _ ps H) as [new [-> [Hn1 Hn2]]].
        destruct (Hone found sub eq_refl (or_intror eq_refl)) as [Ho1 Ho2].
        destruct (Hfinish (found ++ sub) new Ho1 Ho2 Hn1 Hn2) as [G1 G2].
        exists ((found ++ sub) ++ new). split; [|tauto].
        now rewrite !app_assoc.
      * destruct e; try discriminate. inversion H; subst ps.
        destruct (Hone found [] eq_refl (or_introl eq_refl)) as [Ho1 Ho2].
        destruct (Hfinish (found ++ []) [] Ho1 Ho2 (NoDup_nil _)
                    (Forall_nil _)) as [G1 G2].
        rewrite !app_nil_r in G1, G2. exists found. tauto.
    + destruct e; try discriminate. inversion H; subst ps.
      exists []. rewrite app_nil_r. repeat split; constructor.
Qed.

Lemma descend_distinct (d : node) :
  names_distinct d ->
  forall q ps, fst (scan q d false) = Ok ps -> NoDup (map Project.path ps).
Proof.
  induction d as [st|t|mtime listable entries IH] using node_nested_ind;
    intros Hd q ps; rewrite scan_descend; cbn [fst];
    try (intros [= <-]; constructor).
  destruct listable; [|intros [= <-]; constructor].
  inversion Hd as [| |? ? ? Hnd Hall]; subst. intro H.
  destruct (loop_distinct entries IH Hnd Hall q [] ps H) as [new [-> [Hn _]]].
  exact Hn.
Qed.

(** X13.  When no directory lists the same name twice, no two records of a scan
    have the same path. *)
Theorem scan_paths_distinct :
  forall (root : Path) (d : node) (check_root : bool) (ps : list Project.t),
    names_distinct d ->
    fst (scan root d check_root) = Ok ps ->
    NoDup (map Project.path ps).
Proof.
  intros root d [|] ps Hd Hps; [|exact (descend_distinct d Hd root ps Hps)].
  destruct (top_result' root d ps Hps) as [found [Hf Hl]].
  assert (Hfound : NoDup (map Project.path found) /\
                   Forall (fun pr => Project.path pr = root) found).
  { destruct (detect_cases' root (basename root) d true)
      as [[_ Hdt]|[[pr0 [E [Hr Hdt]]]|[e [_ [_ Hdt]]]]]; rewrite Hdt in Hf;
      cbn [fst] in Hf; inversion Hf; subst found.
    - split; constructor.
    - split; [repeat constructor; simpl; tauto|]. repeat constructor.
      exact (proj1 (record_path_name _ _ _ _ _ _ _ _ _ _ Hr)). }
  destruct Hfound as [Hf1 Hf2].
  destruct d as [st|t|mtime [|] entries];
    try (inversion Hl; subst; exact Hf1).
  inversion Hd as [| |? ? ? Hnd Hall]; subst.
  assert (HIH : Forall (fun e => names_distinct (snd e) -> forall q ps,
              fst (scan q (snd e) false) = Ok ps ->
              NoDup (map Project.path ps)) entries).
  { apply Forall_forall. intros e _. apply descend_distinct. }
  destruct (loop_distinct entries HIH Hnd Hall root found ps Hl)
    as [new [-> [Hn1 Hn2]]].
  rewrite map_app. apply NoDup_app; auto.
  intros a Ha Ha'. apply in_map_iff in Ha, Ha'.
  destruct Ha as [x [<- Hx]]. destruct Ha' as [y [Hy Hy']].
  rewrite Forall_forall in Hf2, Hn2.
  destruct (Hn2 y Hy') as [name [rel [_ Hp]]].
  rewrite (Hf2 x Hx), Hp in Hy.
  rewrite <- (app_nil_r root) in Hy at 2.
  apply app_inv_head in Hy. discriminate.
Qed.

(** *** What the walk recursed into, it tested and recorded *)

Notation scan_clear' :=
  (scan_clear now open_repo ignore_patterns active_threshold
     dormant_threshold prunable_min_size_mb prunable_max_size_mb R
     progress_callback).

Lemma progress_no_enter (p q : Path) (count : nat) :
  ~ In (EvEnter q) (snd (progress p count)).
Proof.
  rewrite progress_trace. cbn [snd].
  destruct progress_callback; simpl; intuition discriminate.
Qed.

Lemma detect_no_enter (p : Path) (name : string) (d : node)
    (announce : bool) (q : Path) :
  ~ In (EvEnter q) (snd (detect p name d announce)).
Proof.
  intro Hin.
  assert (Hp : ~ In (EvEnter q)
                 (snd (if announce then progress p 0 else ret tt))).
  { destruct announce; [apply progress_no_enter|simpl; tauto]. }
  destruct (detect_cases' p name d announce)
    as [[_ Hd]|[[pr [_ [_ Hd]]]|[e [_ [_ Hd]]]]];
    rewrite Hd in Hin; cbn [snd] in Hin.
  - destruct Hin.
  - apply in_app_or in Hin. destruct Hin as [Hin|[Hin|[]]];
      [exact (Hp Hin)|discriminate].
  - exact (Hp Hin).
Qed.

Lemma path_not_below_itself (q : Path) (name : string) (rel : Path) :
  q <> q ++ name :: rel.
Proof.
  intro E. rewrite <- (app_nil_r q) in E at 1.
  apply app_inv_head in E. discriminate.
Qed.

(** The events of a loop are about paths below the directory of the loop,
    through one of its entries. *)
Lemma loop_event_names (entries : list (string * node)) :
  forall p ps,
    Forall (fun e => exists name rel,
              In name (map fst entries) /\ event_path e = p ++ name :: rel)
           (snd (loop p entries ps)).
Proof.
  induction entries as [|[name0 child0] rest IH]; intros p ps;
    [constructor|].
  assert (Hlift : forall ps',
             Forall (fun e => exists name rel,
                       In name (map fst ((name0, child0) :: rest)) /\
                       event_path e = p ++ name :: rel)
                    (snd (loop p rest ps'))).
  { intro ps'. eapply Forall_impl; [|apply IH]. simpl.
    intros e [name [rel [Hn Hp]]]. exists name, rel. tauto. }
  destruct (entry_is_dir_nofollow child0) eqn:Ed;
    [|rewrite loop_skip by tauto; apply Hlift].
  destruct (ignored name0) eqn:Ei;
    [rewrite loop_skip by tauto; apply Hlift|].
  rewrite loop_visit_eq by assumption. cbn [snd].
  assert (Hhere : forall e, event_path e = p ++ [name0] ->
             exists name rel,
               In name (map fst ((name0, child0) :: rest)) /\
               event_path e = p ++ name :: rel).
  { intros e He. exists name0, []. split; [left; reflexivity|exact He]. }
  apply Forall_app. split.
  { rewrite progress_trace. cbn [snd].
    destruct progress_callback; repeat constructor. now apply Hhere. }
  constructor; [now apply Hhere|].
  apply Forall_app. split.
  { destruct (detect_cases' (p ++ [name0]) name0 child0 false)
      as [[_ Hd]|[[pr [_ [_ Hd]]]|[e [_ [_ Hd]]]]];
      rewrite Hd; cbn [snd]; simpl; repeat constructor.
    now apply Hhere. }
  destruct (fst (detect (p ++ [name0]) name0 child0 false));
    [|constructor].
  apply Forall_app. split.
  - destruct (scan_clear' (p ++ [name0]) child0 false) as [Hc _].
    eapply Forall_impl; [|exact Hc]. simpl.
    intros e [rel [Hp _]]. exists name0, rel.
    split; [left; reflexivity|]. rewrite Hp. apply path_child_app.
  - destruct (fst (scan (p ++ [name0]) child0 false));
      [apply Hlift|constructor].
Qed.

Lemma loop_entered (entries : list (string * node)) :
  Forall (fun e => names_distinct (snd e) -> forall q ps rel dir,
            fst (scan q (snd e) false) = Ok ps ->
            rel <> [] -> dir_at ignore_patterns (snd e) rel dir ->
            In (EvEnter (q ++ rel)) (snd (scan q (snd e) false)) ->
            In (EvEval (q ++ rel)) (snd (scan q (snd e) false)) /\
            (is_project_directory (q ++ rel) dir = true ->
             exists pr, In pr ps /\ Project.path pr = q ++ rel)) entries ->
  NoDup (map fst entries) ->
  Forall (fun e => names_distinct (snd e)) entries ->
  forall p ps0 ps,
    fst (loop p entries ps0) = Ok ps ->
    forall name child rel dir,
      In (name, child) entries ->
      entry_is_dir_nofollow child = true -> ignored name = false ->
      dir_at ignore_patterns child rel dir ->
      In (EvEnter (p ++ name :: rel)) (snd (loop p entries ps0)) ->
      In (EvEval (p ++ name :: rel)) (snd (loop p entries ps0)) /\
      (is_project_directory (p ++ name :: rel) dir = true ->
       exists pr, In pr ps /\ Project.path pr = p ++ name :: rel).
Proof.
  induction 1 as [|[name0 child0] rest Hc _ IH];
    intros Hnd Hdist p ps0 ps H name child rel dir Hin Hd Hi Hat He;
    [destruct Hin|].
  simpl in Hc, Hnd. inversion Hnd as [|? ? Hnotin Hnd']; subst.
  inversion Hdist as [|? ? Hd0 Hdist']; subst. simpl in Hd0.
  destruct (entry_is_dir_nofollow child0) eqn:Ed0.
  2:{ rewrite loop_skip in H, He |- * by tauto.
      destruct Hin as [Heq|Hin]; [inversion Heq; subst; congruence|].
      exact (IH Hnd' Hdist' p ps0 ps H name child rel dir Hin Hd Hi Hat He). }
  destruct (ignored name0) eqn:Ei0.
  { rewrite loop_skip in H, He |- * by tauto.
    destruct Hin as [Heq|Hin]; [inversion Heq; subst; congruence|].
    exact (IH Hnd' Hdist' p ps0 ps H name child rel dir Hin Hd Hi Hat He). }
  rewrite loop_visit_eq in H, He |- * by assumption.
  cbn [fst snd] in H, He |- *.
  (* the event is one of the recursive call or of the later entries *)
  apply in_app_or in He.
  destruct He as [He|He]; [exfalso; exact (progress_no_enter _ _ _ He)|].
  destruct He as [He|He]; [discriminate|].
  apply in_app_or in He.
  destruct He as [He|He]; [exfalso; exact (detect_no_enter _ _ _ _ _ He)|].
  destruct (fst (detect (p ++ [name0]) name0 child0 false))
    as [found|e] eqn:Edt; [|destruct He].
  apply in_app_or in He.
  assert (Hsubpath : forall ev,
             In ev (snd (scan (p ++ [name0]) child0 false)) ->
             exists r, event_path ev = p ++ name0 :: r).
  { intros ev Hev. destruct (scan_clear' (p ++ [name0]) child0 false)
      as [Hcl _].
    rewrite Forall_forall in Hcl. destruct (Hcl ev Hev) as [r [Hp _]].
    exists r. rewrite Hp. apply path_child_app. }
  assert (Hrestpath : forall ps' ev,
             In ev (snd (loop p rest ps')) ->
             exists n r, In n (map fst rest) /\ event_path ev = p ++ n :: r).
  { intros ps' ev Hev. pose proof (loop_event_names rest p ps') as Hn.
    rewrite Forall_forall in Hn. exact (Hn ev Hev). }
  destruct Hin as [Heq|Hin].
  - (* the entry at hand *)
    inversion Heq; subst name child. clear Heq.
    assert (HeS : In (EvEnter (p ++ name0 :: rel))
                    (snd (scan (p ++ [name0]) child0 false))).
    { destruct He as [He|He]; [exact He|]. exfalso.
      destruct (fst (scan (p ++ [name0]) child0 false)); [|destruct He].
      destruct (Hrestpath _ _ He) as [n [r [Hn Hp]]]. simpl in Hp.
      apply path_head_differs in Hp. destruct Hp as [-> _].
      exact (Hnotin Hn). }
    destruct (fst (scan (p ++ [name0]) child0 false)) as [sub|e] eqn:Esc.
    2:{ exfalso. destruct e; try discriminate.
        exact (descend_no_oserror' _ _ Esc). }
    destruct (loop_prefix' _ _ _ _ H) as [more ->].
    destruct rel as [|n rel].
    + (* the entry itself *)
      split; [apply in_or_app; right; left; reflexivity|].
      intro Hp. inversion Hat; subst dir.
      destruct (detect_cases' (p ++ [name0]) name0 child0 false)
        as [[E _]|[[pr [_ [Hr Hdt]]]|[e [_ [_ Hdt]]]]];
        [congruence| |rewrite Hdt in Edt; discriminate].
      rewrite Hdt in Edt. cbn [fst] in Edt. inversion Edt; subst found.
      exists pr. split.
      * apply in_or_app. left. apply in_or_app. left.
        apply in_or_app. right. left. reflexivity.
      * exact (proj1 (record_path_name _ _ _ _ _ _ _ _ _ _ Hr)).
    + (* a directory below the entry *)
      rewrite <- path_child_app in HeS |- *.
      destruct (Hc Hd0 (p ++ [name0]) sub (n :: rel) dir Esc
                  ltac:(discriminate) Hat HeS) as [Hev Hrec].
      split.
      * apply in_or_app. right. right. apply in_or_app. right.
        apply in_or_app. left. exact Hev.
      * intro Hp. destruct (Hrec Hp) as [pr [Hpr Hpath]].
        exists pr. split; [|exact Hpath].
        apply in_or_app. left. apply in_or_app. right. exact Hpr.
  - (* a later entry *)
    assert (Hne : name <> name0).
    { intros ->. apply Hnotin. apply in_map_iff. now exists (name0, child). }
    destruct He as [He|He].
    { exfalso. destruct (Hsubpath _ He) as [r Hp]. simpl in Hp.
      apply path_head_differs in Hp. tauto. }
    destruct (fst (scan (p ++ [name0]) child0 false)) as [sub|e];
      [|destruct He].
    destruct (IH Hnd' Hdist' p _ ps H name child rel dir Hin Hd Hi Hat He)
      as [Hev Hrec].
    split; [|exact Hrec].
    apply in_or_app. right. right. apply in_or_app. right.
    apply in_or_app. right. exact Hev.
Qed.

Lemma descend_entered (d : node) :
  names_distinct d -> forall q ps rel dir,
    fst (scan q d false) = Ok ps ->
    rel <> [] -> dir_at ignore_patterns d rel dir ->
    In (EvEnter (q ++ rel)) (snd (scan q d false)) ->
    In (EvEval (q ++ rel)) (snd (scan q d false)) /\
    (is_project_directory (q ++ rel) dir = true ->
     exists pr, In pr ps /\ Project.path pr = q ++ rel).
Proof.
  induction d as [st|t|mtime listable entries IH] using node_nested_ind;
    intros Hdist q ps rel dir Hps Hne Hat He;
    inversion Hat as [|? ? name child rel0 ? Hin1 Hdir Hign Hrest]; subst;
    try congruence.
  inversion Hdist as [| |? ? ? Hnd Hall]; subst.
  rewrite scan_descend in Hps, He |- *. cbn [fst snd] in Hps, He |- *.
  destruct He as [He|He];
    [exfalso; inversion He as [E]; exact (path_not_below_itself _ _ _ E)|].
  destruct (loop_entered entries IH Hnd Hall q [] ps Hps name child rel0 dir
              Hin1 Hdir Hign Hrest He) as [Hev Hrec].
  split; [right; exact Hev|exact Hrec].
Qed.

(** X12.  In a tree where no directory lists the same name twice, whenever a
    top-level scan returns, every directory it recursed into, the scan root
    included, was tested with [is_project_directory], and if it passes the
    test the result has a record with its path: the walk never enters a
    project without recording it.  Nothing is assumed of the run beyond its
    return, so this holds as well where errors ended parts of the walk. *)
Theorem scan_entered_is_recorded :
  forall (root : Path) (d : node) (ps : list Project.t),
    names_distinct d ->
    fst (scan root d true) = Ok ps ->
    forall rel dir,
      dir_at ignore_patterns d rel dir ->
      In (EvEnter (root ++ rel)) (snd (scan root d true)) ->
      In (EvEval (root ++ rel)) (snd (scan root d true)) /\
      (is_project_directory (root ++ rel) dir = true ->
       exists pr, In pr ps /\ Project.path pr = root ++ rel).
Proof.
  intros root d ps Hdist Hps rel dir Hat He.
  destruct (top_result' root d ps Hps) as [found [Hf Hl]].
  rewrite top_trace in He |- *. rewrite Hf in He |- *.
  inversion Hat as [|? ? name child rel0 ? Hin1 Hdir Hign Hrest]; subst.
  - rewrite app_nil_r in *. split; [right; left; reflexivity|].
    intro Hp.
    destruct (detect_cases' root (basename root) dir true)
      as [[E _]|[[pr0 [_ [Hr Hdt]]]|[e [_ [_ Hdt]]]]];
      [congruence| |rewrite Hdt in Hf; discriminate].
    rewrite Hdt in Hf. cbn [fst] in Hf. inversion Hf; subst found.
    exists pr0. split.
    + destruct dir as [st|t|mtime [|] entries];
        try (inversion Hl; subst; left; reflexivity).
      destruct (loop_prefix' _ _ _ _ Hl) as [more ->]. left. reflexivity.
    + exact (proj1 (record_path_name _ _ _ _ _ _ _ _ _ _ Hr)).
  - inversion Hdist as [| |? ? ? Hnd Hall]; subst.
    destruct He as [He|He];
      [exfalso; inversion He as [E]; exact (path_not_below_itself _ _ _ E)|].
    destruct He as [He|He]; [discriminate|].
    apply in_app_or in He.
    destruct He as [He|He]; [exfalso; exact (detect_no_enter _ _ _ _ _ He)|].
    assert (HIH : Forall (fun e => names_distinct (snd e) ->
              forall q ps rel dir,
                fst (scan q (snd e) false) = Ok ps ->
                rel <> [] -> dir_at ignore_patterns (snd e) rel dir ->
                In (EvEnter (q ++ rel)) (snd (scan q (snd e) false)) ->
                In (EvEval (q ++ rel)) (snd (scan q (snd e) false)) /\
                (is_project_directory (q ++ rel) dir = true ->
                 exists pr, In pr ps /\ Project.path pr = q ++ rel))
              entries).
    { apply Forall_forall. intros e _. apply descend_entered. }
    destruct (loop_entered entries HIH Hnd Hall root found ps Hl name child
                rel0 dir Hin1 Hdir Hign Hrest He) as [Hev Hrec].
    split; [|exact Hrec].
    right. right. apply in_or_app. right. exact Hev.
Qed.

End ScanFurther.

(** ** Callbacks that return leave the result as it is *)

Section CallbackResult.

Variable now : Z.
Variable open_repo : Path -> result Repo.
Variable ignore_patterns : list string.
Variables active_threshold dormant_threshold : Z.
Variables prunable_min_size_mb prunable_max_size_mb : Q.
Variables R1 R2 : Type.
Variable callback1 : option (Path -> nat -> R1).
Variable callback2 : option (Path -> nat -> R2).

Notation scan1 :=
  (scan_for_projects now open_repo ignore_patterns active_threshold
     dormant_threshold prunable_min_size_mb prunable_max_size_mb R1 callback1).
Notation scan2 :=
  (scan_for_projects now open_repo ignore_patterns active_threshold
     dormant_threshold prunable_min_size_mb prunable_max_size_mb R2 callback2).
Notation loop1 :=
  (scan_entries now open_repo ignore_patterns active_threshold
     dormant_threshold prunable_min_size_mb prunable_max_size_mb R1 callback1
     (fun p c => scan1 p c false)).
Notation loop2 :=
  (scan_entries now open_repo ignore_patterns active_threshold
     dormant_threshold prunable_min_size_mb prunable_max_size_mb R2 callback2
     (fun p c => scan2 p c false)).
Notation detect1 :=
  (detect_and_record now open_repo active_threshold dormant_threshold
     prunable_min_size_mb prunable_max_size_mb R1 callback1).
Notation detect2 :=
  (detect_and_record now open_repo active_threshold dormant_threshold
     prunable_min_size_mb prunable_max_size_mb R2 callback2).

Lemma detect_fst_same (p : Path) (name : string) (d : node) (announce : bool) :
  fst (detect1 p name d announce) = fst (detect2 p name d announce).
Proof.
  destruct (detect_cases now open_repo ignore_patterns active_threshold
              dormant_threshold prunable_min_size_mb prunable_max_size_mb
              R1 callback1 p name d announce)
    as [[E1 ->]|[[pr1 [E1 [Hr1 ->]]]|[e1 [E1 [Hr1 ->]]]]];
  destruct (detect_cases now open_repo ignore_patterns active_threshold
              dormant_threshold prunable_min_size_mb prunable_max_size_mb
              R2 callback2 p name d announce)
    as [[E2 ->]|[[pr2 [E2 [Hr2 ->]]]|[e2 [E2 [Hr2 ->]]]]];
  cbn [fst]; congruence.
Qed.

Lemma loop_fst_same (entries : list (string * node)) :
  Forall (fun e => forall q,
            fst (scan1 q (snd e) false) = fst (scan2 q (snd e) false))
         entries ->
  forall p ps, fst (loop1 p entries ps) = fst (loop2 p entries ps).
Proof.
  induction 1 as [|[name child] rest Hc _ IH]; intros p ps; [reflexivity|].
  simpl in Hc.
  destruct (entry_is_dir_nofollow child) eqn:Ed;
    [|rewrite !loop_skip by tauto; apply IH].
  destruct (should_ignore_directory name ignore_patterns) eqn:Ei;
    [rewrite !loop_skip by tauto; apply IH|].
  rewrite !loop_visit_eq by assumption. cbn [fst].
  rewrite <- detect_fst_same, <- Hc.
  destruct (fst (detect1 (p ++ [name]) name child false)); [|reflexivity].
  destruct (fst (scan1 (p ++ [name]) child false)); [|reflexivity].
  apply IH.
Qed.

Lemma descend_fst_same (d : node) :
  forall q, fst (scan1 q d false) = fst (scan2 q d false).
Proof.
  induction d as [st|t|mtime listable entries IH] using node_nested_ind;
    intro q; rewrite !scan_descend; cbn [fst]; try reflexivity.
  destruct listable; [|reflexivity]. now apply loop_fst_same.
Qed.

Lemma scan_fst_same (root : Path) (d : node) (check_root : bool) :
  fst (scan1 root d check_root) = fst (scan2 root d check_root).
Proof.
  revert root d check_root.
  intros root d [|]; [|apply descend_fst_same].
  rewrite !top_fst, <- detect_fst_same.
  destruct (fst (detect1 root (basename root) d true)); [|reflexivity].
  destruct d as [st|t|mtime [|] entries]; try reflexivity.
  apply loop_fst_same. apply Forall_forall. intros e _.
  apply descend_fst_same.
Qed.

End CallbackResult.

(** ** The further properties on the sample file systems *)

Lemma get_git_info_prefers_origin_witness :
  get_git_info (fun _ => Ok two_remote_repo) ["r"] corrupt_git_dir =
    Ok (true, Some "ssh://origin/repo", Some CLEAN) /\
  exists rem rest before after,
    remote_urls rem = Ok ("ssh://origin/repo" :: rest) /\
    remotes two_remote_repo = before ++ rem :: after /\
    Forall (fun r => remote_name r <> "origin") before /\
    (remote_name rem = "origin" \/
     (before = [] /\
      Forall (fun r => remote_name r <> "origin") (remotes two_remote_repo))).
Proof.
  split; [reflexivity|].
  apply (get_git_info_prefers_origin (fun _ => Ok two_remote_repo) ["r"]
           corrupt_git_dir two_remote_repo "ssh://origin/repo" (Some CLEAN)
           eq_refl eq_refl).
Defined.

Lemma get_git_info_error_paths_witness :
  upstream_check_fails two_remote_repo /\
  get_git_info (fun _ => Ok two_remote_repo) ["r"] corrupt_git_dir =
    Ok (true, Some "ssh://origin/repo", Some CLEAN).
Proof.
  assert (Hf : upstream_check_fails two_remote_repo).
  { right. split; [reflexivity|]. left. exists ValueError.
    split; [right; reflexivity|reflexivity]. }
  split; [exact Hf|].
  apply (proj1 (get_git_info_error_paths (fun _ => Ok two_remote_repo) ["r"]
                  corrupt_git_dir two_remote_repo "ssh://origin/repo"
                  eq_refl eq_refl eq_refl));
    [reflexivity|exact Hf].
Defined.

Lemma scan_records_derived_fields_witness :
  Forall (fun pr =>
            derived_fields (10 * microseconds_per_day) 30 180 10 1 pr /\
            (Project.is_prunable pr = true ->
             Project.classification pr = STALE /\
             Project.git_remote pr = None))
    (match fst (sample_scan ["node_modules"] None ["r"] nested_tree) with
     | Ok ps => ps
     | Raise _ => []
     end).
Proof.
  destruct (fst (sample_scan ["node_modules"] None ["r"] nested_tree))
    as [ps|e] eqn:E; [|constructor].
  apply Forall_forall. intros pr Hin.
  exact (scan_records_derived_fields (10 * microseconds_per_day) invalid_repo
           ["node_modules"] 30 180 10 1 unit None ["r"] nested_tree true
           ps pr E Hin).
Defined.

Lemma scan_records_vcs_shape_witness :
  Forall (fun pr =>
            vcs_shape (Project.has_git pr) (Project.git_remote pr)
              (Project.git_status pr))
    (match fst (sample_scan [] None ["r"] corrupt_git_dir) with
     | Ok ps => ps
     | Raise _ => []
     end).
Proof.
  destruct (fst (sample_scan [] None ["r"] corrupt_git_dir))
    as [ps|e] eqn:E; [|constructor].
  apply Forall_forall. intros pr Hin.
  exact (scan_records_vcs_shape (10 * microseconds_per_day) invalid_repo
           [] 30 180 10 1 unit None ["r"] corrupt_git_dir true ps pr E Hin).
Defined.

Lemma scan_records_are_projects_witness :
  Forall (fun pr =>
            exists rel dir,
              dir_at ["node_modules"] nested_tree rel dir /\
              Project.path pr = ["r"] ++ rel /\
              is_project_directory (["r"] ++ rel) dir = true /\
              project_record (10 * microseconds_per_day) invalid_repo
                30 180 10 1 (["r"] ++ rel) (basename (["r"] ++ rel)) dir =
                Ok pr /\
              (rel = [] -> true = true))
    (match fst (sample_scan ["node_modules"] None ["r"] nested_tree) with
     | Ok ps => ps
     | Raise _ => []
     end).
Proof.
  destruct (fst (sample_scan ["node_modules"] None ["r"] nested_tree))
    as [ps|e] eqn:E; [|constructor].
  apply Forall_forall. intros pr Hin.
  exact (scan_records_are_projects (10 * microseconds_per_day) invalid_repo
           ["node_modules"] 30 180 10 1 unit None ["r"] nested_tree true
           ps pr E Hin).
Defined.

Lemma names_distinct_nested : names_distinct nested_tree.
Proof.
  unfold nested_tree, readme_dir.
  repeat first [ constructor | (simpl; intuition discriminate) ].
Defined.

Lemma scan_paths_distinct_witness :
  NoDup (map Project.path
           (match fst (sample_scan ["node_modules"] None ["r"] nested_tree) with
            | Ok ps => ps
            | Raise _ => []
            end)).
Proof.
  apply (scan_paths_distinct (10 * microseconds_per_day) invalid_repo
           ["node_modules"] 30 180 10 1 unit None ["r"] nested_tree true
           (match fst (sample_scan ["node_modules"] None ["r"] nested_tree) with
            | Ok ps => ps
            | Raise _ => []
            end)
           names_distinct_nested eq_refl).
Defined.

(** ** Ignore patterns: from the configuration to the scan *)

Lemma append_patterns_filter (strip : string -> string)
    (lines patterns : list string) :
  append_patterns strip patterns lines =
  patterns ++ filter is_pattern (map strip lines).
Proof.
  unfold append_patterns. revert patterns.
  induction lines as [|line lines IH]; intro patterns; simpl.
  - now rewrite app_nil_r.
  - rewrite IH. destruct (is_pattern (strip line)); [|reflexivity].
    now rewrite <- app_assoc.
Qed.

Lemma read_ignore_file_result (strip : string -> string) (f : text_file)
    (patterns : list string) :
  read_ignore_file strip f patterns =
  match read_error f with
  | Some e => Raise e
  | None => Ok (patterns ++ effective_lines strip f)
  end.
Proof.
  destruct f as [|[lines|e]]; simpl.
  - now rewrite app_nil_r.
  - now rewrite append_patterns_filter.
  - reflexivity.
Qed.

Lemma load_ignore_patterns_result (strip : string -> string) (self : Config.t)
    (ignore_file global_ignore : text_file) :
  load_ignore_patterns strip self ignore_file global_ignore =
  match read_error ignore_file, read_error global_ignore with
  | Some e, _ => Raise e
  | None, Some e => Raise e
  | None, None =>
      Ok (ScanConfig.ignore_patterns (Config.scan self) ++
          effective_lines strip ignore_file ++
          effective_lines strip global_ignore)
  end.
Proof.
  unfold load_ignore_patterns. rewrite read_ignore_file_result.
  destruct (read_error ignore_file); [reflexivity|]. cbn [rbind].
  rewrite read_ignore_file_result.
  destruct (read_error global_ignore); [reflexivity|].
  now rewrite <- app_assoc.
Qed.

Lemma effective_lines_patterns (strip : string -> string) (f : text_file)
    (x : string) :
  In x (effective_lines strip f) <->
  exists lines line,
    f = Present (Ok lines) /\ In line lines /\ x = strip line /\
    x <> "" /\ String.prefix "#" x = false.
Proof.
  unfold effective_lines, is_pattern. split.
  - destruct f as [|[lines|e]]; try (intros []).
    intro H. apply filter_In in H. destruct H as [Hin Hk].
    apply in_map_iff in Hin. destruct Hin as [line [<- Hin]].
    apply andb_true_iff in Hk. destruct Hk as [Hne Hc].
    apply negb_true_iff in Hne, Hc.
    exists lines, line. repeat split; auto.
    intro E. rewrite E in Hne. discriminate.
  - intros [lines [line [-> [Hin [-> [Hne Hc]]]]]].
    apply filter_In. split; [now apply in_map|].
    apply andb_true_iff. split; apply negb_true_iff; [|exact Hc].
    apply String.eqb_neq. exact Hne.
Qed.

(** X15.  [load_ignore_patterns] returns the patterns of the configuration
    followed by the patterns of the scan root's [.lpmignore] and then those
    of the global one, where the patterns of a file are its stripped lines
    that are neither empty nor start with [#], in file order; nothing is
    removed or reordered.  It raises exactly when an ignore file that exists
    cannot be read, the scan root's file first. *)
Theorem load_ignore_patterns_appends :
  forall (strip : string -> string) (self : Config.t)
         (ignore_file global_ignore : text_file),
    (forall patterns,
        load_ignore_patterns strip self ignore_file global_ignore = Ok patterns <->
        read_error ignore_file = None /\ read_error global_ignore = None /\
        patterns = ScanConfig.ignore_patterns (Config.scan self) ++
                   effective_lines strip ignore_file ++
                   effective_lines strip global_ignore) /\
    (forall e,
        load_ignore_patterns strip self ignore_file global_ignore = Raise e <->
        read_error ignore_file = Some e \/
        (read_error ignore_file = None /\ read_error global_ignore = Some e)) /\
    (forall f x,
        In x (effective_lines strip f) <->
        exists lines line,
          f = Present (Ok lines) /\ In line lines /\ x = strip line /\
          x <> "" /\ String.prefix "#" x = false).
Proof.
  intros strip self ignore_file global_ignore.
  split; [|split; [|intros f x; apply effective_lines_patterns]].
  - intro patterns. rewrite load_ignore_patterns_result.
    destruct (read_error ignore_file) as [e1|];
      [split; [discriminate|intros [H _]; discriminate]|].
    destruct (read_error global_ignore) as [e2|];
      [split; [discriminate|intros [_ [H _]]; discriminate]|].
    split; [intros [= <-]; auto|intros [_ [_ ->]]; reflexivity].
  - intro e. rewrite load_ignore_patterns_result.
    destruct (read_error ignore_file) as [e1|].
    + split; [intros [= ->]; now left|].
      intros [[= ->]|[H _]]; [reflexivity|discriminate].
    + destruct (read_error global_ignore) as [e2|].
      * split; [intros [= ->]; right; auto|].
        intros [H|[_ [= ->]]]; [discriminate|reflexivity].
      * split; [discriminate|]. intros [H|[_ H]]; discriminate.
Qed.

(** With ASCII stripping, the sample ignore file contributes one pattern:
    comments, also indented ones, and blank lines contribute none. *)
Example effective_lines_sample :
  effective_lines ascii_strip sample_ignore_file = ["locked"].
Proof. reflexivity. Qed.

Lemma Config_load_ignore_patterns (cwd : result Path)
    (env_editor : option string) (expanduser : string -> result Path)
    (f : config_file) (config : Config.t) :
  Config_load cwd env_editor expanduser f = Ok config ->
  ScanConfig.ignore_patterns (Config.scan config) =
  DEFAULT_IGNORE_PATTERNS ++ configured_patterns f.
Proof.
  unfold Config_load, default_config, rbind.
  destruct cwd as [default_path|e0]; [|discriminate].
  destruct f as [|e|data]; try discriminate.
  - intros [= <-]. reflexivity.
  - unfold configured_patterns.
    destruct (data_scan data) as [sd|]; [|intros [= <-]; reflexivity].
    unfold update_scan, rbind.
    destruct (match scan_default_path sd with
              | Some s => expanduser s
              | None => _
              end) as [dp|e]; [|discriminate].
    intros [= <-]. reflexivity.
Qed.

Lemma Config_load_classification (cwd : result Path)
    (env_editor : option string) (expanduser : string -> result Path)
    (data : toml_data) (config : Config.t) :
  Config_load cwd env_editor expanduser (ConfigFile data) = Ok config ->
  Config.classification config =
  updated (option_map
             (update_classification (ClassificationConfig.mk 30 180 10 1))
             (data_classification data))
    (ClassificationConfig.mk 30 180 10 1).
Proof.
  unfold Config_load, default_config, rbind.
  destruct cwd as [default_path|e0]; [|discriminate].
  destruct (match data_scan data with
            | Some d => _
            | None => _
            end) as [sc|e]; [|discriminate].
  intros [= <-]. reflexivity.
Qed.

Section Pipeline.

Variable cwd : result Path.
Variable env_editor : option string.
Variable expanduser : string -> result Path.
Variable strip : string -> string.
Variable now : Z.
Variable open_repo : Path -> result Repo.

Notation load := (Config_load cwd env_editor expanduser).
Notation main_scan' := (main_scan cwd env_editor expanduser strip now open_repo).
Notation refresh := (action_refresh strip now open_repo).
Notation run := (configured_scan now open_repo).

(** The list of patterns a start-up scan or a refresh works with. *)
Lemma main_scan_cases (f : config_file) (ignore_file global_ignore : text_file)
    (scan_path : Path) (d : node) :
  (exists e, main_scan' f ignore_file global_ignore scan_path d = (Raise e, []) /\
             (load f = Raise e \/
              exists config,
                load f = Ok config /\
                load_ignore_patterns strip config ignore_file global_ignore =
                  Raise e)) \/
  (exists config,
      load f = Ok config /\
      load_ignore_patterns strip config ignore_file global_ignore =
        Ok (DEFAULT_IGNORE_PATTERNS ++ configured_patterns f ++
            effective_lines strip ignore_file ++
            effective_lines strip global_ignore) /\
      main_scan' f ignore_file global_ignore scan_path d =
        (Ok (match fst (run config
                          (DEFAULT_IGNORE_PATTERNS ++ configured_patterns f ++
                           effective_lines strip ignore_file ++
                           effective_lines strip global_ignore)
                          (Some (fun _ _ => tt)) scan_path d) with
             | Ok projects => Some projects
             | Raise _ => None
             end),
         snd (run config
                (DEFAULT_IGNORE_PATTERNS ++ configured_patterns f ++
                 effective_lines strip ignore_file ++
                 effective_lines strip global_ignore)
                (Some (fun _ _ => tt)) scan_path d))).
Proof.
  unfold main_scan.
  destruct (load f) as [config|e] eqn:El;
    [|left; exists e; split; [reflexivity|now left]].
  pose proof (Config_load_ignore_patterns _ _ _ _ _ El) as Hig.
  destruct (load_ignore_patterns strip config ignore_file global_ignore)
    as [patterns|e] eqn:Ep;
    [|left; exists e; split; [reflexivity|right; now exists config]].
  right. exists config.
  pose proof Ep as Ep'. rewrite load_ignore_patterns_result in Ep'.
  destruct (read_error ignore_file); [discriminate|].
  destruct (read_error global_ignore); [discriminate|].
  injection Ep' as <-. rewrite Hig, <- app_assoc in Ep.
  rewrite Hig, <- app_assoc.
  split; [reflexivity|]. split; [exact Ep|reflexivity].
Qed.

Lemma clear_below_names (ignore_patterns : list string) (root q : Path) :
  clear_below ignore_patterns root q ->
  exists rel, q = root ++ rel /\
              forall name, In name rel -> ~ In name ignore_patterns.
Proof.
  intros [rel [-> Hall]]. exists rel. split; [reflexivity|].
  intros name Hin Hig. rewrite Forall_forall in Hall.
  specialize (Hall name Hin). unfold not_ignored in Hall.
  apply should_ignore_directory_exact in Hig. congruence.
Qed.

(** X16.  In the start-up scan of [main], no directory whose name is one of the
    default ignore patterns, a pattern of the configuration file or a
    pattern of either [.lpmignore] is evaluated, entered, reported or
    recorded below the scan root, whatever these files contain: every path
    of the trace and of the result leads from the scan root through names
    that are none of these. *)
Theorem main_scan_skips_ignored :
  forall (f : config_file) (ignore_file global_ignore : text_file)
         (scan_path : Path) (d : node) (q : Path),
    (In q (map event_path
             (snd (main_scan' f ignore_file global_ignore scan_path d))) \/
     exists projects pr,
       fst (main_scan' f ignore_file global_ignore scan_path d) =
         Ok (Some projects) /\
       In pr projects /\ Project.path pr = q) ->
    exists rel,
      q = scan_path ++ rel /\
      forall name, In name rel ->
        ~ In name DEFAULT_IGNORE_PATTERNS /\
        ~ In name (configured_patterns f) /\
        ~ In name (effective_lines strip ignore_file) /\
        ~ In name (effective_lines strip global_ignore).
Proof.
  intros f ignore_file global_ignore scan_path d q H.
  assert (Hc : clear_below
                 (DEFAULT_IGNORE_PATTERNS ++ configured_patterns f ++
                  effective_lines strip ignore_file ++
                  effective_lines strip global_ignore) scan_path q).
  { destruct (main_scan_cases f ignore_file global_ignore scan_path d)
      as [[e [Em _]]|[config [_ [_ Em]]]]; rewrite Em in H.
    - destruct H as [[]|[ps [pr [E _]]]]. discriminate.
    - cbn [fst snd] in H. unfold configured_scan in H.
      pose proof (scan_clear now open_repo
                    (DEFAULT_IGNORE_PATTERNS ++ configured_patterns f ++
                     effective_lines strip ignore_file ++
                     effective_lines strip global_ignore)
                    (ClassificationConfig.active_days_threshold
                       (Config.classification config))
                    (ClassificationConfig.dormant_days_threshold
                       (Config.classification config))
                    (ClassificationConfig.prunable_min_size_mb
                       (Config.classification config))
                    (ClassificationConfig.prunable_max_size_mb
                       (Config.classification config))
                    unit (Some (fun _ _ => tt)) scan_path d true)
        as [He Hp].
      destruct H as [Hin|[ps [pr [E [Hin <-]]]]].
      + apply in_map_iff in Hin. destruct Hin as [ev [<- Hin]].
        rewrite Forall_forall in He. now apply He.
      + match type of E with
        | Ok (match ?r with _ => _ end) = _ => destruct r as [ps'|e] eqn:Er
        end; [|discriminate].
        injection E as <-. specialize (Hp ps' eq_refl).
        rewrite Forall_forall in Hp. now apply Hp. }
  apply clear_below_names in Hc. destruct Hc as [rel [-> Hn]].
  exists rel. split; [reflexivity|]. intros name Hin.
  specialize (Hn name Hin). rewrite !in_app_iff in Hn. tauto.
Qed.

Lemma refresh_cases (config : Config.t) (ignore_file global_ignore : text_file)
    (scan_path : Path) (d : node) :
  refresh config ignore_file global_ignore scan_path d =
  match load_ignore_patterns strip config ignore_file global_ignore with
  | Raise e => (Raise e, [])
  | Ok ignore_patterns => run config ignore_patterns None scan_path d
  end.
Proof. reflexivity. Qed.


(** X18.  The start-up scan depends on the configuration only through the
    ignore patterns and the four classification settings: two configuration
    documents that [Config.load] accepts and that agree on these give the
    same scan.  So [exclude_nested_git_repos], the [ui] table and the
    [integrations] table have no effect on it, and [default_path] has none
    beyond whether [expanduser] accepts it. *)
Theorem main_scan_unused_settings :
  forall (data1 data2 : toml_data) (config1 config2 : Config.t)
         (ignore_file global_ignore : text_file) (scan_path : Path) (d : node),
    load (ConfigFile data1) = Ok config1 ->
    load (ConfigFile data2) = Ok config2 ->
    configured_patterns (ConfigFile data1) =
    configured_patterns (ConfigFile data2) ->
    data_classification data1 = data_classification data2 ->
    main_scan' (ConfigFile data1) ignore_file global_ignore scan_path d =
    main_scan' (ConfigFile data2) ignore_file global_ignore scan_path d.
Proof.
  intros data1 data2 config1 config2 ignore_file global_ignore scan_path d
         L1 L2 Hp Hc.
  unfold main_scan. rewrite L1, L2.
  rewrite !load_ignore_patterns_result.
  rewrite (Config_load_ignore_patterns _ _ _ _ _ L1).
  rewrite (Config_load_ignore_patterns _ _ _ _ _ L2).
  rewrite Hp.
  destruct (read_error ignore_file); [reflexivity|].
  destruct (read_error global_ignore); [reflexivity|].
  unfold configured_scan.
  rewrite (Config_load_classification _ _ _ _ _ L1).
  rewrite (Config_load_classification _ _ _ _ _ L2).
  now rewrite Hc.
Qed.

End Pipeline.

(** ** The filters of the application *)

Lemma list_index_spec (x : string) (l : list string) :
  match list_index x l with
  | Ok i => (i < List.length l)%nat /\ nth i l "" = x
  | Raise e => e = ValueError /\ ~ In x l
  end.
Proof.
  induction l as [|y l IH]; simpl.
  - split; [reflexivity|tauto].
  - destruct (String.eqb_spec y x) as [->|Hne].
    + split; [lia|reflexivity].
    + destruct (list_index x l) as [i|e]; simpl.
      * destruct IH as [Hlt Hn]. split; [lia|exact Hn].
      * destruct IH as [-> Hn]. split; [reflexivity|]. tauto.
Qed.

Lemma action_cycle_filter_next (i : nat) :
  (i < 8)%nat ->
  action_cycle_filter (nth i filters "") =
  Ok (nth ((i + 1) mod 8)%nat filters "").
Proof.
  intro Hi. do 8 (destruct i as [|i]; [reflexivity|]). lia.
Qed.

(** X19.  From [all], the filter the application starts with, pressing the filter
    key never raises: [n] presses select the filter at position [n mod 8],
    so the eight filters are visited in the order of the list and the
    eighth press returns to [all].  The key raises [ValueError] exactly for a
    current filter that is not one of the eight, which no press produces. *)
Theorem action_cycle_filter_cycles :
  (forall n : nat,
      presses n "all" = Ok (nth (n mod 8)%nat filters "")) /\
  (forall current_filter,
      In current_filter filters ->
      exists next,
        action_cycle_filter current_filter = Ok next /\ In next filters) /\
  (forall current_filter e,
      action_cycle_filter current_filter = Raise e <->
      e = ValueError /\ ~ In current_filter filters).
Proof.
  split; [|split].
  - induction n as [|n IH]; [reflexivity|].
    cbn [presses]. rewrite IH. cbn [rbind].
    rewrite action_cycle_filter_next
      by (apply Nat.mod_upper_bound; discriminate).
    rewrite Nat.Div0.add_mod_idemp_l. now rewrite Nat.add_1_r.
  - intros f Hin. apply In_nth with (d := "") in Hin.
    destruct Hin as [i [Hi <-]].
    exists (nth ((i + 1) mod 8)%nat filters "").
    split; [now apply action_cycle_filter_next|].
    apply nth_In. apply Nat.mod_upper_bound. discriminate.
  - intros f e. unfold action_cycle_filter.
    pose proof (list_index_spec f filters) as H.
    destruct (list_index f filters) as [i|e']; cbn [rbind].
    + destruct H as [Hlt <-]. split; [discriminate|].
      intros [_ Hn]. exfalso. apply Hn. now apply nth_In.
    + destruct H as [-> Hn]. split; [intros [= <-]; auto|].
      intros [-> _]. reflexivity.
Qed.

Section AppFilters.

Variable now : Z.
Variable open_repo : Path -> result Repo.
Variable ignore_patterns : list string.
Variables active_threshold dormant_threshold : Z.
Variables prunable_min_size_mb prunable_max_size_mb : Q.
Variable R : Type.
Variable progress_callback : option (Path -> nat -> R).

Notation scan :=
  (scan_for_projects now open_repo ignore_patterns active_threshold
     dormant_threshold prunable_min_size_mb prunable_max_size_mb R
     progress_callback).

Lemma derived_prunable (pr : Project.t) :
  derived_fields now active_threshold dormant_threshold prunable_min_size_mb
    prunable_max_size_mb pr ->
  Project.is_prunable pr = true ->
  Project.classification pr = STALE /\ Project.git_remote pr = None.
Proof.
  intros [_ [_ [Hp _]]] H. rewrite Hp in H. unfold is_prunable in H.
  destruct (Project.classification pr); try discriminate.
  destruct (Project.git_remote pr); [discriminate|]. auto.
Qed.

Lemma derived_wip (pr : Project.t) :
  derived_fields now active_threshold dormant_threshold prunable_min_size_mb
    prunable_max_size_mb pr ->
  Project.classification pr = WIP ->
  Project.git_remote pr = None /\ Project.readme_path pr = None.
Proof.
  intros [_ [Hc _]] H. rewrite Hc in H. unfold classify_project in H.
  destruct (_ <=? active_threshold).
  - destruct (Project.git_remote pr), (Project.readme_path pr);
      try discriminate. auto.
  - destruct (_ <=? dormant_threshold); discriminate.
Qed.

(** X20.  On the records of a scan the filters of the application are nested:
    every project the [prunable] filter shows is also shown by [stale] and
    by [no_remote], and every project the [wip] filter shows is also shown
    by [no_remote] and by [no_readme]. *)
Theorem filters_nested_on_scan_records :
  forall (root : Path) (d : node) (check_root : bool)
         (projects : list Project.t),
    fst (scan root d check_root) = Ok projects ->
    incl (filter_projects "prunable" projects)
         (filter_projects "stale" projects) /\
    incl (filter_projects "prunable" projects)
         (filter_projects "no_remote" projects) /\
    incl (filter_projects "wip" projects)
         (filter_projects "no_remote" projects) /\
    incl (filter_projects "wip" projects)
         (filter_projects "no_readme" projects).
Proof.
  intros root d check_root projects Hs.
  pose proof (proj2 (scan_derived now open_repo ignore_patterns
                       active_threshold dormant_threshold
                       prunable_min_size_mb prunable_max_size_mb R
                       progress_callback root d check_root) projects Hs) as Hd.
  rewrite Forall_forall in Hd.
  change (filter_projects "prunable" projects)
    with (filter Project.is_prunable projects).
  change (filter_projects "stale" projects)
    with (filter (fun p => Classification_eqb (Project.classification p) STALE)
            projects).
  change (filter_projects "wip" projects)
    with (filter (fun p => Classification_eqb (Project.classification p) WIP)
            projects).
  change (filter_projects "no_remote" projects)
    with (filter (fun p => negb (is_some (Project.git_remote p))) projects).
  change (filter_projects "no_readme" projects)
    with (filter (fun p => negb (is_some (Project.readme_path p))) projects).
  repeat split; intros pr Hin; apply filter_In in Hin;
    destruct Hin as [Hin Hf]; apply filter_In; (split; [exact Hin|]).
  - destruct (derived_prunable pr (Hd pr Hin) Hf) as [-> _]. reflexivity.
  - destruct (derived_prunable pr (Hd pr Hin) Hf) as [_ ->]. reflexivity.
  - assert (Hw : Project.classification pr = WIP)
      by (destruct (Project.classification pr); (reflexivity || discriminate)).
    destruct (derived_wip pr (Hd pr Hin) Hw) as [-> _]. reflexivity.
  - assert (Hw : Project.classification pr = WIP)
      by (destruct (Project.classification pr); (reflexivity || discriminate)).
    destruct (derived_wip pr (Hd pr Hin) Hw) as [_ ->]. reflexivity.
Qed.

End AppFilters.

(** ** The age shown for a project *)

Lemma string_length_append (s t : string) :
  String.length (s ++ t)%string = (String.length s + String.length t)%nat.
Proof. induction s as [|c s IH]; simpl; [reflexivity|now rewrite IH]. Qed.

Lemma ago_not_today (s unit : string) :
  In unit ["d"; "w"; "mo"; "y"] -> (s ++ unit ++ " ago")%string <> "today".
Proof.
  intros Hu E. pose proof (f_equal String.length E) as Hl.
  rewrite string_length_append in Hl.
  destruct s as [|c s].
  - simpl in Hu. destruct Hu as [<-|[<-|[<-|[<-|[]]]]]; discriminate.
  - simpl in Hu. destruct Hu as [<-|[<-|[<-|[<-|[]]]]]; simpl in Hl; lia.
Qed.

Lemma age_days_zero (now : Z) (self : Project.t) :
  age_days now self = 0 <->
  0 <= now - Project.last_modified self < microseconds_per_day.
Proof.
  unfold age_days, timedelta_days.
  assert (Hpos : 0 < microseconds_per_day) by reflexivity.
  split.
  - intro H. apply Z.div_small_iff in H; [|lia]. lia.
  - intro H. apply Z.div_small. exact H.
Qed.

Lemma age_display_units (now : Z) (self : Project.t) :
  1 <= age_days now self ->
  exists n unit size,
    In (unit, size) age_units /\
    age_display now self = (str n ++ unit ++ " ago")%string /\
    1 <= n /\ n * size <= age_days now self < (n + 1) * size.
Proof.
  unfold age_display. set (days := age_days now self). intro Hd.
  destruct (Z.eqb_spec days 0) as [E0|N0]; [lia|].
  destruct (Z.eqb_spec days 1) as [E1|N1].
  { exists 1, "d", 1. rewrite E1.
    split; [left; reflexivity|]. split; [reflexivity|lia]. }
  destruct (Z.ltb_spec days 7) as [L7|G7].
  { exists days, "d", 1.
    split; [left; reflexivity|]. split; [reflexivity|lia]. }
  destruct (Z.ltb_spec days 30) as [L30|G30].
  { pose proof (Z.mul_div_le days 7 eq_refl) as Hl.
    pose proof (Z.mul_succ_div_gt days 7 eq_refl) as Hu.
    exists (days / 7), "w", 7.
    split; [right; left; reflexivity|].
    split; [|lia].
    destruct (Z.ltb_spec 1 (days / 7)) as [Hw|Hw]; [reflexivity|].
    replace (days / 7) with 1 by lia. reflexivity. }
  destruct (Z.ltb_spec days 365) as [L365|G365].
  { pose proof (Z.mul_div_le days 30 eq_refl) as Hl.
    pose proof (Z.mul_succ_div_gt days 30 eq_refl) as Hu.
    exists (days / 30), "mo", 30.
    split; [right; right; left; reflexivity|].
    split; [|lia].
    destruct (Z.ltb_spec 1 (days / 30)) as [Hw|Hw]; [reflexivity|].
    replace (days / 30) with 1 by lia. reflexivity. }
  pose proof (Z.mul_div_le days 365 eq_refl) as Hl.
  pose proof (Z.mul_succ_div_gt days 365 eq_refl) as Hu.
  exists (days / 365), "y", 365.
  split; [right; right; right; left; reflexivity|].
  split; [|lia].
  destruct (Z.ltb_spec 1 (days / 365)) as [Hw|Hw]; [reflexivity|].
  replace (days / 365) with 1 by lia. reflexivity.
Qed.

Lemma age_display_today (now : Z) (self : Project.t) :
  age_display now self = "today" <-> age_days now self = 0.
Proof.
  split.
  - intro H. destruct (Z.eq_dec (age_days now self) 0) as [E|N]; [exact E|].
    exfalso. destruct (Z_lt_le_dec (age_days now self) 1) as [Hneg|Hpos].
    + unfold age_display in H.
      destruct (Z.eqb_spec (age_days now self) 0); [lia|].
      destruct (Z.eqb_spec (age_days now self) 1); [lia|].
      destruct (Z.ltb_spec (age_days now self) 7); [|lia].
      revert H. apply (ago_not_today _ "d"). left. reflexivity.
    + destruct (age_display_units now self Hpos)
        as [n [unit [size [Hin [E _]]]]].
      rewrite E in H. revert H. apply ago_not_today.
      simpl in Hin. simpl.
      destruct Hin as [[= <- _]|[[= <- _]|[[= <- _]|[[= <- _]|[]]]]]; auto.
  - intro E. unfold age_display. now rewrite E.
Qed.

(** X21.  [age_display] shows [today] exactly when the last modification lies
    less than 24 hours back and not in the future.  From one day on it shows
    a count [n >= 1] of whole units: days below a week, weeks below 30
    days, months of 30 days below 365 days, years of 365 days from there.
    For a last modification in the future it shows the negative number of
    days. *)
Theorem age_display_whole_units :
  forall (now : Z) (self : Project.t),
    (age_display now self = "today" <->
     0 <= now - Project.last_modified self < microseconds_per_day) /\
    (1 <= age_days now self ->
     exists n unit size,
       In (unit, size) age_units /\
       age_display now self = (str n ++ unit ++ " ago")%string /\
       1 <= n /\ n * size <= age_days now self < (n + 1) * size) /\
    (age_days now self < 0 ->
     age_display now self = (str (age_days now self) ++ "d ago")%string).
Proof.
  intros now self. split; [|split].
  - rewrite age_display_today. apply age_days_zero.
  - apply age_display_units.
  - intro Hneg. unfold age_display.
    destruct (Z.eqb_spec (age_days now self) 0); [lia|].
    destruct (Z.eqb_spec (age_days now self) 1); [lia|].
    destruct (Z.ltb_spec (age_days now self) 7); [reflexivity|lia].
Qed.

(** A project last modified 45 days ago, and one modified a day and a half
    in the future. *)
Example age_display_examples :
  age_display (50 * microseconds_per_day)
    (Project.mk ["r"] "r" false None None None UNKNOWN
       (5 * microseconds_per_day) 0 STALE false) = "1mo ago" /\
  age_display (50 * microseconds_per_day)
    (Project.mk ["r"] "r" false None None None UNKNOWN
       (51 * microseconds_per_day + 43200000000) 0 ACTIVE false) = "-2d ago".
Proof. split; reflexivity. Qed.

(** ** The configuration and application properties on the samples *)

Lemma main_scan_skips_ignored_witness :
  exists rel,
    ["r"; "parent"; "child"] = ["r"] ++ rel /\
    forall name, In name rel ->
      ~ In name DEFAULT_IGNORE_PATTERNS /\
      ~ In name (configured_patterns sample_config) /\
      ~ In name (effective_lines ascii_strip sample_ignore_file) /\
      ~ In name (effective_lines ascii_strip Absent).
Proof.
  apply (main_scan_skips_ignored (Ok ["home"]) None (fun s => Ok [s])
           ascii_strip
           (10 * microseconds_per_day) invalid_repo sample_config
           sample_ignore_file Absent ["r"] nested_tree).
  left. vm_compute. repeat first [left; reflexivity | right].
Defined.


Lemma main_scan_unused_settings_witness :
  sample_main sample_config sample_ignore_file Absent ["r"] nested_tree =
  sample_main sample_config_nested sample_ignore_file Absent ["r"] nested_tree.
Proof.
  apply (main_scan_unused_settings (Ok ["home"]) None (fun s => Ok [s])
           ascii_strip (10 * microseconds_per_day) invalid_repo sample_data
           sample_data_nested _ _ sample_ignore_file Absent ["r"] nested_tree
           eq_refl eq_refl eq_refl eq_refl).
Defined.

Lemma filters_nested_on_scan_records_witness :
  incl (filter_projects "wip"
          (match fst (sample_scan ["node_modules"] None ["r"] nested_tree) with
           | Ok ps => ps
           | Raise _ => []
           end))
       (filter_projects "no_readme"
          (match fst (sample_scan ["node_modules"] None ["r"] nested_tree) with
           | Ok ps => ps
           | Raise _ => []
           end)).
Proof.
  apply (filters_nested_on_scan_records (10 * microseconds_per_day)
           invalid_repo ["node_modules"] 30 180 10 1 unit None ["r"]
           nested_tree true
           (match fst (sample_scan ["node_modules"] None ["r"] nested_tree) with
            | Ok ps => ps
            | Raise _ => []
            end)
           eq_refl).
Defined.

(** ** The warning of the prune dialog *)

Section PruneWarning.

Variable now : Z.
Variable open_repo : Path -> result Repo.
Variable ignore_patterns : list string.
Variables active_threshold dormant_threshold : Z.
Variables prunable_min_size_mb prunable_max_size_mb : Q.
Variable R : Type.
Variable progress_callback : option (Path -> nat -> R).

Notation scan :=
  (scan_for_projects now open_repo ignore_patterns active_threshold
     dormant_threshold prunable_min_size_mb prunable_max_size_mb R
     progress_callback).

Lemma prune_warns_status (pr : Project.t) :
  prune_warns pr = true <->
  Project.has_git pr = true /\
  (Project.git_status pr = Some DIRTY \/ Project.git_status pr = Some UNPUSHED).
Proof.
  unfold prune_warns. rewrite andb_true_iff.
  destruct (Project.git_status pr) as [[| | |]|]; simpl;
    intuition (discriminate || auto).
Qed.

(** X22.  For every record of a scan, the prune dialog warns of uncommitted or
    unpushed changes exactly when the status is Dirty or Unpushed, and such
    a record has a remote.  So the warning is never shown for a project
    without remote, and in particular never for a prunable one: whether a
    repository without remote has uncommitted changes is not looked at. *)
Theorem prune_warning_needs_remote :
  forall (root : Path) (d : node) (check_root : bool)
         (ps : list Project.t) (pr : Project.t),
    fst (scan root d check_root) = Ok ps -> In pr ps ->
    (prune_warns pr = true <->
     Project.git_status pr = Some DIRTY \/
     Project.git_status pr = Some UNPUSHED) /\
    (Project.git_remote pr = None -> prune_warns pr = false) /\
    (Project.is_prunable pr = true -> prune_warns pr = false).
Proof.
  intros root d check_root ps pr Hps Hin.
  assert (Hshape : vcs_shape (Project.has_git pr) (Project.git_remote pr)
                     (Project.git_status pr)).
  { destruct (scan_records now open_repo ignore_patterns active_threshold
                dormant_threshold prunable_min_size_mb prunable_max_size_mb
                R progress_callback root d check_root) as [_ H].
    specialize (H ps Hps). rewrite Forall_forall in H.
    destruct (H pr Hin) as [name [dir Hr]].
    apply record_git_fields in Hr.
    eapply get_git_info_shape. exact Hr. }
  assert (Hnone : Project.git_remote pr = None -> prune_warns pr = false).
  { intro Hn. destruct (prune_warns pr) eqn:E; [|reflexivity].
    apply prune_warns_status in E. destruct E as [_ [E|E]];
      rewrite E in Hshape; simpl in Hshape; tauto. }
  split; [|split; [exact Hnone|]].
  - rewrite prune_warns_status. split; [tauto|].
    intro H. split; [|exact H].
    destruct H as [E|E]; rewrite E in Hshape; simpl in Hshape; tauto.
  - intro Hp. apply Hnone.
    pose proof (proj2 (scan_derived now open_repo ignore_patterns
                         active_threshold dormant_threshold
                         prunable_min_size_mb prunable_max_size_mb R
                         progress_callback root d check_root) ps Hps) as Hd.
    rewrite Forall_forall in Hd.
    exact (proj2 (derived_prunable now active_threshold dormant_threshold
                    prunable_min_size_mb prunable_max_size_mb pr
                    (Hd pr Hin) Hp)).
Qed.

End PruneWarning.

(** A repository without remote and with uncommitted changes is recorded
    as prunable with status NoRemote, and the dialog does not warn. *)
Lemma prune_warning_needs_remote_witness :
  Forall (fun pr =>
            Project.is_prunable pr = true /\
            Project.git_status pr = Some NO_REMOTE /\
            prune_warns pr = false)
    (match fst dirty_local_scan with
     | Ok ps => ps
     | Raise _ => []
     end) /\
  List.length (match fst dirty_local_scan with
               | Ok ps => ps
               | Raise _ => []
               end) = 1%nat.
Proof.
  split; [|vm_compute; reflexivity].
  destruct (fst dirty_local_scan) as [ps|e] eqn:E; [|constructor].
  assert (Hall : Forall (fun pr => Project.is_prunable pr = true /\
                                   Project.git_status pr = Some NO_REMOTE) ps).
  { vm_compute in E. injection E as <-. repeat constructor. }
  apply Forall_forall. intros pr Hin.
  rewrite Forall_forall in Hall. destruct (Hall pr Hin) as [Hp Hs].
  split; [exact Hp|]. split; [exact Hs|].
  exact (proj2 (proj2 (prune_warning_needs_remote
                         (400 * microseconds_per_day)
                         (fun _ => Ok dirty_local_repo) [] 30 180 10 1 unit
                         None ["r"] corrupt_git_dir true ps pr E Hin)) Hp).
Defined.

Lemma dir_at_nested_child :
  dir_at ["node_modules"] nested_tree ["parent"; "child"]
    (Dir (Some 4) true [("setup.py", one_mb_file)]).
Proof.
  unfold nested_tree.
  eapply dir_at_child;
    [right; left; reflexivity|reflexivity|
     unfold not_ignored; simpl; intuition discriminate|].
  eapply dir_at_child;
    [right; left; reflexivity|reflexivity|
     unfold not_ignored; simpl; intuition discriminate|].
  apply dir_at_here.
Defined.

Lemma scan_entered_is_recorded_witness :
  exists ps,
    fst (sample_scan ["node_modules"] None ["r"] nested_tree) = Ok ps /\
    In (EvEval ["r"; "parent"; "child"])
       (snd (sample_scan ["node_modules"] None ["r"] nested_tree)) /\
    exists pr, In pr ps /\ Project.path pr = ["r"; "parent"; "child"].
Proof.
  eexists. split; [vm_compute; reflexivity|].
  destruct (scan_entered_is_recorded (10 * microseconds_per_day) invalid_repo
              ["node_modules"] 30 180 10 1 unit None ["r"] nested_tree _
              names_distinct_nested eq_refl ["parent"; "child"]
              (Dir (Some 4) true [("setup.py", one_mb_file)])
              dir_at_nested_child)
    as [Hev Hrec].
  - vm_compute. repeat first [left; reflexivity | right].
  - split; [exact Hev|]. apply Hrec. reflexivity.
Defined.

(** Where [expanduser] cannot resolve the [default_path] of the
    configuration, [Config.load] raises and [main] ends before the scan. *)
Example main_scan_unknown_user :
  main_scan (Ok ["home"]) None (fun _ => Raise RuntimeError) ascii_strip
    (10 * microseconds_per_day) invalid_repo sample_config_nested
    sample_ignore_file Absent ["r"] nested_tree = (Raise RuntimeError, []).
Proof. reflexivity. Qed.
